(** * Mwi: the adaptive face-match scan of [app.py]

    A shallow embedding of the request handler's core ([process_photos] and
    the helpers it calls) together with the properties stated for it.

    Python values are modelled as follows: [bytes] is a list of bytes, [str]
    is [string], [len] results are [nat], the float tolerances are exact
    rationals ([Q]), and the dynamically typed reference encoding is a
    tagged value.  Exceptions and the two pieces of global state the code
    touches (the random generator and the network) are threaded through a
    small state-and-exception monad. *)

From Stdlib Require Import List String Ascii Bool Arith ZArith QArith Lia.
From Stdlib.Strings Require Import Byte.
From Stdlib Require Import DecimalString DecimalNat FinFun.
Import ListNotations.

Local Open Scope string_scope.
Local Open Scope list_scope.
Local Open Scope nat_scope.

Definition bytes := list byte.

(** ** Exceptions and effects *)

(** The exceptions that the modelled code can see.  Every one of them is a
    subclass of Python's [Exception], so every [except Exception] clause
    catches all of them. *)
Inductive py_exception : Type :=
| RequestException     (* requests.get: connection error, timeout *)
| HTTPError            (* Response.raise_for_status *)
| ImageError           (* cv2 / PIL / face_recognition failures *)
| TypeError
| ZeroDivisionError
| ZipError.            (* zipfile / underlying stream fault *)

Inductive exc (A : Type) : Type :=
| Ok (a : A)
| Raise (e : py_exception).
Arguments Ok {A} a.
Arguments Raise {A} e.

(** The state outside the interpreter: how many numbers [random.random()]
    has handed out, and the URLs requested so far, oldest first. *)
Record world : Type := World {
  rng_pos : nat;
  net_log : list string
}.

Definition M (A : Type) : Type := world -> exc A * world.

Definition ret {A} (a : A) : M A := fun w => (Ok a, w).

Definition raise {A} (e : py_exception) : M A := fun w => (Raise e, w).

Definition lift {A} (r : exc A) : M A := fun w => (r, w).

Definition bind {A B} (m : M A) (k : A -> M B) : M B :=
  fun w =>
    match m w with
    | (Ok a, w') => k a w'
    | (Raise e, w') => (Raise e, w')
    end.

(** [try: body / except Exception as e: handler e] *)
Definition try_except {A} (body : M A) (handler : py_exception -> M A) : M A :=
  fun w =>
    match body w with
    | (Ok a, w') => (Ok a, w')
    | (Raise e, w') => handler e w'
    end.

Declare Scope py_scope.
Delimit Scope py_scope with py.
Notation "x <- m ;; k" := (bind m (fun x => k))
  (at level 100, m at next level, right associativity) : py_scope.
Notation "m ;;; k" := (bind m (fun _ => k))
  (at level 100, right associativity) : py_scope.
Local Open Scope py_scope.

(** ** External collaborators *)

(** A [requests.Response]: the status line and the body, whose download
    (the request is made with [stream=True]) may still fail when read. *)
Record response : Type := Response {
  status_code : Z;
  content : exc bytes
}.

Definition pixel : Type := (Z * Z * Z)%type.

(** What [load_and_encode_face] produced for the selfie: a face vector in
    real mode, the pixel hash in demo mode.  Python does not type the
    value; the tag records which kind of object it is at run time. *)
Inductive reference (face_vec : Type) : Type :=
| RealEncoding (v : face_vec)
| DemoEncoding (h : Z).
Arguments RealEncoding {face_vec} v.
Arguments DemoEncoding {face_vec} h.

Inductive compression : Type := ZIP_STORED | ZIP_DEFLATED.

(** One member of a ZIP archive: its name, its method and the bytes as
    they sit in the container. *)
Record zip_entry : Type := ZipEntry {
  entry_name : string;
  entry_method : compression;
  entry_stored : bytes
}.

(** A [zipfile.ZipFile] over a [BytesIO]: the method given when it was
    opened and the members written so far, oldest first. *)
Record zip_file : Type := ZipFile {
  zip_compression : compression;
  zip_entries : list zip_entry
}.

(** The libraries the program calls and does not define. *)
Record externals : Type := Externals {
  cv_image : Type;
  face_vec : Type;
  pil_image : Type;
  (** [requests.get(url, timeout=...)]: the answer of the remote side *)
  http : string -> Z -> exc response;
  (** [cv2.imdecode(np.frombuffer(content, np.uint8), cv2.IMREAD_COLOR)];
      [None] is cv2's way of saying the buffer is not an image *)
  cv2_imdecode : bytes -> exc (option cv_image);
  cv2_cvtColor : cv_image -> exc cv_image;
  face_encodings : cv_image -> exc (list face_vec);
  (** [face_recognition.compare_faces([reference], candidate, tolerance)[0]] *)
  compare_faces : face_vec -> face_vec -> Q -> exc bool;
  (** [Image.open(BytesIO(content))] *)
  Image_open : bytes -> exc pil_image;
  (** [list(img.convert('RGB').resize((100, 100)).getdata())] *)
  rgb_pixels : pil_image -> exc (list pixel);
  (** [hash(str(pixels))]; fixed for the life of the process *)
  hash_str : list pixel -> Z;
  (** the successive results of [random.random()] *)
  random_draws : nat -> Q;
  (** [re.findall(r'"([a-zA-Z0-9_-]{25,})"', text)] *)
  findall_file_ids : string -> list string;
  (** zlib's deflate and its inverse, as [zipfile] uses them *)
  deflate : bytes -> bytes;
  inflate : bytes -> bytes;
  (** whether [ZipFile.writestr] fails on the underlying stream, given the
      members already written, the new name and the new data *)
  write_fault : list zip_entry -> string -> bytes -> bool
}.

(** [enumerate(l)], and [enumerate(l, start)] *)
Fixpoint enumerate_from {A} (start : nat) (l : list A) : list (nat * A) :=
  match l with
  | [] => []
  | x :: l' => (start, x) :: enumerate_from (S start) l'
  end.

Definition enumerate {A} (l : list A) : list (nat * A) := enumerate_from 0 l.

(** ** Policy selection ([process_photos], "smart automatic limits") *)

Definition smart_limits (total_images : nat) : nat * Q :=
  if total_images <=? 30 then
    (total_images, 0.6%Q)
  else if total_images <=? 100 then
    (Nat.min total_images 60, 0.6%Q)
  else
    (80, 0.65%Q).

Definition max_images_of (total_images : nat) : nat := fst (smart_limits total_images).
Definition face_tolerance_of (total_images : nat) : Q := snd (smart_limits total_images).

(** ** Archive names: [f"photo_{i+1:03d}.jpg"] *)

(** [str.zfill]: zeros in front up to [width] characters *)
Fixpoint zeros (n : nat) : string :=
  match n with
  | O => EmptyString
  | S n' => String "0" (zeros n')
  end.

Definition zfill (width : nat) (s : string) : string :=
  (zeros (width - String.length s) ++ s)%string.

(** [f"{n:03d}"] for a non-negative [n] *)
Definition format_03d (n : nat) : string :=
  zfill 3 (NilEmpty.string_of_uint (Nat.to_uint n)).

Definition photo_filename (i : nat) : string :=
  ("photo_" ++ format_03d (i + 1) ++ ".jpg")%string.

(** The type of the reference encoding, given the libraries' face vectors. *)
Definition ref_encoding (E : externals) : Type := reference (face_vec E).

Section Program.

Variable E : externals.

(** The module-level flag set by the guarded import at start-up. *)
Variable FACE_RECOGNITION_AVAILABLE : bool.


(** *** Effects of the libraries *)

Definition requests_get (url : string) (timeout : Z) : M response :=
  fun w => (http E url timeout,
            {| rng_pos := rng_pos w; net_log := net_log w ++ [url] |}).

Definition raise_for_status (r : response) : M unit :=
  if ((400 <=? status_code r) && (status_code r <? 600))%Z
  then raise HTTPError
  else ret tt.

Definition random_random : M Q :=
  fun w => (Ok (random_draws E (rng_pos w)),
            {| rng_pos := S (rng_pos w); net_log := net_log w |}).

(** *** [get_drive_images] *)

Definition direct_url (file_id : string) : string :=
  ("https://drive.google.com/uc?id=" ++ file_id ++ "&export=download")%string.

Definition get_drive_images (folder_id : string) (max_images : nat) : M (list string) :=
  try_except
    (let folder_url := ("https://drive.google.com/drive/folders/" ++ folder_id)%string in
     response <- requests_get folder_url 10 ;;
     _ <- raise_for_status response ;;
     body <- lift (content response) ;;
     let potential_ids := findall_file_ids E (string_of_list_byte body) in
     let image_urls :=
       map direct_url
           (filter (fun file_id => 25 <=? String.length file_id)
                   (firstn max_images potential_ids)) in
     ret (firstn max_images image_urls))
    (fun _ => ret []).

(** *** [check_face_match] *)

(** The [for face_encoding in face_encodings] loop of real mode. *)
Fixpoint compare_each (reference_encoding : ref_encoding E) (tolerance : Q)
         (data : bytes) (encodings : list (face_vec E)) : M (bool * option bytes) :=
  match encodings with
  | [] => ret (false, None)
  | face_encoding :: rest =>
      matches0 <- lift (match reference_encoding with
                        | RealEncoding v => compare_faces E v face_encoding tolerance
                        | DemoEncoding _ => Raise TypeError
                        end) ;;
      if (matches0 : bool) then ret (true, Some data)
      else compare_each reference_encoding tolerance data rest
  end.

(** The branch taken when the face libraries were imported. *)
Definition real_match (r : response) (reference_encoding : ref_encoding E)
           (tolerance : Q) : M (bool * option bytes) :=
  data <- lift (content r) ;;
  image <- lift (cv2_imdecode E data) ;;
  match image with
  | None => ret (false, None)
  | Some image =>
      rgb_image <- lift (cv2_cvtColor E image) ;;
      encodings <- lift (face_encodings E rgb_image) ;;
      match encodings with
      | [] => ret (false, None)
      | _ => compare_each reference_encoding tolerance data encodings
      end
  end.

(** The branch taken otherwise: a hash of the first pixels and a coin. *)
Definition demo_match (r : response) (reference_encoding : ref_encoding E)
  : M (bool * option bytes) :=
  data <- lift (content r) ;;
  img <- lift (Image_open E data) ;;
  pixels <- lift (rgb_pixels E img) ;;
  let image_encoding := (hash_str E (firstn 100 pixels) mod 1000000)%Z in
  match reference_encoding with
  | DemoEncoding reference_hash =>
      let similarity_score := (Z.abs (image_encoding - reference_hash) mod 100)%Z in
      is_match <- (if (similarity_score <? 35)%Z then ret true
                   else (x <- random_random ;; ret (negb (Qle_bool 0.25 x)))) ;;
      if (is_match : bool) then ret (true, Some data) else ret (false, None)
  | RealEncoding _ => raise TypeError
  end.

(** The inner [try] of [check_face_match]: everything done with the
    response once it has arrived. *)
Definition match_response (r : response) (reference_encoding : ref_encoding E)
           (tolerance : Q) : M (bool * option bytes) :=
  try_except
    (if FACE_RECOGNITION_AVAILABLE
     then real_match r reference_encoding tolerance
     else demo_match r reference_encoding)
    (fun _ => ret (false, None)).

Definition check_face_match (image_url : string) (reference_encoding : ref_encoding E)
           (timeout : Z) (tolerance : Q) : M (bool * option bytes) :=
  try_except
    (r <- requests_get image_url timeout ;;
     _ <- raise_for_status r ;;
     match_response r reference_encoding tolerance)
    (fun _ => ret (false, None)).

(** *** [create_photos_zip] *)

(** [zipf.writestr(filename, image_data)] on an archive opened with some
    compression method. *)
Definition writestr (zipf : zip_file) (filename : string) (image_data : bytes)
  : exc zip_file :=
  if write_fault E (zip_entries zipf) filename image_data then Raise ZipError
  else
    let stored := match zip_compression zipf with
                  | ZIP_STORED => image_data
                  | ZIP_DEFLATED => deflate E image_data
                  end in
    Ok {| zip_compression := zip_compression zipf;
          zip_entries := zip_entries zipf
                         ++ [ {| entry_name := filename;
                                 entry_method := zip_compression zipf;
                                 entry_stored := stored |} ] |}.

Fixpoint write_photos (items : list (nat * bytes)) (zipf : zip_file) : exc zip_file :=
  match items with
  | [] => Ok zipf
  | (i, image_data) :: rest =>
      match writestr zipf (photo_filename i) image_data with
      | Ok zipf' => write_photos rest zipf'
      | Raise e => Raise e
      end
  end.

(** [None] is Python's [None], returned from the [except] clause. *)
Definition create_photos_zip (matched_images : list bytes) : option zip_file :=
  match write_photos (enumerate matched_images)
                     {| zip_compression := ZIP_DEFLATED; zip_entries := [] |} with
  | Ok zip_buffer => Some zip_buffer
  | Raise _ => None
  end.

(** Reading an archive back, as [zipfile] does it. *)
Definition read_entry (e : zip_entry) : bytes :=
  match entry_method e with
  | ZIP_STORED => entry_stored e
  | ZIP_DEFLATED => inflate E (entry_stored e)
  end.

Definition namelist (z : zip_file) : list string := map entry_name (zip_entries z).

(** [ZipFile.read(name)]: the last member written under that name. *)
Definition zip_read (z : zip_file) (name : string) : option bytes :=
  match find (fun e => String.eqb (entry_name e) name) (rev (zip_entries z)) with
  | Some e => Some (read_entry e)
  | None => None
  end.

(** Every member with its contents, in archive order. *)
Definition extract_all (z : zip_file) : list (string * bytes) :=
  map (fun e => (entry_name e, read_entry e)) (zip_entries z).

(** *** The scan loop of [process_photos] *)

(** The two locals the loop updates. *)
Record scan_state : Type := ScanState {
  matched_images : list bytes;
  processed_count : nat
}.

(** How an iteration ended: it fell through to the next one, or it left the
    loop by the first or by the second [break]. *)
Inductive loop_exit : Type := NoBreak | BreakLarge | BreakVeryLarge.

(** The progress line computes [((i+1)/max_images)*100]. *)
Definition log_progress (i max_images : nat) : M unit :=
  if max_images =? 0 then raise ZeroDivisionError else ret tt.

Definition loop_body (total_images max_images : nat)
           (reference_encoding : ref_encoding E) (face_tolerance : Q)
           (item : nat * string) (s : scan_state) : M (scan_state * loop_exit) :=
  let '(i, url) := item in
  try_except
    (_ <- log_progress i max_images ;;
     result <- check_face_match url reference_encoding 15 face_tolerance ;;
     let processed := processed_count s + 1 in
     let matched :=
       match result with
       | (true, Some (b :: rest)) => matched_images s ++ [b :: rest]
       | _ => matched_images s
       end in
     let s' := {| matched_images := matched; processed_count := processed |} in
     if (50 <? total_images) && (15 <=? List.length matched) then ret (s', BreakLarge)
     else if (100 <? total_images) && (25 <=? List.length matched) then ret (s', BreakVeryLarge)
     else ret (s', NoBreak))
    (fun _ => ret (s, NoBreak)).

Fixpoint for_images (total_images max_images : nat)
         (reference_encoding : ref_encoding E) (face_tolerance : Q)
         (items : list (nat * string)) (s : scan_state) : M (scan_state * loop_exit) :=
  match items with
  | [] => ret (s, NoBreak)
  | item :: rest =>
      r <- loop_body total_images max_images reference_encoding face_tolerance item s ;;
      match snd r with
      | NoBreak => for_images total_images max_images reference_encoding
                              face_tolerance rest (fst r)
      | _ => ret r
      end
  end.

Definition scan_start : scan_state := {| matched_images := []; processed_count := 0 |}.

(** Lines 235-278: the limits, then the loop over [image_urls[:max_images]]. *)
Definition scan_images (reference_encoding : ref_encoding E) (image_urls : list string)
  : M (scan_state * loop_exit) :=
  let total_images := List.length image_urls in
  let max_images := max_images_of total_images in
  let face_tolerance := face_tolerance_of total_images in
  for_images total_images max_images reference_encoding face_tolerance
             (enumerate (firstn max_images image_urls)) scan_start.

(** *** The loop as a transition system *)

(** A point of the loop's execution: the items not yet taken, the locals,
    the outside world, and whether a [break] has been executed. *)
Record loop_config : Type := Config {
  remaining : list (nat * string);
  locals : scan_state;
  outside : world;
  left_by : loop_exit
}.

Inductive loop_step (total_images max_images : nat)
          (reference_encoding : ref_encoding E) (face_tolerance : Q)
  : loop_config -> loop_config -> Prop :=
| step_iteration : forall item rest s w s' e w',
    loop_body total_images max_images reference_encoding face_tolerance item s w
    = (Ok (s', e), w') ->
    loop_step total_images max_images reference_encoding face_tolerance
              (Config (item :: rest) s w NoBreak) (Config rest s' w' e).

Inductive loop_reach (total_images max_images : nat)
          (reference_encoding : ref_encoding E) (face_tolerance : Q) (c0 : loop_config)
  : loop_config -> Prop :=
| reach_start : loop_reach total_images max_images reference_encoding face_tolerance c0 c0
| reach_step : forall c c',
    loop_reach total_images max_images reference_encoding face_tolerance c0 c ->
    loop_step total_images max_images reference_encoding face_tolerance c c' ->
    loop_reach total_images max_images reference_encoding face_tolerance c0 c'.

(** The configuration in which [scan_images] enters its loop. *)
Definition scan_entry (image_urls : list string) (w : world) : loop_config :=
  Config (enumerate (firstn (max_images_of (List.length image_urls)) image_urls))
         scan_start w NoBreak.

Definition scan_reach (reference_encoding : ref_encoding E) (image_urls : list string)
           (w : world) : loop_config -> Prop :=
  loop_reach (List.length image_urls) (max_images_of (List.length image_urls))
             reference_encoding (face_tolerance_of (List.length image_urls))
             (scan_entry image_urls w).

(** *** [process_photos], from the folder listing on *)

Inductive reply : Type :=
| JsonError (status : Z) (message : string)
| SendFile (data : zip_file) (mimetype download_name : string).

(** Lines 230-298, given the listing. *)
Definition process_images (reference_encoding : ref_encoding E) (image_urls : list string)
  : M reply :=
  match image_urls with
  | [] => ret (JsonError 400 "No images found in the folder or folder is private")
  | _ =>
      r <- scan_images reference_encoding image_urls ;;
      match matched_images (fst r) with
      | [] => ret (JsonError 404 "No photos found with your face")
      | matched =>
          match create_photos_zip matched with
          | None => ret (JsonError 500 "Error creating ZIP file")
          | Some zip_data => ret (SendFile zip_data "application/zip" "yourphotos.zip")
          end
      end
  end.

(** The handler once the selfie has been encoded and the folder id
    extracted (line 229 on); [get_drive_images] is called with its default
    limit. *)
Definition process_photos (folder_id : string) (reference_encoding : ref_encoding E)
  : M reply :=
  try_except
    (image_urls <- get_drive_images folder_id 50 ;;
     process_images reference_encoding image_urls)
    (fun _ => ret (JsonError 500 "An error occurred while processing your request")).

End Program.

Arguments requests_get E url timeout w /.
Arguments random_random E w /.

(** ** A small concrete instance of the libraries

    Used to run the definitions: a URL's body is its own characters, the
    faces of an image are its bytes, and two faces compare equal when they
    are the same number.  The empty URL cannot be fetched, a URL starting
    with [!] answers 404, a body starting with [?] does not decode, and a
    body starting with [-] shows no face. *)
Module Toy.

Definition byte_code (b : byte) : Z := Z.of_N (Byte.to_N b).

Definition http (url : string) (timeout : Z) : exc response :=
  match url with
  | EmptyString => Raise RequestException
  | String c _ =>
      if Ascii.eqb c "!" then Ok (Response 404 (Ok []))
      else Ok (Response 200 (Ok (list_byte_of_string url)))
  end.

Definition cv2_imdecode (data : bytes) : exc (option bytes) :=
  match data with
  | [] => Raise ImageError
  | b :: _ => if Byte.eqb b "?"%byte then Ok None else Ok (Some data)
  end.

Definition face_encodings (image : bytes) : exc (list Z) :=
  match image with
  | b :: _ => if Byte.eqb b "-"%byte then Ok [] else Ok (map byte_code image)
  | [] => Ok []
  end.

Definition Image_open (data : bytes) : exc bytes :=
  match data with
  | [] => Raise ImageError
  | _ => Ok data
  end.

Definition rgb_pixels (img : bytes) : exc (list pixel) :=
  Ok (map (fun b => (byte_code b, byte_code b, byte_code b)) img).

Definition hash_str (pixels : list pixel) : Z :=
  fold_right (fun p acc => (fst (fst p) + acc)%Z) 0%Z pixels.

(** The first draw is below the demo threshold, the later ones above. *)
Definition random_draws (n : nat) : Q :=
  match n with
  | O => 0.1%Q
  | S _ => 0.9%Q
  end.

Definition file_id : string := "abcdefghijklmnopqrstuvwxyz".

(** Twice as many file ids as the page has characters. *)
Definition findall_file_ids (text : string) : list string :=
  repeat file_id (2 * String.length text).

Definition deflate (data : bytes) : bytes := "000"%byte :: data.

Definition inflate (stored : bytes) : bytes := tl stored.

Definition libs : externals :=
  Externals bytes Z bytes
            http cv2_imdecode (fun image => Ok image) face_encodings
            (fun known candidate _ => Ok (Z.eqb known candidate))
            Image_open rgb_pixels hash_str random_draws findall_file_ids
            deflate inflate (fun _ _ _ => false).

(** The face whose number is the code of the letter [m]. *)
Definition selfie : ref_encoding libs := RealEncoding 109%Z.

Definition w0 : world := {| rng_pos := 0; net_log := [] |}.

(** The candidates of the examples below: those whose URL starts with [m]
    show the face of [selfie], the others show another face or fail. *)
Definition ten_urls : list string :=
  ["a"; "b"; "m2"; ""; "!"; "m5"; "?"; "-"; "x"; "m9"].

(** Without the face libraries: the reference is the pixel hash of a
    selfie whose bytes are [zz], so a candidate [zz] scores 0 and always
    matches, a candidate [a] scores 47 and matches when its draw is below
    0.25. *)
Definition demo_selfie : ref_encoding libs := DemoEncoding 244%Z.

Definition demo_urls : list string := repeat "zz" 15 ++ repeat "a" 45.

Definition demo_five : list string := ["a"; "zz"; "a"; ""; "zz"].

End Toy.

(** ** Vocabulary of the statements *)

(** What one result of [check_face_match] adds to [matched_images]: the
    test of line 262 is [is_match and image_data], and empty bytes are
    false in Python. *)
Definition keep (result : bool * option bytes) : list bytes :=
  match result with
  | (true, Some (b :: rest)) => [b :: rest]
  | _ => []
  end.

(** The [if]/[elif] of lines 269-274 on a folder of [total_images]
    candidates with [n] matches so far. *)
Definition early_exit (total_images n : nat) : loop_exit :=
  if (50 <? total_images) && (15 <=? n) then BreakLarge
  else if (100 <? total_images) && (25 <=? n) then BreakVeryLarge
  else NoBreak.

(** The locals and the way out after an iteration whose call returned
    [result]. *)
Definition after (total_images : nat) (s : scan_state) (result : bool * option bytes)
  : scan_state * loop_exit :=
  let matched := matched_images s ++ keep result in
  ({| matched_images := matched; processed_count := processed_count s + 1 |},
   early_exit total_images (List.length matched)).

(** How a computation of the loop ended, if it returned. *)
Definition exit_of (r : exc (scan_state * loop_exit) * world) : option loop_exit :=
  match fst r with
  | Ok (_, e) => Some e
  | Raise _ => None
  end.

(** What one call of [check_face_match] adds to [matched_images], as an
    option: [Some data] when the call returned [(True, data)] with [data]
    of at least one byte, [None] otherwise. *)
Definition kept (run : exc (bool * option bytes) * world) : option bytes :=
  match fst run with
  | Ok (true, Some (b :: rest)) => Some (b :: rest)
  | _ => None
  end.

(** An entry as a list: its payload, if it has one. *)
Definition payload_of (h : option bytes) : list bytes :=
  match h with
  | Some b => [b]
  | None => []
  end.

(** The candidates [urls] given to [check_face_match] one after the other
    from the world [w], each call starting in the world that the call
    before it left (the requests made, the random draws used): for every
    candidate, what its call adds to [matched_images].  Nothing is assumed
    of the matcher: the entry of a candidate is what the code computes for
    it at its turn. *)
Fixpoint examine (E : externals) (avail : bool) (reference_encoding : ref_encoding E)
         (tolerance : Q) (urls : list string) (w : world) : list (option bytes) :=
  match urls with
  | [] => []
  | url :: rest =>
      let run := check_face_match E avail url reference_encoding 15 tolerance w in
      kept run :: examine E avail reference_encoding tolerance rest (snd run)
  end.

(** The payloads among the entries [trace], in their order. *)
Definition held (trace : list (option bytes)) : list bytes :=
  flat_map payload_of trace.

(** The entries of the candidates of a scan of [image_urls] from [w], with
    the tolerance that the scan chooses for a folder of that size. *)
Definition scan_trace (E : externals) (avail : bool) (reference_encoding : ref_encoding E)
           (image_urls : list string) (w : world) : list (option bytes) :=
  examine E avail reference_encoding (face_tolerance_of (List.length image_urls))
          image_urls w.

(** The candidate [url] matches whenever it is examined, with a payload of
    at least one byte. *)
Definition always_matches (E : externals) (avail : bool)
           (reference_encoding : ref_encoding E) (tolerance : Q) (url : string) : Prop :=
  forall w, exists b rest w',
    check_face_match E avail url reference_encoding 15 tolerance w
    = (Ok (true, Some (b :: rest)), w').

(** The ways in which the work on a fetched body fails before a verdict. *)
Inductive match_fails (E : externals) (reference_encoding : ref_encoding E)
          (tolerance : Q) (data : bytes) : bool -> Prop :=
| decode_raises : forall e,
    cv2_imdecode E data = Raise e ->
    match_fails E reference_encoding tolerance data true
| decode_none :
    cv2_imdecode E data = Ok None ->
    match_fails E reference_encoding tolerance data true
| convert_raises : forall image e,
    cv2_imdecode E data = Ok (Some image) ->
    cv2_cvtColor E image = Raise e ->
    match_fails E reference_encoding tolerance data true
| encode_raises : forall image rgb e,
    cv2_imdecode E data = Ok (Some image) ->
    cv2_cvtColor E image = Ok rgb ->
    face_encodings E rgb = Raise e ->
    match_fails E reference_encoding tolerance data true
| no_face : forall image rgb,
    cv2_imdecode E data = Ok (Some image) ->
    cv2_cvtColor E image = Ok rgb ->
    face_encodings E rgb = Ok [] ->
    match_fails E reference_encoding tolerance data true
| compare_raises : forall image rgb v before f rest e,
    cv2_imdecode E data = Ok (Some image) ->
    cv2_cvtColor E image = Ok rgb ->
    face_encodings E rgb = Ok (before ++ f :: rest) ->
    reference_encoding = RealEncoding v ->
    (forall g, In g before -> compare_faces E v g tolerance = Ok false) ->
    compare_faces E v f tolerance = Raise e ->
    match_fails E reference_encoding tolerance data true
| open_raises : forall e,
    Image_open E data = Raise e ->
    match_fails E reference_encoding tolerance data false
| pixels_raise : forall img e,
    Image_open E data = Ok img ->
    rgb_pixels E img = Raise e ->
    match_fails E reference_encoding tolerance data false.

(** The ways in which a candidate fails: its fetch, its status, the read
    of its body, or the work on the body. *)
Inductive candidate_fails (E : externals) (avail : bool)
          (reference_encoding : ref_encoding E) (tolerance : Q)
          (url : string) (timeout : Z) : Prop :=
| fetch_raises : forall e,
    http E url timeout = Raise e ->
    candidate_fails E avail reference_encoding tolerance url timeout
| bad_status : forall r,
    http E url timeout = Ok r ->
    (400 <= status_code r < 600)%Z ->
    candidate_fails E avail reference_encoding tolerance url timeout
| body_raises : forall r e,
    http E url timeout = Ok r ->
    content r = Raise e ->
    candidate_fails E avail reference_encoding tolerance url timeout
| body_fails : forall r data,
    http E url timeout = Ok r ->
    content r = Ok data ->
    match_fails E reference_encoding tolerance data avail ->
    candidate_fails E avail reference_encoding tolerance url timeout.

(** The requests made since the world was [w0]. *)
Definition fetched_since (w0 w : world) : list string :=
  skipn (List.length (net_log w0)) (net_log w).

(** What holds at every point of the loop started by [scan_images] on
    [image_urls] in the world [w0]: [k] iterations have been made, they
    took the first [k] candidates in order, one request each. *)
Definition scan_inv (image_urls : list string) (w0 : world) (c : loop_config) : Prop :=
  let total_images := List.length image_urls in
  let slice := firstn (max_images_of total_images) image_urls in
  exists k,
    remaining c = enumerate_from k (skipn k slice) /\
    k <= List.length slice /\
    processed_count (locals c) = k /\
    net_log (outside c) = net_log w0 ++ firstn k slice /\
    List.length (matched_images (locals c)) <= k /\
    match left_by c with
    | NoBreak => 50 < total_images -> List.length (matched_images (locals c)) < 15
    | BreakLarge => 50 < total_images /\ List.length (matched_images (locals c)) = 15
    | BreakVeryLarge => False
    end.

(** The member that [create_photos_zip] writes for the item [(i, data)]
    of [enumerate(matched_images)]. *)
Definition photo_entry (E : externals) (item : nat * bytes) : zip_entry :=
  {| entry_name := photo_filename (fst item);
     entry_method := ZIP_DEFLATED;
     entry_stored := deflate E (snd item) |}.

(** The member names as the spec words them: [photo_], the 1-based
    position in decimal with zeros in front up to three digits, [.jpg].
    The three digits are computed by division, and a position that needs
    more than three digits is written as it is; nothing here uses
    [format_03d], with which it is compared. *)
Definition digit_char (d : nat) : ascii := ascii_of_nat (48 + d mod 10).

Definition three_digits (position : nat) : string :=
  String (digit_char (position / 100))
         (String (digit_char (position / 10)) (String (digit_char position) EmptyString)).

Definition spec_member_name (position : nat) : string :=
  let digits := if position <? 1000 then three_digits position
                else NilEmpty.string_of_uint (Nat.to_uint position) in
  ("photo_" ++ digits ++ ".jpg")%string.

(** ** A remote side that never answers *)
Module Offline.

Definition libs : externals :=
  Externals bytes Z bytes
            (fun _ _ => Raise RequestException)
            Toy.cv2_imdecode (fun image => Ok image) Toy.face_encodings
            (fun known candidate _ => Ok (Z.eqb known candidate))
            Toy.Image_open Toy.rgb_pixels Toy.hash_str Toy.random_draws
            Toy.findall_file_ids Toy.deflate Toy.inflate (fun _ _ _ => false).

End Offline.

(** ** Regular expressions, as far as the program uses them

    A string stands for a Python [str] whose characters have code points
    below 256; among these [\d] is the class of the ten ASCII digits.  The
    statements below that speak of digits say so where it matters. *)

Inductive regex : Type :=
| Str (literal : string)                 (* a run of literal characters *)
| Many (least : nat) (class : ascii -> bool)   (* [c+] is [Many 1 c], [c{25,}] is [Many 25 c] *)
| Cat (r1 r2 : regex)
| Group (r : regex).

(** The rest of [s] after [literal], when [s] starts with it. *)
Fixpoint strip_prefix (literal s : string) : option string :=
  match literal, s with
  | EmptyString, _ => Some s
  | String a literal', String b s' =>
      if Ascii.eqb a b then strip_prefix literal' s' else None
  | String _ _, EmptyString => None
  end.

(** The ways a greedy repetition of [class] can take a prefix of [s], the
    longest first: each is what it takes and what it leaves. *)
Fixpoint many (class : ascii -> bool) (least : nat) (s : string) : list (string * string) :=
  let stop := if least =? 0 then [(EmptyString, s)] else [] in
  match s with
  | String c s' =>
      if class c
      then map (fun m => (String c (fst m), snd m)) (many class (pred least) s') ++ stop
      else stop
  | EmptyString => stop
  end.

(** The ways [r] can match at the start of [s], in the order a
    backtracking matcher tries them: what is consumed, the groups in the
    order of their opening parentheses, and what is left. *)
Fixpoint matches (r : regex) (s : string) : list (string * list string * string) :=
  match r with
  | Str literal =>
      match strip_prefix literal s with
      | Some rest => [(literal, [], rest)]
      | None => []
      end
  | Many least class => map (fun m => (fst m, [], snd m)) (many class least s)
  | Cat r1 r2 =>
      flat_map (fun m1 =>
                  map (fun m2 => ((fst (fst m1) ++ fst (fst m2))%string,
                                  snd (fst m1) ++ snd (fst m2),
                                  snd m2))
                      (matches r2 (snd m1)))
               (matches r1 s)
  | Group r' => map (fun m => (fst (fst m), fst (fst m) :: snd (fst m), snd m)) (matches r' s)
  end.

(** [re.search(r, s)]: the groups of the first match at the leftmost
    position that has one, or [None]. *)
Fixpoint re_search (r : regex) (s : string) : option (list string) :=
  match matches r s with
  | m :: _ => Some (snd (fst m))
  | [] =>
      match s with
      | String _ s' => re_search r s'
      | EmptyString => None
      end
  end.

Definition in_range (low high : ascii) (c : ascii) : bool :=
  (nat_of_ascii low <=? nat_of_ascii c) && (nat_of_ascii c <=? nat_of_ascii high).

(** [\d] on the characters that a string holds here.  On a [str],
    Python's [\d] is the class of the decimal digits of every script; all
    of them except 0 to 9 have code points above 255. *)
Definition is_digit (c : ascii) : bool := in_range "0" "9" c.

(** [[a-zA-Z0-9_-]] *)
Definition id_char (c : ascii) : bool :=
  in_range "a" "z" c || in_range "A" "Z" c || in_range "0" "9" c
  || Ascii.eqb c "_" || Ascii.eqb c "-".

(** *** [is_valid_drive_url] *)

Definition drive_patterns : list regex :=
  [ Str "drive.google.com/drive/folders/";
    Cat (Str "drive.google.com/drive/u/") (Cat (Many 1 is_digit) (Str "/folders/")) ].

Definition is_valid_drive_url (url : string) : bool :=
  existsb (fun pattern => match re_search pattern url with
                          | Some _ => true
                          | None => false
                          end)
          drive_patterns.

(** *** [extract_folder_id] *)

Definition folder_id_patterns : list regex :=
  [ Cat (Str "folders/") (Group (Many 1 id_char));
    Cat (Str "id=") (Group (Many 1 id_char)) ].

(** [match.group(1)]; a match without a group raises [IndexError], which
    is not among the exceptions listed and is rendered by [TypeError]. *)
Fixpoint first_group (patterns : list regex) (drive_url : string) : exc (option string) :=
  match patterns with
  | [] => Ok None
  | pattern :: rest =>
      match re_search pattern drive_url with
      | Some (g :: _) => Ok (Some g)
      | Some [] => Raise TypeError
      | None => first_group rest drive_url
      end
  end.

Definition extract_folder_id (drive_url : string) : exc (option string) :=
  first_group folder_id_patterns drive_url.

(** *** [str.strip()] *)

(** [str.isspace] on one character with a code point below 256. *)
Definition is_space (c : ascii) : bool :=
  let n := nat_of_ascii c in
  ((9 <=? n) && (n <=? 13)) || ((28 <=? n) && (n <=? 32)) || (n =? 133) || (n =? 160).

Fixpoint lstrip (s : string) : string :=
  match s with
  | String c s' => if is_space c then lstrip s' else s
  | EmptyString => EmptyString
  end.

Fixpoint rstrip (s : string) : string :=
  match s with
  | String c s' =>
      match rstrip s' with
      | EmptyString => if is_space c then EmptyString else String c EmptyString
      | rest => String c rest
      end
  | EmptyString => EmptyString
  end.

Definition strip (s : string) : string := rstrip (lstrip s).

(** *** The file ids of a folder page *)

(** [re.findall(r, s)] for a pattern with one group: the group of every
    match, from left to right, each search starting where the match before
    it ended (one character further after an empty match).  [skip] counts
    the characters of [s] that the last match still covers. *)
Fixpoint findall_from (r : regex) (s : string) (skip : nat) : list string :=
  match skip with
  | S skip' =>
      match s with
      | String _ s' => findall_from r s' skip'
      | EmptyString => []
      end
  | O =>
      match matches r s with
      | (c, g :: _, _) :: _ =>
          g :: match s with
               | String _ s' => findall_from r s' (String.length c - 1)
               | EmptyString => []
               end
      | (c, [], _) :: _ =>
          c :: match s with
               | String _ s' => findall_from r s' (String.length c - 1)
               | EmptyString => []
               end
      | [] =>
          match s with
          | String _ s' => findall_from r s' 0
          | EmptyString => []
          end
      end
  end.

Definition re_findall (r : regex) (s : string) : list string := findall_from r s 0.

(** The double quote. *)
Definition quote : ascii := ascii_of_nat 34.

(** [file_id_pattern] of [get_drive_images]: a quote, 25 characters or
    more of [a-zA-Z0-9_-] as a group, a quote. *)
Definition file_id_pattern : regex :=
  Cat (Str (String quote EmptyString))
      (Cat (Group (Many 25 id_char)) (Str (String quote EmptyString))).

(** *** What the statements about patterns speak of *)

(** [r] matches exactly the text [c], with the groups [g]. *)
Inductive denotes : regex -> string -> list string -> Prop :=
| denotes_str : forall literal, denotes (Str literal) literal []
| denotes_many : forall least class c,
    least <= String.length c ->
    (forall a, In a (list_ascii_of_string c) -> class a = true) ->
    denotes (Many least class) c []
| denotes_cat : forall r1 r2 c1 c2 g1 g2,
    denotes r1 c1 g1 -> denotes r2 c2 g2 ->
    denotes (Cat r1 r2) (c1 ++ c2)%string (g1 ++ g2)
| denotes_group : forall r c g,
    denotes r c g -> denotes (Group r) c (c :: g).

(** The text [needle] occurs somewhere in [s]. *)
Definition occurs (needle s : string) : Prop :=
  exists before after, s = (before ++ needle ++ after)%string.

(** Every character of [s] is in [class]. *)
Definition all_in (class : ascii -> bool) (s : string) : Prop :=
  forall a, In a (list_ascii_of_string s) -> class a = true.

(** A digit from 0 to 9, or a character that is not in ASCII. *)
Definition digit_or_not_ascii (c : ascii) : bool :=
  is_digit c || (128 <=? nat_of_ascii c).

(** [s] does not go on with a character of [class]. *)
Definition stops (class : ascii -> bool) (s : string) : Prop :=
  match s with
  | String c _ => class c = false
  | EmptyString => True
  end.

(** ** The whole handler: the upload folder

    [process_photos] above starts at the folder listing.  What comes
    before it validates the request, saves the selfie in the upload
    folder and encodes it; the file is removed again on the way out.  The
    files of the upload folder are one more piece of state. *)

Inductive server_exception : Type :=
| LibraryError (e : py_exception)   (* raised by one of the libraries above *)
| FileNotFoundError                 (* open or os.remove on a missing file *)
| SaveError                         (* FileStorage.save could not write *)
| RequestEntityTooLarge.            (* werkzeug, on a body above the limit *)

Inductive outcome (A : Type) : Type :=
| Returned (a : A)
| Raised (e : server_exception).
Arguments Returned {A} a.
Arguments Raised {A} e.

(** The world, and the files on disk by path. *)
Record server : Type := Server {
  net : world;
  disk : list (string * bytes)
}.

Definition H (A : Type) : Type := server -> outcome A * server.

Definition h_ret {A} (a : A) : H A := fun sv => (Returned a, sv).

Definition h_bind {A B} (m : H A) (k : A -> H B) : H B :=
  fun sv =>
    match m sv with
    | (Returned a, sv') => k a sv'
    | (Raised e, sv') => (Raised e, sv')
    end.

Definition h_try {A} (body : H A) (handler : server_exception -> H A) : H A :=
  fun sv =>
    match body sv with
    | (Returned a, sv') => (Returned a, sv')
    | (Raised e, sv') => handler e sv'
    end.

Definition from_exc {A} (r : exc A) : H A :=
  fun sv =>
    match r with
    | Ok a => (Returned a, sv)
    | Raise e => (Raised (LibraryError e), sv)
    end.

(** A computation that only knows the world, run next to the disk. *)
Definition from_M {A} (m : M A) : H A :=
  fun sv =>
    match m (net sv) with
    | (Ok a, w') => (Returned a, {| net := w'; disk := disk sv |})
    | (Raise e, w') => (Raised (LibraryError e), {| net := w'; disk := disk sv |})
    end.

Notation "x <~ m ;; k" := (h_bind m (fun x => k))
  (at level 100, m at next level, right associativity) : py_scope.

Fixpoint disk_read (path : string) (d : list (string * bytes)) : option bytes :=
  match d with
  | [] => None
  | (p, data) :: d' => if String.eqb p path then Some data else disk_read path d'
  end.

Definition disk_delete (path : string) (d : list (string * bytes)) : list (string * bytes) :=
  filter (fun file => negb (String.eqb (fst file) path)) d.

Definition disk_write (path : string) (data : bytes) (d : list (string * bytes))
  : list (string * bytes) :=
  (path, data) :: disk_delete path d.

(** A [werkzeug] [FileStorage]: the name the client gave and the bytes. *)
Record file_storage : Type := FileStorage {
  filename : string;
  stream : bytes
}.

(** [app.config['MAX_CONTENT_LENGTH']], in bytes. *)
Definition MAX_CONTENT_LENGTH : N := (16 * 1024 * 1024)%N.

(** The parts of a Flask [request] that the handler reads:
    [request.files['selfie']] and [request.form['drive_link']], each
    absent when the key is, and the length of the body, which Flask checks
    against [MAX_CONTENT_LENGTH] before it parses the body. *)
Record request : Type := Request {
  files_selfie : option file_storage;
  form_drive_link : option string;
  content_length : N
}.

(** The first read of [request.files] parses the body; on a body longer
    than the limit it raises [RequestEntityTooLarge] instead.  The read is
    inside the [try] of the handler. *)
Definition request_files (req : request) : H (option file_storage) :=
  fun sv =>
    if (MAX_CONTENT_LENGTH <? content_length req)%N
    then (Raised RequestEntityTooLarge, sv)
    else (Returned (files_selfie req), sv).

(** The libraries that only the first part of the handler calls. *)
Record server_libs (E : externals) : Type := ServerLibs {
  (** [werkzeug.utils.secure_filename] *)
  secure_filename : string -> string;
  (** whether [FileStorage.save] fails to write these bytes at this path *)
  save_fails : string -> bytes -> bool;
  (** [face_recognition.load_image_file], on the bytes of the file *)
  load_image_file : bytes -> exc (cv_image E)
}.
Arguments secure_filename {E} s _.
Arguments save_fails {E} s _ _.
Arguments load_image_file {E} s _.

(** [os.path.join(app.config['UPLOAD_FOLDER'], filename)] with the
    configured folder ['uploads']: an absolute second part stands alone. *)
Definition upload_path (name : string) : string :=
  if String.prefix "/" name then name else ("uploads/" ++ name)%string.

Section Handler.

Variable E : externals.
Variable L : server_libs E.
Variable FACE_RECOGNITION_AVAILABLE : bool.

(** [selfie.save(filepath)] *)
Definition save (selfie : file_storage) (filepath : string) : H unit :=
  fun sv =>
    if save_fails L filepath (stream selfie) then (Raised SaveError, sv)
    else (Returned tt,
          {| net := net sv; disk := disk_write filepath (stream selfie) (disk sv) |}).

(** [os.remove(filepath)] *)
Definition os_remove (filepath : string) : H unit :=
  fun sv =>
    match disk_read filepath (disk sv) with
    | Some _ => (Returned tt, {| net := net sv; disk := disk_delete filepath (disk sv) |})
    | None => (Raised FileNotFoundError, sv)
    end.

(** Opening a file for reading. *)
Definition read_file (path : string) : H bytes :=
  fun sv =>
    match disk_read path (disk sv) with
    | Some data => (Returned data, sv)
    | None => (Raised FileNotFoundError, sv)
    end.

(** *** [load_and_encode_face] *)

Definition load_and_encode_face (image_path : string) : H (option (ref_encoding E)) :=
  h_try
    (if FACE_RECOGNITION_AVAILABLE then
       data <~ read_file image_path ;;
       image <~ from_exc (load_image_file L data) ;;
       encodings <~ from_exc (face_encodings E image) ;;
       match encodings with
       | [] => h_ret None
       | first :: _ => h_ret (Some (RealEncoding first))
       end
     else
       data <~ read_file image_path ;;
       img <~ from_exc (Image_open E data) ;;
       pixels <~ from_exc (rgb_pixels E img) ;;
       let encoding := (hash_str E (firstn 100 pixels) mod 1000000)%Z in
       h_ret (Some (DemoEncoding encoding)))
    (fun _ => h_ret None).

(** *** [process_photos], all of it *)

Definition process_photos_request (req : request) : H reply :=
  h_try
    (files <~ request_files req ;;
     match files with
     | None => h_ret (JsonError 400 "No selfie uploaded")
     | Some selfie =>
         match form_drive_link req with
         | None => h_ret (JsonError 400 "No Google Drive link provided")
         | Some link =>
             let drive_link := strip link in
             if String.eqb (filename selfie) "" then
               h_ret (JsonError 400 "No selfie selected")
             else if negb (is_valid_drive_url drive_link) then
               h_ret (JsonError 400 "Invalid Google Drive folder URL")
             else
               let filepath := upload_path (secure_filename L (filename selfie)) in
               _ <~ save selfie filepath ;;
               reference_encoding <~ load_and_encode_face filepath ;;
               match reference_encoding with
               | None =>
                   _ <~ os_remove filepath ;;
                   h_ret (JsonError 400
                            "No face detected in selfie. Please upload a clear photo.")
               | Some reference_encoding =>
                   folder_id <~ from_exc (extract_folder_id drive_link) ;;
                   match folder_id with
                   | None | Some EmptyString =>
                       _ <~ os_remove filepath ;;
                       h_ret (JsonError 400 "Could not extract folder ID from URL")
                   | Some folder_id =>
                       image_urls <~ from_M (get_drive_images E folder_id 50) ;;
                       match image_urls with
                       | [] =>
                           _ <~ os_remove filepath ;;
                           h_ret (JsonError 400
                                    "No images found in the folder or folder is private")
                       | _ =>
                           r <~ from_M (scan_images E FACE_RECOGNITION_AVAILABLE
                                                    reference_encoding image_urls) ;;
                           _ <~ os_remove filepath ;;
                           match matched_images (fst r) with
                           | [] => h_ret (JsonError 404 "No photos found with your face")
                           | matched =>
                               match create_photos_zip E matched with
                               | None => h_ret (JsonError 500 "Error creating ZIP file")
                               | Some zip_data =>
                                   h_ret (SendFile zip_data "application/zip"
                                                   "yourphotos.zip")
                               end
                           end
                       end
                   end
               end
         end
     end)
    (fun _ => h_ret (JsonError 500 "An error occurred while processing your request")).

End Handler.

(** The encoding of a selfie as a function of the bytes of its file, if
    the file is there. *)
Definition selfie_encoding (E : externals) (L : server_libs E) (avail : bool)
           (file : option bytes) : option (ref_encoding E) :=
  match file with
  | None => None
  | Some data =>
      if avail then
        match load_image_file L data with
        | Ok image =>
            match face_encodings E image with
            | Ok (first :: _) => Some (RealEncoding first)
            | _ => None
            end
        | Raise _ => None
        end
      else
        match Image_open E data with
        | Ok img =>
            match rgb_pixels E img with
            | Ok pixels =>
                Some (DemoEncoding (hash_str E (firstn 100 pixels) mod 1000000)%Z)
            | Raise _ => None
            end
        | Raise _ => None
        end
  end.

(** The request is read, passes the four checks of the handler and its
    selfie can be saved. *)
Definition accepted (E : externals) (L : server_libs E) (req : request)
           (selfie : file_storage) (link : string) : Prop :=
  (MAX_CONTENT_LENGTH <? content_length req)%N = false /\
  files_selfie req = Some selfie /\
  form_drive_link req = Some link /\
  filename selfie <> EmptyString /\
  is_valid_drive_url (strip link) = true /\
  save_fails L (upload_path (secure_filename L (filename selfie))) (stream selfie) = false.


(** *** A concrete upload side *)
Module ToyServer.

(** Names pass unchanged, every save goes through, and a file is loaded
    as the image of its bytes. *)
Definition libs : server_libs Toy.libs :=
  ServerLibs Toy.libs (fun name => name) (fun _ _ => false) (fun data => Ok data).

Definition empty : server := {| net := Toy.w0; disk := [] |}.

End ToyServer.

(** ** A remote side that serves one folder page *)
Module ToyPage.

(** Two quoted ids of 26 characters and a quoted word that is too short. *)
Definition page : string :=
  (String quote "abcdefghijklmnopqrstuvwxyz" ++ String quote ",["
   ++ String quote "short" ++ String quote ","
   ++ String quote "ABCDEFGHIJKLMNOPQRSTUVWX_-" ++ String quote "]")%string.

Definition libs : externals :=
  Externals bytes Z bytes
            (fun _ _ => Ok (Response 200 (Ok (list_byte_of_string page))))
            Toy.cv2_imdecode (fun image => Ok image) Toy.face_encodings
            (fun known candidate _ => Ok (Z.eqb known candidate))
            Toy.Image_open Toy.rgb_pixels Toy.hash_str Toy.random_draws
            (re_findall file_id_pattern) Toy.deflate Toy.inflate (fun _ _ _ => false).

End ToyPage.

(** * Properties *)

Ltac run_monad :=
  unfold bind, ret, lift, raise, try_except in *; simpl in *.

(** ** Policy selection *)

Lemma max_images_le_total : forall total_images,
  max_images_of total_images <= total_images.
Proof.
  intro n. unfold max_images_of, smart_limits.
  destruct (Nat.leb_spec n 30); [simpl; lia|].
  destruct (Nat.leb_spec n 100); simpl; lia.
Qed.

Lemma max_images_small : forall total_images,
  total_images <= 50 -> max_images_of total_images = total_images.
Proof.
  intros n Hn. unfold max_images_of, smart_limits.
  destruct (Nat.leb_spec n 30); [reflexivity|].
  destruct (Nat.leb_spec n 100); simpl; lia.
Qed.

Lemma face_tolerance_small : forall total_images,
  total_images <= 100 -> face_tolerance_of total_images = 0.6%Q.
Proof.
  intros n Hn. unfold face_tolerance_of, smart_limits.
  destruct (Nat.leb_spec n 30); [reflexivity|].
  destruct (Nat.leb_spec n 100); [reflexivity|lia].
Qed.

(** C1. The policy is defined for every candidate count; up to 30 candidates
    all of them are examined with tolerance 0.60, from 31 to 100 the first
    [min total 60] with tolerance 0.60, above 100 the first 80 with
    tolerance 0.65. *)
Theorem smart_limits_tiers :
  forall total_images : nat,
    (total_images <= 30 ->
       max_images_of total_images = total_images /\
       (face_tolerance_of total_images == 0.60)%Q) /\
    (31 <= total_images <= 100 ->
       max_images_of total_images = Nat.min total_images 60 /\
       (face_tolerance_of total_images == 0.60)%Q) /\
    (100 < total_images ->
       max_images_of total_images = 80 /\
       (face_tolerance_of total_images == 0.65)%Q).
Proof.
  intro n. unfold max_images_of, face_tolerance_of, smart_limits.
  repeat split; intros;
    repeat match goal with
           | |- context [ ?a <=? ?b ] => destruct (Nat.leb_spec a b)
           end; simpl; try lia; reflexivity.
Qed.

Lemma smart_limits_tiers_witness :
  (max_images_of 10 = 10 /\ (face_tolerance_of 10 == 0.60)%Q) /\
  (max_images_of 45 = Nat.min 45 60 /\ (face_tolerance_of 45 == 0.60)%Q) /\
  (max_images_of 75 = Nat.min 75 60 /\ (face_tolerance_of 75 == 0.60)%Q) /\
  (max_images_of 150 = 80 /\ (face_tolerance_of 150 == 0.65)%Q).
Proof.
  split; [apply (proj1 (smart_limits_tiers 10)); lia|].
  split; [apply (proj1 (proj2 (smart_limits_tiers 45))); lia|].
  split; [apply (proj1 (proj2 (smart_limits_tiers 75))); lia|].
  apply (proj2 (proj2 (smart_limits_tiers 150))); lia.
Defined.

(** ** The face matcher *)

Section Matcher.

Variable E : externals.
Variable avail : bool.

Lemma compare_each_cases : forall reference_encoding tolerance data encodings w,
  compare_each E reference_encoding tolerance data encodings w = (Ok (true, Some data), w) \/
  compare_each E reference_encoding tolerance data encodings w = (Ok (false, None), w) \/
  exists e, compare_each E reference_encoding tolerance data encodings w = (Raise e, w).
Proof.
  intros ref tol data encs w. induction encs as [|f rest IH]; simpl.
  - right; left; reflexivity.
  - run_monad. destruct ref as [v|h].
    + destruct (compare_faces E v f tol) as [[|]|e]; eauto.
    + eauto.
Qed.

Lemma real_match_cases : forall r reference_encoding tolerance w,
  real_match E r reference_encoding tolerance w = (Ok (false, None), w) \/
  (exists data, content r = Ok data /\
     real_match E r reference_encoding tolerance w = (Ok (true, Some data), w)) \/
  exists e, real_match E r reference_encoding tolerance w = (Raise e, w).
Proof.
  intros r ref tol w. unfold real_match. run_monad.
  destruct (content r) as [data|e]; [|eauto].
  destruct (cv2_imdecode E data) as [[image|]|e]; eauto.
  destruct (cv2_cvtColor E image) as [rgb|e]; eauto.
  destruct (face_encodings E rgb) as [[|f rest]|e]; eauto.
  destruct (compare_each_cases ref tol data (f :: rest) w) as [H|[H|[e H]]];
    unfold bind, lift, ret in H; rewrite H; eauto.
Qed.

Lemma demo_match_cases : forall r reference_encoding w,
  exists w', net_log w' = net_log w /\
    (demo_match E r reference_encoding w = (Ok (false, None), w') \/
     (exists data, content r = Ok data /\
        demo_match E r reference_encoding w = (Ok (true, Some data), w')) \/
     exists e, demo_match E r reference_encoding w = (Raise e, w')).
Proof.
  intros r ref w. unfold demo_match. run_monad.
  destruct (content r) as [data|e]; [|eauto 6].
  destruct (Image_open E data) as [img|e]; [|eauto 6].
  destruct (rgb_pixels E img) as [pixels|e]; [|eauto 6].
  destruct ref as [v|h]; [eauto 6|].
  destruct (_ <? 35)%Z; [eauto 8|].
  destruct (negb _); eexists; (split; [|eauto 6]); reflexivity.
Qed.

(** Whatever happens to the response, [match_response] returns a pair,
    and a [True] comes with the response's own bytes. *)
Lemma match_response_cases : forall r reference_encoding tolerance w,
  exists w', net_log w' = net_log w /\
    (match_response E avail r reference_encoding tolerance w = (Ok (false, None), w') \/
     exists data, content r = Ok data /\
        match_response E avail r reference_encoding tolerance w
        = (Ok (true, Some data), w')).
Proof.
  intros r ref tol w. unfold match_response, try_except. destruct avail.
  - destruct (real_match_cases r ref tol w) as [H|[[d [Hc H]]|[e H]]];
      rewrite H; exists w; eauto.
  - destruct (demo_match_cases r ref w) as [w' [Hl [H|[[d [Hc H]]|[e H]]]]];
      rewrite H; exists w'; eauto.
Qed.

(** [check_face_match] never raises: it asks for the URL once and returns
    either [(False, None)] or [True] with the bytes that were fetched. *)
Lemma check_face_match_cases : forall url reference_encoding timeout tolerance w,
  exists w', net_log w' = net_log w ++ [url] /\
    (check_face_match E avail url reference_encoding timeout tolerance w
     = (Ok (false, None), w') \/
     exists r data, http E url timeout = Ok r /\ content r = Ok data /\
        check_face_match E avail url reference_encoding timeout tolerance w
        = (Ok (true, Some data), w')).
Proof.
  intros url ref t tol w. unfold check_face_match, try_except, bind. simpl.
  destruct (http E url t) as [r|e] eqn:Hh; [|eexists; split; [|left; reflexivity]; reflexivity].
  unfold raise_for_status.
  destruct ((400 <=? status_code r) && (status_code r <? 600))%Z;
    [eexists; split; [|left; reflexivity]; reflexivity|].
  unfold ret.
  destruct (match_response_cases r ref tol
              {| rng_pos := rng_pos w; net_log := net_log w ++ [url] |})
    as [w' [Hl [H|[d [Hc H]]]]]; rewrite H; exists w'; (split; [exact Hl|]).
  - left; reflexivity.
  - right; exists r, d; auto.
Qed.

End Matcher.

(** ** List facts used below *)

Lemma skipn_cons_firstn : forall (A : Type) (k : nat) (l : list A) x tl,
  skipn k l = x :: tl ->
  k < List.length l /\ firstn (S k) l = firstn k l ++ [x] /\ skipn (S k) l = tl.
Proof.
  intros A k. induction k as [|k IH]; intros l x tl H.
  - destruct l; simpl in H; [discriminate|]. inversion H; subst. simpl.
    split; [lia|split; reflexivity].
  - destruct l as [|y l]; simpl in H; [discriminate|].
    destruct (IH _ _ _ H) as [H1 [H2 H3]]. simpl List.length.
    split; [lia|]. split; [|exact H3].
    change (firstn (S (S k)) (y :: l)) with (y :: firstn (S k) l).
    rewrite H2. reflexivity.
Qed.

Lemma firstn_firstn_le : forall (A : Type) (k m : nat) (l : list A),
  k <= m -> firstn k (firstn m l) = firstn k l.
Proof.
  intros A k m l H. rewrite firstn_firstn. f_equal. lia.
Qed.

Lemma enumerate_from_app : forall (A : Type) (l1 l2 : list A) i,
  enumerate_from i (l1 ++ l2)
  = enumerate_from i l1 ++ enumerate_from (i + List.length l1) l2.
Proof.
  intros A l1. induction l1 as [|x l1 IH]; intros l2 i; simpl.
  - f_equal. lia.
  - rewrite IH. do 3 f_equal. lia.
Qed.

Lemma enumerate_from_nil : forall (A : Type) (l : list A) i,
  enumerate_from i l = [] -> l = [].
Proof. intros A [|x l] i H; [reflexivity|discriminate]. Qed.

Lemma held_cons : forall h trace, held (h :: trace) = payload_of h ++ held trace.
Proof. reflexivity. Qed.

Lemma held_app : forall l1 l2, held (l1 ++ l2) = held l1 ++ held l2.
Proof. intros. unfold held. apply flat_map_app. Qed.

Lemma held_length_le : forall trace, List.length (held trace) <= List.length trace.
Proof.
  intros l. induction l as [|h l IH]; [simpl; lia|].
  rewrite held_cons, length_app. destruct h; simpl; lia.
Qed.

Lemma held_none : forall n, held (repeat None n) = [].
Proof. intro n. induction n as [|n IH]; [reflexivity|]. simpl. exact IH. Qed.

Lemma kept_keep : forall result w, keep result = payload_of (kept (Ok result, w)).
Proof. intros [[|] [[|b rest]|]] w; reflexivity. Qed.

Lemma firstn_snoc : forall (A : Type) (l : list A) j x,
  nth_error l j = Some x -> firstn (S j) l = firstn j l ++ [x].
Proof.
  intros A l. induction l as [|y l IH]; intros j x H.
  - destruct j; discriminate.
  - destruct j as [|j].
    + injection H as Hy. subst y. reflexivity.
    + cbn [nth_error] in H.
      change (firstn (S (S j)) (y :: l)) with (y :: firstn (S j) l).
      rewrite (IH _ _ H). reflexivity.
Qed.

Lemma fetched_since_app : forall w0 w l,
  net_log w = net_log w0 ++ l -> fetched_since w0 w = l.
Proof.
  intros w0 w l H. unfold fetched_since. rewrite H, skipn_app, skipn_all, Nat.sub_diag.
  reflexivity.
Qed.

(** ** The scan loop *)

Section Scan.

Variable E : externals.
Variable avail : bool.
Variable reference_encoding : ref_encoding E.

Lemma early_exit_never_second : forall total_images n,
  early_exit total_images n <> BreakVeryLarge.
Proof.
  intros total n. unfold early_exit.
  destruct (Nat.ltb_spec 50 total), (Nat.leb_spec 15 n),
           (Nat.ltb_spec 100 total), (Nat.leb_spec 25 n);
    simpl; try discriminate; lia.
Qed.

Lemma early_exit_small : forall total_images n,
  total_images <= 50 -> early_exit total_images n = NoBreak.
Proof.
  intros total n H. unfold early_exit.
  destruct (Nat.ltb_spec 50 total); [lia|].
  destruct (Nat.ltb_spec 100 total); [lia|]. reflexivity.
Qed.

Lemma early_exit_below : forall total_images n,
  n < 15 -> early_exit total_images n = NoBreak.
Proof.
  intros total n H. unfold early_exit.
  destruct (Nat.leb_spec 15 n); [lia|].
  destruct (Nat.leb_spec 25 n); [lia|].
  rewrite !andb_false_r. reflexivity.
Qed.

Lemma early_exit_reached : forall total_images n,
  50 < total_images -> 15 <= n -> early_exit total_images n = BreakLarge.
Proof.
  intros total n H1 H2. unfold early_exit.
  destruct (Nat.ltb_spec 50 total); [|lia].
  destruct (Nat.leb_spec 15 n); [|lia]. reflexivity.
Qed.

(** One iteration, whatever the candidate: the URL is requested once, the
    call returns, and the locals are updated from what it returned. *)
Lemma loop_body_step : forall total_images max_images tolerance i url s w,
  max_images <> 0 ->
  exists result w',
    check_face_match E avail url reference_encoding 15 tolerance w = (Ok result, w') /\
    net_log w' = net_log w ++ [url] /\
    (result = (false, None) \/
     exists r data, http E url 15 = Ok r /\ content r = Ok data /\
                    result = (true, Some data)) /\
    loop_body E avail total_images max_images reference_encoding tolerance (i, url) s w
    = (Ok (after total_images s result), w').
Proof.
  intros total max tol i url s w Hmax.
  destruct (check_face_match_cases E avail url reference_encoding 15 tol w)
    as [w' [Hlog Hc]].
  assert (Hbody : forall result,
             check_face_match E avail url reference_encoding 15 tol w = (Ok result, w') ->
             loop_body E avail total max reference_encoding tol (i, url) s w
             = (Ok (after total s result), w')).
  { intros result Hr. unfold loop_body, log_progress, try_except, bind.
    destruct max as [|m]; [congruence|]. change (S m =? 0) with false. unfold ret. cbv beta iota.
    rewrite Hr. unfold after, early_exit, keep.
    destruct result as [[|] [[|b rest]|]]; rewrite ?app_nil_r;
      repeat match goal with
             | |- context [ if ?c then _ else _ ] => destruct c
             end; reflexivity. }
  destruct Hc as [Hc|[r [data [Hh [Hd Hc]]]]].
  - exists (false, None), w'. repeat split; auto.
  - exists (true, Some data), w'. repeat split; auto.
    right. exists r, data. auto.
Qed.

(** An iteration never raises, not even with a zero limit. *)
Lemma loop_body_returns : forall total_images max_images tolerance item s w,
  exists s' e w',
    loop_body E avail total_images max_images reference_encoding tolerance item s w
    = (Ok (s', e), w') /\ e <> BreakVeryLarge.
Proof.
  intros total max tol [i url] s w.
  destruct (Nat.eq_dec max 0) as [Hz|Hnz].
  - subst. exists s, NoBreak, w. split; [reflexivity|discriminate].
  - destruct (loop_body_step total max tol i url s w Hnz) as [r [w' [_ [_ [_ H]]]]].
    rewrite H. unfold after. eexists _, _, w'. split; [reflexivity|].
    apply early_exit_never_second.
Qed.

End Scan.

Section Isolation.

Variable E : externals.
Variable avail : bool.
Variable reference_encoding : ref_encoding E.

Lemma compare_each_raises : forall v tolerance data before f rest e w,
  (forall g, In g before -> compare_faces E v g tolerance = Ok false) ->
  compare_faces E v f tolerance = Raise e ->
  compare_each E (RealEncoding v) tolerance data (before ++ f :: rest) w = (Raise e, w).
Proof.
  intros v tol data before f rest e w Hbefore Hf.
  induction before as [|g before IH]; cbn [app compare_each]; unfold bind, lift.
  - rewrite Hf. reflexivity.
  - rewrite (Hbefore g (or_introl eq_refl)). apply IH.
    intros g' Hg'. apply Hbefore. right. exact Hg'.
Qed.

Lemma match_fails_false : forall r tolerance data w,
  content r = Ok data ->
  match_fails E reference_encoding tolerance data avail ->
  match_response E avail r reference_encoding tolerance w = (Ok (false, None), w).
Proof.
  intros r tol data w Hc Hf.
  destruct Hf as [e H1|H1|image e H1 H2|image rgb e H1 H2 H3|image rgb H1 H2 H3
                  |image rgb v before f rest e H1 H2 H3 Hv Hbefore Hf|e H1|img e H1 H2];
    unfold match_response, real_match, demo_match, try_except, bind, lift, ret;
    rewrite Hc, H1; try reflexivity; rewrite H2; try reflexivity;
      rewrite H3; try reflexivity.
  subst reference_encoding.
  pose proof (compare_each_raises v tol data before f rest e w Hbefore Hf) as Hraise.
  destruct (before ++ f :: rest) as [|g l] eqn:Hl.
  - destruct before; discriminate.
  - rewrite Hraise. reflexivity.
Qed.

Lemma body_raises_false : forall r tolerance e w,
  content r = Raise e ->
  match_response E avail r reference_encoding tolerance w = (Ok (false, None), w).
Proof.
  intros r tol e w Hc.
  unfold match_response, real_match, demo_match, try_except, bind, lift, ret.
  destruct avail; rewrite Hc; reflexivity.
Qed.

(** A failing candidate is answered [(False, None)], after its one request. *)
Lemma candidate_fails_false : forall url timeout tolerance w,
  candidate_fails E avail reference_encoding tolerance url timeout ->
  check_face_match E avail url reference_encoding timeout tolerance w
  = (Ok (false, None), {| rng_pos := rng_pos w; net_log := net_log w ++ [url] |}).
Proof.
  intros url t tol w Hf.
  unfold check_face_match, try_except, bind. simpl.
  destruct Hf as [e Hh|r Hh Hs|r e Hh Hc|r data Hh Hc Hm]; rewrite Hh.
  - reflexivity.
  - unfold raise_for_status.
    replace ((400 <=? status_code r) && (status_code r <? 600))%Z with true; [reflexivity|].
    symmetry. apply andb_true_intro. split; [apply Z.leb_le|apply Z.ltb_lt]; lia.
  - unfold raise_for_status.
    destruct ((400 <=? status_code r) && (status_code r <? 600))%Z; [reflexivity|].
    unfold ret. rewrite (body_raises_false r tol e _ Hc). reflexivity.
  - unfold raise_for_status.
    destruct ((400 <=? status_code r) && (status_code r <? 600))%Z; [reflexivity|].
    unfold ret. rewrite (match_fails_false r tol data _ Hc Hm). reflexivity.
Qed.

End Isolation.

Section Invariant.

Variable E : externals.
Variable avail : bool.
Variable reference_encoding : ref_encoding E.

Lemma keep_length : forall result, List.length (keep result) <= 1.
Proof. intros [[|] [[|b rest]|]]; simpl; lia. Qed.

Lemma scan_inv_entry : forall image_urls w,
  scan_inv image_urls w (scan_entry image_urls w).
Proof.
  intros urls w. exists 0. simpl. rewrite app_nil_r.
  repeat split; lia.
Qed.

Lemma scan_inv_step : forall image_urls w0 c c',
  scan_inv image_urls w0 c ->
  loop_step E avail (List.length image_urls) (max_images_of (List.length image_urls))
            reference_encoding (face_tolerance_of (List.length image_urls)) c c' ->
  scan_inv image_urls w0 c'.
Proof.
  intros urls w0 c c' Hinv Hstep.
  destruct Hstep as [[i url] rest s w s' e w' Hbody].
  destruct Hinv as [k [Hrem [Hk [Hp [Hlog [Hlen Hexit]]]]]].
  cbn [remaining locals outside left_by] in *.
  destruct (skipn k (firstn (max_images_of (List.length urls)) urls))
    as [|u tl] eqn:Hskip; [discriminate|].
  simpl in Hrem. inversion Hrem; subst i u rest. clear Hrem.
  destruct (skipn_cons_firstn _ _ _ _ _ Hskip) as [Hlt [Hfirst Hnext]].
  assert (Hmax : max_images_of (List.length urls) <> 0).
  { pose proof (firstn_le_length (max_images_of (List.length urls)) urls). lia. }
  destruct (loop_body_step E avail reference_encoding (List.length urls) _
              (face_tolerance_of (List.length urls)) k url s w Hmax)
    as [result [w'' [_ [Hlog' [_ Heq]]]]].
  rewrite Heq in Hbody. inversion Hbody; subst s' e w''. clear Hbody Heq.
  pose proof (keep_length result) as Hkeep.
  exists (S k). unfold after. cbn [remaining locals outside left_by matched_images processed_count].
  rewrite length_app, Hnext, Hfirst, Hlog', Hlog, app_assoc.
  repeat split; try lia.
  unfold early_exit.
  destruct (Nat.ltb_spec 50 (List.length urls)),
           (Nat.leb_spec 15 (List.length (matched_images s) + List.length (keep result))),
           (Nat.ltb_spec 100 (List.length urls)),
           (Nat.leb_spec 25 (List.length (matched_images s) + List.length (keep result)));
    simpl; rewrite ?length_app; try lia; intros; try (split; lia); lia.
Qed.

(** The invariant holds wherever the loop gets. *)
Lemma scan_reach_inv : forall image_urls w0 c,
  scan_reach E avail reference_encoding image_urls w0 c ->
  scan_inv image_urls w0 c.
Proof.
  intros urls w0 c H. induction H as [|c c' _ IH Hstep].
  - apply scan_inv_entry.
  - exact (scan_inv_step urls w0 c c' IH Hstep).
Qed.

(** The loop function follows the transition system to a point where
    either a [break] was executed or no item is left. *)
Lemma for_images_reach : forall total_images max_images tolerance c0 items s w,
  loop_reach E avail total_images max_images reference_encoding tolerance c0
             (Config items s w NoBreak) ->
  exists s' e w' rest,
    for_images E avail total_images max_images reference_encoding tolerance items s w
    = (Ok (s', e), w') /\
    loop_reach E avail total_images max_images reference_encoding tolerance c0
               (Config rest s' w' e) /\
    (e = NoBreak -> rest = []).
Proof.
  intros total max tol c0 items. induction items as [|item rest IH]; intros s w Hreach.
  - exists s, NoBreak, w, []. repeat split; auto.
  - destruct (loop_body_returns E avail reference_encoding total max tol item s w)
      as [s1 [e1 [w1 [Hbody _]]]].
    assert (Hnext : loop_reach E avail total max reference_encoding tol c0
                               (Config rest s1 w1 e1)).
    { eapply reach_step; [exact Hreach|]. constructor. exact Hbody. }
    simpl. unfold bind. rewrite Hbody. simpl.
    destruct e1.
    + apply IH. exact Hnext.
    + exists s1, BreakLarge, w1, rest. repeat split; auto. discriminate.
    + exists s1, BreakVeryLarge, w1, rest. repeat split; auto. discriminate.
Qed.

(** [scan_images] returns, and what it returns is a point of its loop. *)
Lemma scan_images_reach : forall image_urls w,
  exists s e w' rest,
    scan_images E avail reference_encoding image_urls w = (Ok (s, e), w') /\
    scan_reach E avail reference_encoding image_urls w (Config rest s w' e) /\
    (e = NoBreak -> rest = []).
Proof.
  intros urls w. unfold scan_images, scan_reach.
  apply for_images_reach. apply reach_start.
Qed.

End Invariant.

Section Traced.

Variable E : externals.
Variable avail : bool.
Variable reference_encoding : ref_encoding E.
Variable total_images max_images : nat.
Variable tolerance : Q.

Lemma for_images_cons : forall i u us s w s1 e1 w1,
  loop_body E avail total_images max_images reference_encoding tolerance (i, u) s w
  = (Ok (s1, e1), w1) ->
  for_images E avail total_images max_images reference_encoding tolerance
             (enumerate_from i (u :: us)) s w
  = match e1 with
    | NoBreak => for_images E avail total_images max_images reference_encoding
                            tolerance (enumerate_from (S i) us) s1 w1
    | _ => (Ok (s1, e1), w1)
    end.
Proof.
  intros i u us s w s1 e1 w1 H.
  cbn [enumerate_from for_images]. unfold bind. rewrite H.
  destruct e1; reflexivity.
Qed.

Lemma examine_cons : forall u us w,
  examine E avail reference_encoding tolerance (u :: us) w
  = kept (check_face_match E avail u reference_encoding 15 tolerance w)
    :: examine E avail reference_encoding tolerance us
               (snd (check_face_match E avail u reference_encoding 15 tolerance w)).
Proof. reflexivity. Qed.

Lemma examine_length : forall us w,
  List.length (examine E avail reference_encoding tolerance us w) = List.length us.
Proof.
  intros us. induction us as [|u us IH]; intro w; [reflexivity|].
  rewrite examine_cons. simpl. rewrite IH. reflexivity.
Qed.

(** The entries of the first [k] candidates do not depend on the
    candidates after them. *)
Lemma examine_firstn : forall k us w,
  firstn k (examine E avail reference_encoding tolerance us w)
  = examine E avail reference_encoding tolerance (firstn k us) w.
Proof.
  intros k. induction k as [|k IH]; intros us w; [reflexivity|].
  destruct us as [|u us]; [reflexivity|].
  rewrite examine_cons. cbn [firstn]. rewrite examine_cons, IH. reflexivity.
Qed.

(** One iteration, in terms of the entry of its candidate. *)
Lemma loop_body_trace : forall u i s w,
  max_images <> 0 ->
  loop_body E avail total_images max_images reference_encoding tolerance (i, u) s w
  = (Ok ({| matched_images :=
              matched_images s
              ++ payload_of (kept (check_face_match E avail u reference_encoding 15
                                                    tolerance w));
            processed_count := processed_count s + 1 |},
         early_exit total_images
           (List.length
              (matched_images s
               ++ payload_of (kept (check_face_match E avail u reference_encoding 15
                                                     tolerance w))))),
     snd (check_face_match E avail u reference_encoding 15 tolerance w)) /\
  net_log (snd (check_face_match E avail u reference_encoding 15 tolerance w))
  = net_log w ++ [u].
Proof.
  intros u i s w Hmax.
  destruct (loop_body_step E avail reference_encoding total_images max_images
              tolerance i u s w Hmax) as [result [w' [Hc [Hlog [_ Hbody]]]]].
  rewrite Hc, Hbody. cbn [snd]. split; [|exact Hlog].
  unfold after. rewrite (kept_keep result w'). reflexivity.
Qed.

(** The loop, whatever the matcher says: it stops after [j] candidates,
    where [j] is the first count at which fifteen payloads are held (in a
    folder of more than 50), or all of them. *)
Lemma for_images_trace : forall us i s w,
  (us <> [] -> max_images <> 0) ->
  (50 < total_images -> List.length (matched_images s) < 15) ->
  exists j s' e w',
    j <= List.length us /\
    for_images E avail total_images max_images reference_encoding tolerance
               (enumerate_from i us) s w = (Ok (s', e), w') /\
    matched_images s'
    = matched_images s
      ++ held (firstn j (examine E avail reference_encoding tolerance us w)) /\
    processed_count s' = processed_count s + j /\
    net_log w' = net_log w ++ firstn j us /\
    (e = NoBreak ->
       j = List.length us /\
       (50 < total_images -> List.length (matched_images s') < 15)) /\
    (e <> NoBreak ->
       e = BreakLarge /\ 50 < total_images /\ 15 <= List.length (matched_images s')) /\
    (50 < total_images -> forall j', j' < j ->
       List.length
         (matched_images s
          ++ held (firstn j' (examine E avail reference_encoding tolerance us w))) < 15).
Proof.
  intros us. induction us as [|u us IH]; intros i s w Hmax Hlt.
  - exists 0, s, NoBreak, w. simpl. rewrite !app_nil_r, Nat.add_0_r.
    repeat split; auto; try congruence. intros _ j' Hj'. lia.
  - assert (Hm : max_images <> 0) by (apply Hmax; discriminate).
    destruct (loop_body_trace u i s w Hm) as [Hbody Hlog1].
    rewrite examine_cons.
    set (run := check_face_match E avail u reference_encoding 15 tolerance w) in *.
    set (s1 := {| matched_images := matched_images s ++ payload_of (kept run);
                  processed_count := processed_count s + 1 |}) in *.
    pose proof (early_exit_never_second total_images
                  (List.length (matched_images s ++ payload_of (kept run)))) as Hdead.
    destruct (early_exit total_images
                (List.length (matched_images s ++ payload_of (kept run)))) eqn:Hexit;
      [| |congruence].
    + (* the loop goes on *)
      assert (Hlt1 : 50 < total_images -> List.length (matched_images s1) < 15).
      { intro Hbig. simpl.
        destruct (Nat.leb_spec 15 (List.length (matched_images s ++ payload_of (kept run))))
          as [Hge|Hsmall]; [|exact Hsmall].
        rewrite (early_exit_reached _ _ Hbig Hge) in Hexit. discriminate. }
      destruct (IH (S i) s1 (snd run) (fun _ => Hm) Hlt1)
        as [j [s' [e [w' [Hj [Hrun [Hmat [Hproc [Hlog [Hall [Hbrk Hfirst]]]]]]]]]]].
      exists (S j), s', e, w'.
      split; [simpl; lia|].
      split; [rewrite (for_images_cons _ _ _ _ _ _ _ _ Hbody); exact Hrun|].
      split; [rewrite Hmat; unfold s1; cbn [matched_images firstn];
              rewrite held_cons, app_assoc; reflexivity|].
      split; [rewrite Hproc; simpl; lia|].
      split; [rewrite Hlog, Hlog1; simpl; rewrite <- app_assoc; reflexivity|].
      split; [intro He; destruct (Hall He) as [Hj' Hlt']; split;
              [simpl; rewrite Hj'; reflexivity|exact Hlt']|].
      split; [exact Hbrk|].
      intros Hbig [|j'] Hj'.
      * simpl. rewrite app_nil_r. apply Hlt, Hbig.
      * cbn [firstn]. rewrite held_cons, app_assoc.
        apply (Hfirst Hbig j'). lia.
    + (* the first break *)
      exists 1, s1, BreakLarge, (snd run).
      assert (Hbig : 50 < total_images /\
                     15 <= List.length (matched_images s ++ payload_of (kept run))).
      { unfold early_exit in Hexit.
        destruct (Nat.ltb_spec 50 total_images),
                 (Nat.leb_spec 15 (List.length (matched_images s ++ payload_of (kept run))));
          simpl in Hexit; try (split; assumption);
          destruct ((100 <? total_images) && _); discriminate. }
      split; [simpl; lia|].
      split; [rewrite (for_images_cons _ _ _ _ _ _ _ _ Hbody); reflexivity|].
      split; [unfold s1; cbn [matched_images firstn];
              rewrite held_cons; unfold held; simpl; rewrite app_nil_r; reflexivity|].
      split; [reflexivity|].
      split; [exact Hlog1|].
      split; [discriminate|].
      split; [intros _; simpl; tauto|].
      intros Hb j' Hj'. assert (j' = 0) by lia. subst. simpl. rewrite app_nil_r.
      apply Hlt, Hb.
Qed.

(** The entry of a failing candidate is empty, whenever it is examined. *)
Lemma examine_failing : forall us w j url,
  nth_error us j = Some url ->
  candidate_fails E avail reference_encoding tolerance url 15 ->
  nth_error (examine E avail reference_encoding tolerance us w) j = Some None.
Proof.
  intros us. induction us as [|u us IH]; intros w j url Hnth Hf.
  - destruct j; discriminate.
  - rewrite examine_cons. destruct j as [|j].
    + injection Hnth as Hu. subst u. cbn [nth_error].
      rewrite (candidate_fails_false E avail reference_encoding url 15 tolerance w Hf).
      reflexivity.
    + cbn [nth_error] in *. apply (IH _ _ _ Hnth Hf).
Qed.

(** A payload in the trace is the body that the candidate's URL answered. *)
Lemma examine_payload : forall us w j data,
  nth_error (examine E avail reference_encoding tolerance us w) j = Some (Some data) ->
  exists url r,
    nth_error us j = Some url /\ http E url 15 = Ok r /\ content r = Ok data /\
    data <> [].
Proof.
  intros us. induction us as [|u us IH]; intros w j data Hnth.
  - destruct j; discriminate.
  - rewrite examine_cons in Hnth. destruct j as [|j].
    + cbn [nth_error] in Hnth.
      destruct (check_face_match_cases E avail u reference_encoding 15 tolerance w)
        as [w' [_ [Hc|[r [d [Hh [Hd Hc]]]]]]]; rewrite Hc in Hnth.
      * discriminate.
      * exists u, r. unfold kept in Hnth. cbn [fst] in Hnth.
        destruct d as [|b rest]; [discriminate|].
        injection Hnth as Hdata. subst data.
        repeat split; auto. discriminate.
    + cbn [nth_error] in *. apply (IH _ _ _ Hnth).
Qed.

(** The entry of a candidate is what its call returns in the world in
    which exactly the candidates before it have been requested. *)
Lemma examine_turn : forall us w j url,
  nth_error us j = Some url ->
  exists w_j,
    net_log w_j = net_log w ++ firstn j us /\
    nth_error (examine E avail reference_encoding tolerance us w) j
    = Some (kept (check_face_match E avail url reference_encoding 15 tolerance w_j)).
Proof.
  intros us. induction us as [|u us IH]; intros w j url Hnth.
  - destruct j; discriminate.
  - rewrite examine_cons. destruct j as [|j].
    + injection Hnth as Hu. subst u. exists w.
      split; [rewrite app_nil_r; reflexivity|reflexivity].
    + cbn [nth_error] in *.
      destruct (check_face_match_cases E avail u reference_encoding 15 tolerance w)
        as [w' [Hlog Hc]].
      assert (Hsnd : snd (check_face_match E avail u reference_encoding 15 tolerance w)
                     = w')
        by (destruct Hc as [Hc|[r [d [_ [_ Hc]]]]]; rewrite Hc; reflexivity).
      rewrite Hsnd. destruct (IH w' j url Hnth) as [wj [Hl He]].
      exists wj. split; [|exact He].
      rewrite Hl, Hlog. cbn [firstn]. rewrite <- app_assoc. reflexivity.
Qed.

(** Candidates that always match all have a payload in the trace. *)
Lemma examine_all_match : forall us w,
  (forall u, In u us -> always_matches E avail reference_encoding tolerance u) ->
  List.length (held (examine E avail reference_encoding tolerance us w))
  = List.length us.
Proof.
  intros us. induction us as [|u us IH]; intros w Hall; [reflexivity|].
  rewrite examine_cons, held_cons, length_app, IH
    by (intros; apply Hall; right; assumption).
  destruct (Hall u (or_introl eq_refl) w) as [b [rest [w' Hc]]].
  rewrite Hc. reflexivity.
Qed.

End Traced.

Section ScanResults.

Variable E : externals.
Variable avail : bool.
Variable reference_encoding : ref_encoding E.

Lemma firstn_incl : forall (A : Type) n (l : list A) x, In x (firstn n l) -> In x l.
Proof.
  intros A n l x H. rewrite <- (firstn_skipn n l). apply in_or_app. left. exact H.
Qed.

Lemma slice_length : forall image_urls : list string,
  List.length (firstn (max_images_of (List.length image_urls)) image_urls)
  = max_images_of (List.length image_urls).
Proof.
  intro urls. rewrite length_firstn.
  pose proof (max_images_le_total (List.length urls)). lia.
Qed.

(** The scan, whatever the matcher says of the candidates. *)
Lemma scan_images_trace : forall image_urls w,
  exists j s e w',
    j <= max_images_of (List.length image_urls) /\
    scan_images E avail reference_encoding image_urls w = (Ok (s, e), w') /\
    matched_images s
    = held (firstn j (scan_trace E avail reference_encoding image_urls w)) /\
    processed_count s = j /\
    net_log w' = net_log w ++ firstn j image_urls /\
    (e = NoBreak ->
       j = max_images_of (List.length image_urls) /\
       (50 < List.length image_urls -> List.length (matched_images s) < 15)) /\
    (e <> NoBreak ->
       e = BreakLarge /\ 50 < List.length image_urls /\
       List.length (matched_images s) = 15) /\
    (50 < List.length image_urls -> forall j', j' < j ->
       List.length (held (firstn j' (scan_trace E avail reference_encoding image_urls w)))
       < 15).
Proof.
  intros urls w. pose proof (slice_length urls) as Hsl. unfold scan_trace.
  set (total := List.length urls) in *. set (mx := max_images_of total) in *.
  assert (Hmx : firstn mx urls <> [] -> mx <> 0).
  { intros Hne Hz. apply Hne. rewrite Hz. reflexivity. }
  destruct (for_images_trace E avail reference_encoding total mx
              (face_tolerance_of total) (firstn mx urls) 0 scan_start w
              Hmx (fun _ => ltac:(simpl; lia)))
    as [j [s [e [w' [Hj [Hrun [Hmat [Hproc [Hlog [Hall [Hbrk Hfirst]]]]]]]]]]].
  rewrite Hsl in Hj.
  assert (Hcut : forall k, k <= mx ->
            firstn k (examine E avail reference_encoding (face_tolerance_of total)
                              (firstn mx urls) w)
            = firstn k (examine E avail reference_encoding (face_tolerance_of total)
                                urls w)).
  { intros k Hk. rewrite !examine_firstn, firstn_firstn_le by exact Hk. reflexivity. }
  rewrite (Hcut j Hj) in Hmat.
  rewrite (firstn_firstn_le _ j mx urls Hj) in Hlog.
  exists j, s, e, w'.
  split; [exact Hj|]. split; [exact Hrun|]. split; [exact Hmat|].
  split; [exact Hproc|]. split; [exact Hlog|].
  split; [intro He; destruct (Hall He) as [H1 H2]; split; [|exact H2];
          rewrite H1; exact Hsl|].
  split.
  - intro He. destruct (Hbrk He) as [Hb [Hbig Hge]]. split; [exact Hb|].
    split; [exact Hbig|].
    destruct (scan_images_reach E avail reference_encoding urls w)
      as [s2 [e2 [w2 [rest [Hrun2 [Hreach _]]]]]].
    unfold scan_images in Hrun2. fold total mx in Hrun2.
    unfold enumerate in Hrun2. rewrite Hrun in Hrun2.
    assert (Hs : s2 = s) by congruence. assert (He2 : e2 = e) by congruence.
    subst s2 e2.
    destruct (scan_reach_inv E avail reference_encoding urls w _ Hreach)
      as [k [_ [_ [_ [_ [_ Hexit]]]]]].
    cbn [locals left_by] in Hexit. rewrite Hb in Hexit. apply Hexit.
  - intros Hbig j' Hj'. specialize (Hfirst Hbig j' Hj'). simpl in Hfirst.
    rewrite Hcut in Hfirst by lia. exact Hfirst.
Qed.

(** In a folder of more than 50, the scan stops with the candidate that
    brings the fifteenth payload. *)
Lemma scan_images_breaks_at : forall image_urls w k,
  50 < List.length image_urls ->
  k <= max_images_of (List.length image_urls) ->
  List.length (held (firstn k (scan_trace E avail reference_encoding image_urls w))) = 15 ->
  (forall j, j < k ->
     List.length (held (firstn j (scan_trace E avail reference_encoding image_urls w)))
     < 15) ->
  exists w',
    scan_images E avail reference_encoding image_urls w
    = (Ok ({| matched_images :=
                held (firstn k (scan_trace E avail reference_encoding image_urls w));
              processed_count := k |}, BreakLarge), w') /\
    fetched_since w w' = firstn k image_urls.
Proof.
  intros urls w k Hbig Hk Hfull Hbefore.
  destruct (scan_images_trace urls w)
    as [j [s [e [w' [Hj [Hrun [Hmat [Hproc [Hlog [Hall [Hbrk Hfirst]]]]]]]]]]].
  assert (Hjk : j = k).
  { destruct (Nat.lt_trichotomy j k) as [Hlt|[Heq|Hgt]]; [|exact Heq|].
    - exfalso. specialize (Hbefore j Hlt). rewrite <- Hmat in Hbefore.
      destruct e; [destruct (Hall eq_refl); lia| |];
        (destruct Hbrk as [_ [_ Hge]]; [discriminate|lia]).
    - exfalso. specialize (Hfirst Hbig k Hgt). lia. }
  rewrite Hjk in *. clear Hjk Hj.
  assert (He : e = BreakLarge).
  { destruct e; [|reflexivity|destruct Hbrk as [Hb _]; [discriminate|discriminate Hb]].
    destruct (Hall eq_refl) as [_ Hl]. specialize (Hl Hbig). rewrite Hmat in Hl. lia. }
  subst e. exists w'. split; [|apply fetched_since_app; exact Hlog].
  rewrite Hrun. destruct s as [m p]. simpl in Hmat, Hproc. subst. reflexivity.
Qed.

(** In a folder of at most 50 every candidate is examined: no [break]. *)
Lemma scan_images_small : forall image_urls w,
  List.length image_urls <= 50 ->
  exists s w',
    scan_images E avail reference_encoding image_urls w = (Ok (s, NoBreak), w') /\
    processed_count s = List.length image_urls /\
    fetched_since w w' = image_urls.
Proof.
  intros urls w Hsmall.
  destruct (scan_images_reach E avail reference_encoding urls w)
    as [s [e [w' [rest [Hrun [Hreach Hend]]]]]].
  destruct (scan_reach_inv E avail reference_encoding urls w _ Hreach)
    as [k [Hrem [Hk [Hp [Hlog [Hlen Hexit]]]]]].
  cbn [remaining locals outside left_by] in *.
  rewrite (max_images_small _ Hsmall), firstn_all in *.
  destruct e; [|lia|contradiction].
  specialize (Hend eq_refl). subst rest.
  symmetry in Hrem. apply enumerate_from_nil in Hrem.
  assert (Hkl : k = List.length urls).
  { apply (f_equal (@List.length _)) in Hrem. rewrite length_skipn in Hrem.
    simpl in Hrem. lia. }
  exists s, w'. split; [exact Hrun|]. split; [lia|].
  apply fetched_since_app. rewrite Hlog, Hkl, firstn_all. reflexivity.
Qed.

(** A failing candidate at the head of the items: the loop is the loop on
    the items after it, with the count one higher, the matched list as it
    was and the candidate's one request made. *)
Lemma for_images_skips : forall total_images max_images tolerance i url rest s w,
  max_images <> 0 ->
  early_exit total_images (List.length (matched_images s)) = NoBreak ->
  candidate_fails E avail reference_encoding tolerance url 15 ->
  for_images E avail total_images max_images reference_encoding tolerance
             ((i, url) :: rest) s w
  = for_images E avail total_images max_images reference_encoding tolerance rest
               {| matched_images := matched_images s;
                  processed_count := processed_count s + 1 |}
               {| rng_pos := rng_pos w; net_log := net_log w ++ [url] |}.
Proof.
  intros total mx tol i url rest s w Hmax Hrun Hf.
  destruct (loop_body_step E avail reference_encoding total mx tol i url s w Hmax)
    as [result [w' [Hc [_ [_ Hbody]]]]].
  rewrite (candidate_fails_false E avail reference_encoding url 15 tol w Hf) in Hc.
  assert (Hr : result = (false, None)) by congruence.
  assert (Hw : w' = {| rng_pos := rng_pos w; net_log := net_log w ++ [url] |})
    by congruence.
  subst result w'.
  cbn [for_images]. unfold bind. rewrite Hbody. unfold after.
  cbn [keep]. rewrite app_nil_r, Hrun. reflexivity.
Qed.

End ScanResults.

(** ** The statements about the scan *)

(** C2. Early exit.  Nothing is assumed of the matcher or of the
    candidates; [scan_trace] is what each candidate adds to the matched
    list at its turn.  In a folder of more than 50 candidates the scan
    returns right after the first candidate at which fifteen payloads are
    held: until then fewer than fifteen are held, the candidates after it
    are never requested, and when fifteen are never held the scan goes to
    its limit.  With 60 candidates whose first fifteen match whenever they
    are examined, exactly 15 are examined, whatever the other 45 do.  In a
    folder of at most 50 candidates the loop is never left early: every
    candidate is examined. *)
Theorem early_exit_at_fifteen :
  forall (E : externals) (avail : bool) (reference_encoding : ref_encoding E),
    (forall image_urls w,
        50 < List.length image_urls ->
        exists s e w',
          scan_images E avail reference_encoding image_urls w = (Ok (s, e), w') /\
          processed_count s <= max_images_of (List.length image_urls) /\
          matched_images s
          = held (firstn (processed_count s)
                         (scan_trace E avail reference_encoding image_urls w)) /\
          fetched_since w w' = firstn (processed_count s) image_urls /\
          (forall j, j < processed_count s ->
             List.length
               (held (firstn j (scan_trace E avail reference_encoding image_urls w)))
             < 15) /\
          (e = BreakLarge /\ List.length (matched_images s) = 15 \/
           e = NoBreak /\ List.length (matched_images s) < 15 /\
           processed_count s = max_images_of (List.length image_urls))) /\
    (forall image_urls w k,
        50 < List.length image_urls ->
        k <= max_images_of (List.length image_urls) ->
        List.length
          (held (firstn k (scan_trace E avail reference_encoding image_urls w))) = 15 ->
        (forall j, j < k ->
           List.length
             (held (firstn j (scan_trace E avail reference_encoding image_urls w)))
           < 15) ->
        exists w',
          scan_images E avail reference_encoding image_urls w
          = (Ok ({| matched_images :=
                      held (firstn k (scan_trace E avail reference_encoding image_urls w));
                    processed_count := k |}, BreakLarge), w') /\
          fetched_since w w' = firstn k image_urls) /\
    (forall image_urls w,
        List.length image_urls = 60 ->
        (forall j, j < 15 ->
           always_matches E avail reference_encoding
                          (face_tolerance_of (List.length image_urls))
                          (nth j image_urls EmptyString)) ->
        exists s w',
          scan_images E avail reference_encoding image_urls w
          = (Ok (s, BreakLarge), w') /\
          processed_count s = 15 /\
          List.length (matched_images s) = 15 /\
          fetched_since w w' = firstn 15 image_urls) /\
    (forall image_urls w,
        List.length image_urls <= 50 ->
        exists s w',
          scan_images E avail reference_encoding image_urls w = (Ok (s, NoBreak), w') /\
          processed_count s = List.length image_urls /\
          fetched_since w w' = image_urls).
Proof.
  intros E avail ref. split; [|split; [|split]].
  - intros urls w Hbig.
    destruct (scan_images_trace E avail ref urls w)
      as [j [s [e [w' [Hj [Hrun [Hmat [Hproc [Hlog [Hall [Hbrk Hfirst]]]]]]]]]]].
    exists s, e, w'. rewrite Hproc.
    split; [exact Hrun|]. split; [exact Hj|]. split; [exact Hmat|].
    split; [apply fetched_since_app; exact Hlog|].
    split; [exact (Hfirst Hbig)|].
    destruct e.
    + right. destruct (Hall eq_refl) as [H1 H2]. auto.
    + left. destruct Hbrk as [_ [_ H15]]; [discriminate|]. auto.
    + destruct Hbrk as [Hb _]; [discriminate|discriminate Hb].
  - intros urls w k. apply scan_images_breaks_at.
  - intros urls w Hlen Hfirst.
    assert (Hcut : forall j, j <= 15 ->
              List.length (held (firstn j (scan_trace E avail ref urls w))) = j).
    { intros j Hj. unfold scan_trace. rewrite examine_firstn, examine_all_match.
      - rewrite length_firstn. lia.
      - intros u Hin. destruct (In_nth _ _ EmptyString Hin) as [n [Hn Hu]].
        rewrite length_firstn in Hn. rewrite nth_firstn in Hu.
        destruct (Nat.ltb_spec n j); [|lia]. subst u. apply Hfirst. lia. }
    destruct (scan_images_breaks_at E avail ref urls w 15) as [w' [Hrun Hlog]].
    + lia.
    + rewrite Hlen. vm_compute. lia.
    + apply Hcut. lia.
    + intros j Hj. rewrite Hcut; lia.
    + eexists _, w'. split; [exact Hrun|]. split; [reflexivity|].
      split; [apply Hcut; lia|exact Hlog].
  - intros urls w. apply scan_images_small.
Qed.

Lemma early_exit_at_fifteen_witness :
  (exists s w',
      scan_images Toy.libs false Toy.demo_selfie Toy.demo_urls Toy.w0
      = (Ok (s, BreakLarge), w') /\
      processed_count s = 15 /\
      List.length (matched_images s) = 15 /\
      fetched_since Toy.w0 w' = firstn 15 Toy.demo_urls) /\
  (exists s w',
      scan_images Toy.libs true Toy.selfie Toy.ten_urls Toy.w0 = (Ok (s, NoBreak), w') /\
      processed_count s = 10 /\
      fetched_since Toy.w0 w' = Toy.ten_urls) /\
  (exists s e w',
      scan_images Toy.libs false Toy.demo_selfie (repeat "a" 60) Toy.w0
      = (Ok (s, e), w') /\
      fetched_since Toy.w0 w' = firstn (processed_count s) (repeat "a" 60) /\
      (e = BreakLarge /\ List.length (matched_images s) = 15 \/
       e = NoBreak /\ List.length (matched_images s) < 15 /\
       processed_count s = max_images_of 60)).
Proof.
  split; [|split].
  - apply (proj1 (proj2 (proj2 (early_exit_at_fifteen Toy.libs false Toy.demo_selfie)))
                 Toy.demo_urls Toy.w0).
    + reflexivity.
    + intros j Hj.
      do 15 (destruct j as [|j];
             [intro w; exists "z"%byte, ["z"%byte],
                {| rng_pos := rng_pos w; net_log := net_log w ++ ["zz"] |};
              reflexivity|]).
      lia.
  - apply (proj2 (proj2 (proj2 (early_exit_at_fifteen Toy.libs true Toy.selfie)))
                 Toy.ten_urls Toy.w0).
    simpl. lia.
  - destruct (proj1 (early_exit_at_fifteen Toy.libs false Toy.demo_selfie)
                    (repeat "a" 60) Toy.w0)
      as [s [e [w' [Hrun [_ [_ [Hlog [_ Hend]]]]]]]].
    + rewrite repeat_length. lia.
    + exists s, e, w'. split; [exact Hrun|]. split; [exact Hlog|].
      rewrite repeat_length in Hend. exact Hend.
Defined.

(** The sixty candidates of [Toy.demo_urls] without the face libraries:
    the first fifteen always match, the forty-five after them depend on
    the draw and are never requested. *)
Example sixty_in_demo_mode :
  exists w',
    scan_images Toy.libs false Toy.demo_selfie Toy.demo_urls Toy.w0
    = (Ok ({| matched_images := repeat (list_byte_of_string "zz") 15;
              processed_count := 15 |}, BreakLarge), w') /\
    net_log w' = repeat "zz" 15 /\ rng_pos w' = 0.
Proof. eexists. vm_compute. repeat split. Qed.

(** C3. The second [break] is dead code.  No iteration, no run of the
    loop and no scan ever leaves by it, from any state whatever; and when
    its own condition holds after an iteration (more than 100 candidates,
    25 matches or more), that iteration has left by the first [break]. *)
Theorem second_break_is_dead :
  forall (E : externals) (avail : bool) (reference_encoding : ref_encoding E),
    (forall total_images max_images tolerance item s w,
        exit_of (loop_body E avail total_images max_images reference_encoding
                           tolerance item s w) <> Some BreakVeryLarge) /\
    (forall total_images max_images tolerance items s w,
        exit_of (for_images E avail total_images max_images reference_encoding
                            tolerance items s w) <> Some BreakVeryLarge) /\
    (forall image_urls w,
        exit_of (scan_images E avail reference_encoding image_urls w)
        <> Some BreakVeryLarge) /\
    (forall total_images max_images tolerance item s w s' e w',
        max_images <> 0 ->
        loop_body E avail total_images max_images reference_encoding tolerance item s w
        = (Ok (s', e), w') ->
        100 < total_images ->
        25 <= List.length (matched_images s') ->
        e = BreakLarge).
Proof.
  intros E avail ref.
  assert (Hloop : forall total max tol items s w,
             exit_of (for_images E avail total max ref tol items s w)
             <> Some BreakVeryLarge).
  { intros total max tol items. induction items as [|item rest IH]; intros s w.
    - discriminate.
    - destruct (loop_body_returns E avail ref total max tol item s w)
        as [s1 [e1 [w1 [Hbody Hne]]]].
      cbn [for_images]. unfold bind. rewrite Hbody. cbn [snd fst].
      destruct e1; [apply IH|discriminate|congruence]. }
  split; [|split; [exact Hloop|split]].
  - intros total max tol item s w.
    destruct (loop_body_returns E avail ref total max tol item s w)
      as [s1 [e1 [w1 [Hbody Hne]]]].
    rewrite Hbody. unfold exit_of. simpl. congruence.
  - intros urls w. unfold scan_images. apply Hloop.
  - intros total max tol [i url] s w s' e w' Hmax Hbody Hbig Hmany.
    destruct (loop_body_step E avail ref total max tol i url s w Hmax)
      as [r [w1 [_ [_ [_ Heq]]]]].
    rewrite Heq in Hbody. unfold after in Hbody. inversion Hbody; subst. clear Hbody.
    simpl in Hmany. apply early_exit_reached; lia.
Qed.

Lemma second_break_is_dead_witness :
  exit_of (scan_images Toy.libs true Toy.selfie (repeat "m" 120) Toy.w0)
  <> Some BreakVeryLarge /\
  exists s' w',
    loop_body Toy.libs true 120 80 Toy.selfie 0.65%Q (30, "m")
              {| matched_images := repeat [x6d] 24; processed_count := 30 |} Toy.w0
    = (Ok (s', BreakLarge), w').
Proof.
  split.
  - apply (proj1 (proj2 (proj2 (second_break_is_dead Toy.libs true Toy.selfie)))).
  - destruct (loop_body_returns Toy.libs true Toy.selfie 120 80 0.65%Q (30, "m")
                {| matched_images := repeat [x6d] 24; processed_count := 30 |} Toy.w0)
      as [s' [e [w' [Hbody _]]]].
    exists s', w'. rewrite Hbody. do 3 f_equal.
    apply (proj2 (proj2 (proj2 (second_break_is_dead Toy.libs true Toy.selfie)))
                 120 80 0.65%Q (30, "m")
                 {| matched_images := repeat [x6d] 24; processed_count := 30 |}
                 Toy.w0 s' e w');
      [discriminate|exact Hbody|lia|].
    vm_compute in Hbody. inversion Hbody. vm_compute. lia.
Defined.

(** C5. Failure isolation.  A candidate whose fetch, status, body read,
    decoding, face extraction or comparison fails is answered
    [(False, None)] by [check_face_match], which never raises.  The loop
    on items headed by such a candidate is the loop on the items after it,
    with the candidate counted, its one request made and the matched list
    as it was.  Every scan returns its locals, never an exception, having
    examined every permitted candidate unless fifteen matches stopped it in
    a folder of more than 50; a failing candidate has no entry in the
    matched list, and the scan never stops at it unless it is the last
    permitted one. *)
Theorem failure_isolation :
  forall (E : externals) (avail : bool) (reference_encoding : ref_encoding E),
    (forall url timeout tolerance w,
        candidate_fails E avail reference_encoding tolerance url timeout ->
        fst (check_face_match E avail url reference_encoding timeout tolerance w)
        = Ok (false, None)) /\
    (forall url timeout tolerance w,
        exists result w',
          check_face_match E avail url reference_encoding timeout tolerance w
          = (Ok result, w')) /\
    (forall total_images max_images tolerance i url rest s w,
        max_images <> 0 ->
        early_exit total_images (List.length (matched_images s)) = NoBreak ->
        candidate_fails E avail reference_encoding tolerance url 15 ->
        for_images E avail total_images max_images reference_encoding tolerance
                   ((i, url) :: rest) s w
        = for_images E avail total_images max_images reference_encoding tolerance rest
                     {| matched_images := matched_images s;
                        processed_count := processed_count s + 1 |}
                     {| rng_pos := rng_pos w; net_log := net_log w ++ [url] |}) /\
    (forall image_urls w0 i url rest s w,
        scan_reach E avail reference_encoding image_urls w0
                   (Config ((i, url) :: rest) s w NoBreak) ->
        candidate_fails E avail reference_encoding
                        (face_tolerance_of (List.length image_urls)) url 15 ->
        exists w',
          loop_step E avail (List.length image_urls)
                    (max_images_of (List.length image_urls)) reference_encoding
                    (face_tolerance_of (List.length image_urls))
                    (Config ((i, url) :: rest) s w NoBreak)
                    (Config rest
                            {| matched_images := matched_images s;
                               processed_count := processed_count s + 1 |}
                            w' NoBreak)) /\
    (forall image_urls w,
        exists s e w',
          scan_images E avail reference_encoding image_urls w = (Ok (s, e), w') /\
          fetched_since w w' = firstn (processed_count s) image_urls /\
          matched_images s
          = held (firstn (processed_count s)
                         (scan_trace E avail reference_encoding image_urls w)) /\
          (processed_count s = max_images_of (List.length image_urls) \/
           50 < List.length image_urls /\ List.length (matched_images s) = 15) /\
          forall j url,
            nth_error image_urls j = Some url ->
            candidate_fails E avail reference_encoding
                            (face_tolerance_of (List.length image_urls)) url 15 ->
            nth_error (scan_trace E avail reference_encoding image_urls w) j = Some None /\
            (processed_count s = S j ->
             S j = max_images_of (List.length image_urls))).
Proof.
  intros E avail ref. split; [|split; [|split; [|split]]].
  - intros url t tol w Hf.
    rewrite (candidate_fails_false E avail ref url t tol w Hf). reflexivity.
  - intros url t tol w.
    destruct (check_face_match_cases E avail url ref t tol w)
      as [w' [_ [H|[r [d [_ [_ H]]]]]]]; rewrite H; eauto.
  - apply for_images_skips.
  - intros urls w0 i url rest s w Hreach Hf.
    destruct (scan_reach_inv E avail ref urls w0 _ Hreach)
      as [k [Hrem [Hk [Hp [Hlog [Hlen Hexit]]]]]].
    cbn [remaining locals outside left_by] in *.
    assert (Hmax : max_images_of (List.length urls) <> 0).
    { intro Hz. rewrite Hz in Hrem. simpl in Hrem. rewrite skipn_nil in Hrem.
      discriminate. }
    destruct (loop_body_step E avail ref (List.length urls) _
                (face_tolerance_of (List.length urls)) i url s w Hmax)
      as [result [w' [Hc [_ [_ Hbody]]]]].
    rewrite (candidate_fails_false E avail ref url 15 _ w Hf) in Hc.
    inversion Hc; subst result. clear Hc.
    exists w'. constructor. rewrite Hbody. unfold after. simpl keep.
    rewrite app_nil_r. do 3 f_equal.
    destruct (Nat.le_gt_cases (List.length urls) 50) as [Hsmall|Hbig].
    + apply early_exit_small. exact Hsmall.
    + apply early_exit_below. apply Hexit. exact Hbig.
  - intros urls w.
    destruct (scan_images_trace E avail ref urls w)
      as [j [s [e [w' [Hj [Hrun [Hmat [Hproc [Hlog [Hall [Hbrk Hfirst]]]]]]]]]]].
    exists s, e, w'. rewrite Hproc.
    split; [exact Hrun|]. split; [apply fetched_since_app; exact Hlog|].
    split; [exact Hmat|].
    assert (Hend : e = NoBreak \/ e <> NoBreak)
      by (destruct e; [left; reflexivity|right; discriminate|right; discriminate]).
    split.
    { destruct Hend as [He|He].
      - left. apply (Hall He).
      - right. destruct (Hbrk He) as [_ [Hbig H15]]. auto. }
    intros i url Hnth Hf.
    pose proof (examine_failing E avail ref _ urls w i url Hnth Hf) as Hnone.
    fold (scan_trace E avail ref urls w) in Hnone.
    split; [exact Hnone|].
    intro Hstop. destruct Hend as [He|He]; [rewrite <- Hstop; apply (Hall He)|].
    exfalso. destruct (Hbrk He) as [_ [Hbig H15]].
    rewrite Hmat, Hstop, (firstn_snoc _ _ _ _ Hnone), held_app in H15.
    change (held [None]) with (@nil bytes) in H15. rewrite app_nil_r in H15.
    specialize (Hfirst Hbig i). lia.
Qed.

Lemma failure_isolation_witness :
  fst (check_face_match Toy.libs true "" Toy.selfie 15 0.6%Q Toy.w0) = Ok (false, None) /\
  for_images Toy.libs true 10 10 Toy.selfie 0.6%Q
             [(3, ""); (4, "!"); (5, "m5")]
             {| matched_images := [[x6d; x32]]; processed_count := 3 |}
             {| rng_pos := 0; net_log := ["a"; "b"; "m2"] |}
  = for_images Toy.libs true 10 10 Toy.selfie 0.6%Q
               [(4, "!"); (5, "m5")]
               {| matched_images := [[x6d; x32]]; processed_count := 3 + 1 |}
               {| rng_pos := 0; net_log := ["a"; "b"; "m2"] ++ [""] |} /\
  exists s e w',
    scan_images Toy.libs true Toy.selfie Toy.ten_urls Toy.w0 = (Ok (s, e), w') /\
    fetched_since Toy.w0 w' = firstn (processed_count s) Toy.ten_urls /\
    nth_error (scan_trace Toy.libs true Toy.selfie Toy.ten_urls Toy.w0) 3 = Some None /\
    (processed_count s = 4 -> 4 = max_images_of (List.length Toy.ten_urls)).
Proof.
  assert (Hfails : forall tol,
             candidate_fails Toy.libs true Toy.selfie tol "" 15).
  { intro tol. apply (fetch_raises Toy.libs true Toy.selfie tol "" 15 RequestException).
    reflexivity. }
  split; [|split].
  - apply (proj1 (failure_isolation Toy.libs true Toy.selfie)). apply Hfails.
  - apply (proj1 (proj2 (proj2 (failure_isolation Toy.libs true Toy.selfie)))
                 10 10 0.6%Q 3 "" [(4, "!"); (5, "m5")]
                 {| matched_images := [[x6d; x32]]; processed_count := 3 |}
                 {| rng_pos := 0; net_log := ["a"; "b"; "m2"] |});
      [discriminate|reflexivity|apply Hfails].
  - destruct (proj2 (proj2 (proj2 (proj2 (failure_isolation Toy.libs true Toy.selfie))))
                    Toy.ten_urls Toy.w0)
      as [s [e [w' [Hrun [Hlog [_ [_ Hfail]]]]]]].
    exists s, e, w'. split; [exact Hrun|]. split; [exact Hlog|].
    apply (Hfail 3 ""); [reflexivity|apply Hfails].
Defined.

(** The ten candidates of [Toy.ten_urls]: the fetch of the fourth fails,
    the fifth answers 404, the seventh does not decode and the eighth shows
    no face; all ten are requested and counted, and the three matches are
    kept. *)
Example failures_do_not_stop_the_scan :
  scan_images Toy.libs true Toy.selfie Toy.ten_urls Toy.w0
  = (Ok ({| matched_images := [list_byte_of_string "m2"; list_byte_of_string "m5";
                               list_byte_of_string "m9"];
            processed_count := 10 |}, NoBreak),
     {| rng_pos := 0; net_log := Toy.ten_urls |}).
Proof. vm_compute. reflexivity. Qed.

(** C6. Order preservation.  For every candidate sequence, every matcher
    and every state of the outside world, the matched list is exactly the
    payloads that the examined candidates added at their turn, in
    candidate order.  The entry of a candidate is what its call of
    [check_face_match] returns once exactly the candidates before it have
    been requested; a payload is the body, of at least one byte, that the
    candidate's URL answered.  The examined candidates are the first [processed_count],
    which is all the permitted ones unless the loop was left early, and
    all the candidates in a folder of at most 50.  When the candidates at
    positions 2, 5 and 9 are the only ones to match in such a folder, the
    matched list is their three bodies in that order. *)
Theorem matched_in_candidate_order :
  forall (E : externals) (avail : bool) (reference_encoding : ref_encoding E)
         (image_urls : list string) (w : world),
    exists s e w',
      scan_images E avail reference_encoding image_urls w = (Ok (s, e), w') /\
      matched_images s
      = held (firstn (processed_count s)
                     (scan_trace E avail reference_encoding image_urls w)) /\
      List.length (scan_trace E avail reference_encoding image_urls w)
      = List.length image_urls /\
      (forall j url,
          nth_error image_urls j = Some url ->
          exists w_j,
            fetched_since w w_j = firstn j image_urls /\
            nth_error (scan_trace E avail reference_encoding image_urls w) j
            = Some (kept (check_face_match E avail url reference_encoding 15
                            (face_tolerance_of (List.length image_urls)) w_j))) /\
      (forall j data,
          nth_error (scan_trace E avail reference_encoding image_urls w) j
          = Some (Some data) ->
          exists url r,
            nth_error image_urls j = Some url /\ http E url 15 = Ok r /\
            content r = Ok data /\ data <> []) /\
      (e = NoBreak -> processed_count s = max_images_of (List.length image_urls)) /\
      (List.length image_urls <= 50 ->
         e = NoBreak /\
         matched_images s = held (scan_trace E avail reference_encoding image_urls w)) /\
      (forall b2 b5 b9 n,
          List.length image_urls <= 50 ->
          scan_trace E avail reference_encoding image_urls w
          = [None; None; Some b2; None; None; Some b5; None; None; None; Some b9]
            ++ repeat None n ->
          matched_images s = [b2; b5; b9]).
Proof.
  intros E avail ref urls w.
  destruct (scan_images_trace E avail ref urls w)
    as [j [s [e [w' [Hj [Hrun [Hmat [Hproc [Hlog [Hall _]]]]]]]]]].
  assert (Hsmall : List.length urls <= 50 ->
            e = NoBreak /\ matched_images s = held (scan_trace E avail ref urls w)).
  { intro Hsmall.
    destruct (scan_images_small E avail ref urls w Hsmall) as [s2 [w2 [Hrun2 [Hp2 _]]]].
    rewrite Hrun in Hrun2.
    assert (Hs : s2 = s) by congruence. assert (He : e = NoBreak) by congruence.
    subst s2. split; [exact He|].
    rewrite Hmat, <- Hproc, Hp2.
    rewrite <- (examine_length E avail ref (face_tolerance_of (List.length urls)) urls w).
    apply f_equal, firstn_all. }
  exists s, e, w'. split; [exact Hrun|].
  split; [rewrite Hproc; exact Hmat|].
  split; [apply examine_length|].
  split.
  { intros i url Hnth.
    destruct (examine_turn E avail ref (face_tolerance_of (List.length urls))
                urls w i url Hnth) as [wi [Hl He]].
    exists wi. split; [apply fetched_since_app; exact Hl|exact He]. }
  split; [intros i data; apply examine_payload|].
  split; [intro He; rewrite Hproc; apply (Hall He)|].
  split; [exact Hsmall|].
  intros b2 b5 b9 n Hle Htrace.
  destruct (Hsmall Hle) as [_ Hm]. rewrite Hm, Htrace, held_app, held_none.
  reflexivity.
Qed.

(** Without the face libraries the same candidate can match at one turn
    and not at another: of the two candidates [a] below, the first wins
    its draw and the second loses it.  The matched list follows what
    happened at each turn. *)
Lemma matched_in_candidate_order_witness :
  scan_trace Toy.libs false Toy.demo_selfie Toy.demo_five Toy.w0
  = [Some (list_byte_of_string "a"); Some (list_byte_of_string "zz"); None; None;
     Some (list_byte_of_string "zz")] /\
  exists s e w',
    scan_images Toy.libs false Toy.demo_selfie Toy.demo_five Toy.w0 = (Ok (s, e), w') /\
    matched_images s
    = held (firstn (processed_count s)
                   (scan_trace Toy.libs false Toy.demo_selfie Toy.demo_five Toy.w0)) /\
    (List.length Toy.demo_five <= 50 ->
     e = NoBreak /\
     matched_images s
     = held (scan_trace Toy.libs false Toy.demo_selfie Toy.demo_five Toy.w0)).
Proof.
  split; [reflexivity|].
  destruct (matched_in_candidate_order Toy.libs false Toy.demo_selfie Toy.demo_five Toy.w0)
    as [s [e [w' [Hrun [Hmat [_ [_ [_ [_ [Hsmall _]]]]]]]]]].
  exists s, e, w'. auto.
Defined.

(** The candidates at positions 2, 5 and 9 of [Toy.ten_urls] are the ones
    that match; their bodies come out in that order. *)
Example matched_two_five_nine :
  scan_trace Toy.libs true Toy.selfie Toy.ten_urls Toy.w0
  = [None; None; Some (list_byte_of_string "m2"); None; None;
     Some (list_byte_of_string "m5"); None; None; None;
     Some (list_byte_of_string "m9")] /\
  exists w',
    scan_images Toy.libs true Toy.selfie Toy.ten_urls Toy.w0
    = (Ok ({| matched_images := [list_byte_of_string "m2"; list_byte_of_string "m5";
                                 list_byte_of_string "m9"];
              processed_count := 10 |}, NoBreak), w').
Proof. split; [reflexivity|]. eexists. vm_compute. reflexivity. Qed.

(** C9. Scan-session invariant.  At every point the loop of a scan can
    reach, the count of examined candidates is at most the limit, the
    limit is at most the number of candidates, and the requests made so
    far are exactly one for each of the first [processed_count] candidates,
    in order: no candidate is examined twice. *)
Theorem scan_session_invariant :
  forall (E : externals) (avail : bool) (reference_encoding : ref_encoding E)
         (image_urls : list string) (w0 : world) (c : loop_config),
    scan_reach E avail reference_encoding image_urls w0 c ->
    processed_count (locals c) <= max_images_of (List.length image_urls) /\
    max_images_of (List.length image_urls) <= List.length image_urls /\
    fetched_since w0 (outside c) = firstn (processed_count (locals c)) image_urls /\
    map fst (remaining c)
    = seq (processed_count (locals c))
          (max_images_of (List.length image_urls) - processed_count (locals c)).
Proof.
  intros E avail ref urls w0 c Hreach.
  destruct (scan_reach_inv E avail ref urls w0 c Hreach)
    as [k [Hrem [Hk [Hp [Hlog [Hlen Hexit]]]]]].
  rewrite slice_length in Hk. rewrite firstn_firstn_le in Hlog by exact Hk.
  split; [lia|]. split; [apply max_images_le_total|].
  split; [rewrite Hp; apply fetched_since_app; exact Hlog|].
  rewrite Hrem, Hp.
  replace (max_images_of (List.length urls) - k)
    with (List.length (skipn k (firstn (max_images_of (List.length urls)) urls)))
    by (rewrite length_skipn, slice_length; reflexivity).
  generalize (skipn k (firstn (max_images_of (List.length urls)) urls)) as l.
  clear. intro l. revert k. induction l as [|x l IH]; intro k; simpl; [reflexivity|].
  rewrite IH. reflexivity.
Qed.

Lemma scan_session_invariant_witness :
  let c := Config [(2, "m2")]
                  {| matched_images := []; processed_count := 2 |}
                  {| rng_pos := 0; net_log := ["a"; "b"] |} NoBreak in
  processed_count (locals c) <= max_images_of 3 /\
  max_images_of 3 <= 3 /\
  fetched_since Toy.w0 (outside c) = firstn (processed_count (locals c)) ["a"; "b"; "m2"] /\
  map fst (remaining c)
  = seq (processed_count (locals c)) (max_images_of 3 - processed_count (locals c)).
Proof.
  apply (scan_session_invariant Toy.libs true Toy.selfie ["a"; "b"; "m2"] Toy.w0).
  unfold scan_reach.
  eapply reach_step; [eapply reach_step; [apply reach_start|]|].
  - apply (step_iteration Toy.libs true 3 3 Toy.selfie 0.6%Q (0, "a")).
    vm_compute. reflexivity.
  - apply (step_iteration Toy.libs true 3 3 Toy.selfie 0.6%Q (1, "b")).
    vm_compute. reflexivity.
Defined.

(** ** The face matcher and the random generator *)

Section MatcherWorld.

Variable E : externals.
Variable reference_encoding : ref_encoding E.

Lemma compare_each_world : forall tolerance data encodings w1 w2,
  fst (compare_each E reference_encoding tolerance data encodings w1)
  = fst (compare_each E reference_encoding tolerance data encodings w2) /\
  snd (compare_each E reference_encoding tolerance data encodings w1) = w1.
Proof.
  intros tol data encs. induction encs as [|f rest IH]; intros w1 w2.
  - split; reflexivity.
  - cbn [compare_each]. unfold bind, lift, ret.
    destruct (match reference_encoding with
              | RealEncoding v => compare_faces E v f tol
              | DemoEncoding _ => Raise TypeError
              end) as [[|]|e]; try (split; reflexivity).
    apply IH.
Qed.

Lemma real_match_world : forall r tolerance w1 w2,
  fst (real_match E r reference_encoding tolerance w1)
  = fst (real_match E r reference_encoding tolerance w2) /\
  snd (real_match E r reference_encoding tolerance w1) = w1.
Proof.
  intros r tol w1 w2. unfold real_match, bind, lift, ret.
  destruct (content r) as [data|e]; [|split; reflexivity].
  destruct (cv2_imdecode E data) as [[image|]|e]; try (split; reflexivity).
  destruct (cv2_cvtColor E image) as [rgb|e]; [|split; reflexivity].
  destruct (face_encodings E rgb) as [[|f rest]|e]; try (split; reflexivity).
  apply compare_each_world.
Qed.

(** In real mode the answer does not depend on the world and leaves it
    as it was. *)
Lemma match_response_real_world : forall r tolerance w1 w2,
  fst (match_response E true r reference_encoding tolerance w1)
  = fst (match_response E true r reference_encoding tolerance w2) /\
  snd (match_response E true r reference_encoding tolerance w1) = w1.
Proof.
  intros r tol w1 w2. unfold match_response, try_except.
  destruct (real_match_world r tol w1 w2) as [H1 H2].
  destruct (real_match E r reference_encoding tol w1) as [[a1|e1] w1'];
    destruct (real_match E r reference_encoding tol w2) as [[a2|e2] w2'];
    simpl in *; try discriminate; subst; split; auto.
Qed.

(** In demo mode the answer depends on the world through the next draw
    only. *)
Lemma match_response_demo_draw : forall r tolerance w1 w2,
  random_draws E (rng_pos w1) = random_draws E (rng_pos w2) ->
  fst (match_response E false r reference_encoding tolerance w1)
  = fst (match_response E false r reference_encoding tolerance w2).
Proof.
  intros r tol w1 w2 Hdraw.
  unfold match_response, try_except, demo_match, bind, lift, ret, raise, random_random.
  destruct (content r) as [data|e]; [|reflexivity].
  destruct (Image_open E data) as [img|e]; [|reflexivity].
  destruct (rgb_pixels E img) as [pixels|e]; [|reflexivity].
  destruct reference_encoding as [v|h]; [reflexivity|].
  destruct (_ <? 35)%Z; [reflexivity|].
  rewrite Hdraw. destruct (negb _); reflexivity.
Qed.

End MatcherWorld.

(** C4, as the code has it.  With the face libraries the matcher is a
    function of its input: the same response, reference and tolerance give
    the same verdict and payload whatever the state of the world, which it
    leaves unchanged.  In both modes it returns a verdict and never an
    error, and a body on which its work fails gives [(False, None)]: with
    the face libraries a body that does not decode or shows no face,
    without them a body that does not open as an image.  The stand-in of
    demo mode detects no faces; it is a function of its input and of the
    next number drawn from the random generator. *)
Theorem matcher_determinism :
  forall (E : externals) (reference_encoding : ref_encoding E),
    (forall r tolerance w1 w2,
        fst (match_response E true r reference_encoding tolerance w1)
        = fst (match_response E true r reference_encoding tolerance w2) /\
        snd (match_response E true r reference_encoding tolerance w1) = w1) /\
    (forall avail r tolerance w,
        exists result,
          fst (match_response E avail r reference_encoding tolerance w) = Ok result) /\
    (forall avail r tolerance data w,
        content r = Ok data ->
        match_fails E reference_encoding tolerance data avail ->
        fst (match_response E avail r reference_encoding tolerance w)
        = Ok (false, None)) /\
    (forall r tolerance data w,
        content r = Ok data ->
        (cv2_imdecode E data = Ok None \/
         (exists e, cv2_imdecode E data = Raise e) \/
         (exists image rgb,
             cv2_imdecode E data = Ok (Some image) /\
             cv2_cvtColor E image = Ok rgb /\
             face_encodings E rgb = Ok [])) ->
        fst (match_response E true r reference_encoding tolerance w)
        = Ok (false, None)) /\
    (forall r tolerance data e w,
        content r = Ok data ->
        Image_open E data = Raise e ->
        fst (match_response E false r reference_encoding tolerance w)
        = Ok (false, None)) /\
    (forall r tolerance w1 w2,
        random_draws E (rng_pos w1) = random_draws E (rng_pos w2) ->
        fst (match_response E false r reference_encoding tolerance w1)
        = fst (match_response E false r reference_encoding tolerance w2)).
Proof.
  intros E ref. split; [|split; [|split; [|split; [|split]]]].
  - apply match_response_real_world.
  - intros avail r tol w.
    destruct (match_response_cases E avail r ref tol w) as [w' [_ [H|[d [_ H]]]]];
      rewrite H; eexists; reflexivity.
  - intros avail r tol data w Hc Hf.
    rewrite (match_fails_false E avail ref r tol data w Hc Hf). reflexivity.
  - intros r tol data w Hc Hf.
    rewrite (match_fails_false E true ref r tol data w Hc); [reflexivity|].
    destruct Hf as [H|[[e H]|[image [rgb [H1 [H2 H3]]]]]].
    + apply decode_none. exact H.
    + apply (decode_raises _ _ _ _ e). exact H.
    + apply (no_face _ _ _ _ image rgb); assumption.
  - intros r tol data e w Hc Hf.
    rewrite (match_fails_false E false ref r tol data w Hc); [reflexivity|].
    apply (open_raises _ _ _ _ e). exact Hf.
  - apply match_response_demo_draw.
Qed.

Lemma matcher_determinism_witness :
  fst (match_response Toy.libs true (Response 200 (Ok [x3f; x31])) Toy.selfie 0.6%Q Toy.w0)
  = Ok (false, None) /\
  fst (match_response Toy.libs true (Response 200 (Ok [x2d; x31])) Toy.selfie 0.6%Q Toy.w0)
  = Ok (false, None) /\
  fst (match_response Toy.libs false (Response 200 (Ok [])) Toy.demo_selfie 0.6%Q Toy.w0)
  = Ok (false, None) /\
  fst (match_response Toy.libs false (Response 200 (Ok [x7a; x7a]))
                      (DemoEncoding 0%Z) 0.6%Q {| rng_pos := 1; net_log := [] |})
  = fst (match_response Toy.libs false (Response 200 (Ok [x7a; x7a]))
                        (DemoEncoding 0%Z) 0.6%Q {| rng_pos := 2; net_log := ["m"] |}).
Proof.
  split; [|split; [|split]].
  - apply (proj1 (proj2 (proj2 (matcher_determinism Toy.libs Toy.selfie)))
                 true (Response 200 (Ok [x3f; x31])) 0.6%Q [x3f; x31] Toy.w0).
    + reflexivity.
    + apply decode_none. reflexivity.
  - apply (proj1 (proj2 (proj2 (proj2 (matcher_determinism Toy.libs Toy.selfie))))
                 (Response 200 (Ok [x2d; x31])) 0.6%Q [x2d; x31] Toy.w0).
    + reflexivity.
    + right. right. exists [x2d; x31], [x2d; x31]. repeat split; reflexivity.
  - apply (proj1 (proj2 (proj2 (proj2 (proj2
             (matcher_determinism Toy.libs Toy.demo_selfie)))))
                 (Response 200 (Ok [])) 0.6%Q [] ImageError Toy.w0); reflexivity.
  - apply (proj2 (proj2 (proj2 (proj2 (proj2
             (matcher_determinism Toy.libs (DemoEncoding 0%Z))))))).
    reflexivity.
Defined.

(** The stand-in of demo mode is not a function of its input: asked twice
    about the same body, reference and tolerance, it says yes, then no.
    Nor does it look for faces: the body [-1], in which the face library
    of [Toy] detects no face, matches a selfie of the same pixels. *)
Lemma demo_matcher_not_deterministic :
  (fst (match_response Toy.libs false (Response 200 (Ok [x7a; x7a]))
                       (DemoEncoding 0%Z) 0.6%Q Toy.w0)
   = Ok (true, Some [x7a; x7a]) /\
   fst (match_response Toy.libs false (Response 200 (Ok [x7a; x7a]))
                       (DemoEncoding 0%Z) 0.6%Q
                       (snd (match_response Toy.libs false (Response 200 (Ok [x7a; x7a]))
                                            (DemoEncoding 0%Z) 0.6%Q Toy.w0)))
   = Ok (false, None)) /\
  (face_encodings Toy.libs [x2d; x31] = Ok [] /\
   forall w,
     fst (match_response Toy.libs false (Response 200 (Ok [x2d; x31]))
                         (DemoEncoding 94%Z) 0.6%Q w)
     = Ok (true, Some [x2d; x31])).
Proof. split; [split; reflexivity|]. split; [reflexivity|]. intro w. reflexivity. Qed.

(** ** The archive *)

Lemma append_cancel_r : forall a b t : string,
  (a ++ t)%string = (b ++ t)%string -> a = b.
Proof.
  assert (Hlen : forall a t, String.length (a ++ t) = String.length a + String.length t).
  { intros a t. induction a as [|c a IH]; simpl; [reflexivity|]. rewrite IH. reflexivity. }
  intros a. induction a as [|c a IH]; intros b t H.
  - destruct b as [|c' b]; [reflexivity|].
    apply (f_equal String.length) in H. simpl in H. rewrite Hlen in H. lia.
  - destruct b as [|c' b].
    + apply (f_equal String.length) in H. simpl in H. rewrite Hlen in H. lia.
    + simpl in H. inversion H; subst. f_equal. apply (IH b t). assumption.
Qed.

(** Zeros in front do not change the number that is read. *)
Lemma zeros_value : forall k s d,
  NilEmpty.uint_of_string s = Some d ->
  exists d', NilEmpty.uint_of_string (zeros k ++ s) = Some d' /\
             Nat.of_uint d' = Nat.of_uint d.
Proof.
  intros k s d H. induction k as [|k [d' [IH1 IH2]]]; simpl.
  - exists d. auto.
  - rewrite IH1. simpl. exists (Decimal.D0 d'). split; [reflexivity|].
    rewrite <- IH2. reflexivity.
Qed.

Lemma format_03d_value : forall n,
  option_map Nat.of_uint (NilEmpty.uint_of_string (format_03d n)) = Some n.
Proof.
  intro n. unfold format_03d, zfill.
  destruct (zeros_value (3 - String.length (NilEmpty.string_of_uint (Nat.to_uint n)))
              _ _ (NilEmpty.usu (Nat.to_uint n))) as [d' [H1 H2]].
  rewrite H1. simpl. rewrite H2. f_equal. apply DecimalNat.Unsigned.of_to.
Qed.

Lemma zeros_length : forall k, String.length (zeros k) = k.
Proof. intro k. induction k as [|k IH]; simpl; [reflexivity|]. rewrite IH. reflexivity. Qed.

Lemma append_length : forall a b : string,
  String.length (a ++ b) = String.length a + String.length b.
Proof.
  intros a b. induction a as [|c a IH]; simpl; [reflexivity|]. rewrite IH. reflexivity.
Qed.

Lemma decimal_width_below_1000 : forall n,
  n < 1000 -> String.length (NilEmpty.string_of_uint (Nat.to_uint n)) <= 3.
Proof.
  assert (H : forallb (fun n => String.length (NilEmpty.string_of_uint (Nat.to_uint n)) <=? 3)
                      (seq 0 1000) = true) by (vm_compute; reflexivity).
  intros n Hn. rewrite forallb_forall in H. apply Nat.leb_le. apply H.
  apply in_seq. lia.
Qed.

Lemma format_03d_length : forall n,
  3 <= String.length (format_03d n) /\
  (n < 1000 -> String.length (format_03d n) = 3).
Proof.
  intro n. unfold format_03d, zfill. rewrite append_length, zeros_length.
  split; [lia|]. intro Hn. pose proof (decimal_width_below_1000 n Hn). lia.
Qed.

(** A decimal number of at most two digits is below 100. *)
Lemma short_decimal_small : forall d,
  String.length (NilEmpty.string_of_uint d) <= 2 -> Nat.of_uint d < 100.
Proof.
  intros d H.
  destruct d as [|d|d|d|d|d|d|d|d|d|d]; [vm_compute; lia|..];
    (destruct d as [|d|d|d|d|d|d|d|d|d|d]; [vm_compute; lia|..];
     (destruct d as [|d|d|d|d|d|d|d|d|d|d]; [vm_compute; lia|..]; simpl in H; lia)).
Qed.

(** From 100 on, [format_03d] adds no zero. *)
Lemma format_03d_large : forall n,
  100 <= n -> format_03d n = NilEmpty.string_of_uint (Nat.to_uint n).
Proof.
  intros n Hn. unfold format_03d, zfill.
  destruct (Nat.le_gt_cases (String.length (NilEmpty.string_of_uint (Nat.to_uint n))) 2)
    as [Hshort|Hlong].
  - apply short_decimal_small in Hshort.
    rewrite DecimalNat.Unsigned.of_to in Hshort. lia.
  - replace (3 - String.length (NilEmpty.string_of_uint (Nat.to_uint n))) with 0 by lia.
    reflexivity.
Qed.

(** Below 1000, [format_03d] gives the three digits of the spec. *)
Lemma format_03d_three_digits : forall n,
  n < 1000 -> format_03d n = three_digits n.
Proof.
  assert (H : forallb (fun n => String.eqb (format_03d n) (three_digits n))
                      (seq 0 1000) = true) by (vm_compute; reflexivity).
  intros n Hn. rewrite forallb_forall in H. apply String.eqb_eq. apply H.
  apply in_seq. lia.
Qed.

(** The name that the code gives is the name that the spec gives. *)
Lemma photo_filename_spec : forall i, photo_filename i = spec_member_name (i + 1).
Proof.
  intro i. unfold photo_filename, spec_member_name.
  destruct (Nat.ltb_spec (i + 1) 1000) as [Hlt|Hge].
  - rewrite format_03d_three_digits by exact Hlt. reflexivity.
  - rewrite format_03d_large by lia. reflexivity.
Qed.

Lemma photo_filename_inj : forall i j, photo_filename i = photo_filename j -> i = j.
Proof.
  intros i j H. unfold photo_filename in H. simpl in H.
  inversion H as [H']. apply append_cancel_r in H'.
  pose proof (format_03d_value (i + 1)) as Hi. rewrite H' in Hi.
  rewrite format_03d_value in Hi. inversion Hi. lia.
Qed.

Lemma enumerate_from_fst : forall (A : Type) (l : list A) start,
  map fst (enumerate_from start l) = seq start (List.length l).
Proof.
  intros A l. induction l as [|x l IH]; intro start; simpl; [reflexivity|].
  rewrite IH. reflexivity.
Qed.

Lemma enumerate_from_snd : forall (A : Type) (l : list A) start,
  map snd (enumerate_from start l) = l.
Proof.
  intros A l. induction l as [|x l IH]; intro start; simpl; [reflexivity|].
  rewrite IH. reflexivity.
Qed.

Lemma enumerate_from_nth : forall (A : Type) (l : list A) start i x,
  nth_error l i = Some x -> In (start + i, x) (enumerate_from start l).
Proof.
  intros A l. induction l as [|y l IH]; intros start i x H.
  - destruct i; discriminate.
  - destruct i as [|i]; simpl in *.
    + inversion H; subst. left. f_equal. lia.
    + right. replace (start + S i) with (S start + i) by lia. apply IH. exact H.
Qed.

Lemma find_unique : forall (l : list zip_entry) e,
  In e l -> NoDup (map entry_name l) ->
  find (fun e' => String.eqb (entry_name e') (entry_name e)) l = Some e.
Proof.
  intros l e. induction l as [|x l IH]; intros Hin Hnd; [contradiction|].
  simpl in *. inversion Hnd as [|? ? Hnotin Hnd']; subst.
  destruct (String.eqb_spec (entry_name x) (entry_name e)) as [Heq|Hne].
  - destruct Hin as [->|Hin]; [reflexivity|].
    exfalso. apply Hnotin. rewrite Heq. apply in_map. exact Hin.
  - destruct Hin as [->|Hin]; [congruence|]. apply IH; assumption.
Qed.

Section Archive.

Variable E : externals.

Hypothesis inflate_deflate : forall data, inflate E (deflate E data) = data.
Hypothesis no_write_fault :
  forall entries name data, write_fault E entries name data = false.

Lemma write_photos_deflated : forall items entries,
  write_photos E items {| zip_compression := ZIP_DEFLATED; zip_entries := entries |}
  = Ok {| zip_compression := ZIP_DEFLATED;
          zip_entries := entries ++ map (photo_entry E) items |}.
Proof.
  intros items. induction items as [|[i data] rest IH]; intro entries.
  - simpl. rewrite app_nil_r. reflexivity.
  - cbn [write_photos]. unfold writestr. cbn [zip_entries zip_compression].
    rewrite no_write_fault, IH, <- app_assoc. reflexivity.
Qed.

Lemma create_photos_zip_entries : forall matched_images,
  create_photos_zip E matched_images
  = Some {| zip_compression := ZIP_DEFLATED;
            zip_entries := map (photo_entry E) (enumerate matched_images) |}.
Proof.
  intro bs. unfold create_photos_zip. rewrite write_photos_deflated. reflexivity.
Qed.

Lemma photo_names : forall matched_images,
  map entry_name (map (photo_entry E) (enumerate matched_images))
  = map photo_filename (seq 0 (List.length matched_images)).
Proof.
  intro bs. rewrite map_map. unfold enumerate.
  rewrite <- (enumerate_from_fst _ bs 0), map_map. reflexivity.
Qed.

Lemma photo_names_nodup : forall n, NoDup (map photo_filename (seq 0 n)).
Proof.
  intro n. apply Injective_map_NoDup.
  - intros i j. apply photo_filename_inj.
  - apply seq_NoDup.
Qed.

Lemma extract_photo_entries : forall items,
  map (fun e => (entry_name e, read_entry E e)) (map (photo_entry E) items)
  = map (fun item => (photo_filename (fst item), snd item)) items.
Proof.
  intro items. rewrite map_map. apply map_ext. intros [i data].
  unfold read_entry, photo_entry. simpl. rewrite inflate_deflate. reflexivity.
Qed.

End Archive.

Lemma combine_fst_snd : forall (A B C : Type) (f : A -> C) (l : list (A * B)),
  map (fun item => (f (fst item), snd item)) l
  = combine (map f (map fst l)) (map snd l).
Proof.
  intros A B C f l. induction l as [|[a b] l IH]; simpl; [reflexivity|].
  rewrite IH. reflexivity.
Qed.

Example photo_filename_examples :
  photo_filename 0 = "photo_001.jpg" /\
  photo_filename 1 = "photo_002.jpg" /\
  photo_filename 11 = "photo_012.jpg" /\
  photo_filename 122 = "photo_123.jpg" /\
  photo_filename 999 = "photo_1000.jpg".
Proof. repeat split; reflexivity. Qed.

(** C7. Archive round-trip.  When deflate can be undone and no write
    faults, [create_photos_zip] returns a deflate-compressed archive with
    one member per payload.  The members are named as the spec says, by
    their 1-based position with zeros in front up to three digits
    ([spec_member_name], which is written without [format_03d]): the
    first is [photo_001.jpg], the second [photo_002.jpg].  The names are
    all different, and reading the archive back gives every name with the
    original bytes, in order. *)
Theorem archive_round_trip :
  forall (E : externals) (matched_images : list bytes),
    (forall data, inflate E (deflate E data) = data) ->
    (forall entries name data, write_fault E entries name data = false) ->
    exists zip_buffer,
      create_photos_zip E matched_images = Some zip_buffer /\
      zip_compression zip_buffer = ZIP_DEFLATED /\
      Forall (fun e => entry_method e = ZIP_DEFLATED) (zip_entries zip_buffer) /\
      List.length (zip_entries zip_buffer) = List.length matched_images /\
      namelist zip_buffer = map spec_member_name (seq 1 (List.length matched_images)) /\
      NoDup (namelist zip_buffer) /\
      extract_all E zip_buffer = combine (namelist zip_buffer) matched_images /\
      (forall i data,
          nth_error matched_images i = Some data ->
          nth_error (namelist zip_buffer) i = Some (spec_member_name (i + 1)) /\
          zip_read E zip_buffer (spec_member_name (i + 1)) = Some data) /\
      (forall b1 b2,
          matched_images = [b1; b2] ->
          extract_all E zip_buffer = [("photo_001.jpg", b1); ("photo_002.jpg", b2)]) /\
      (forall b1 rest,
          matched_images = b1 :: rest ->
          zip_read E zip_buffer "photo_001.jpg" = Some b1).
Proof.
  intros E bs Hcodec Hfault.
  exists {| zip_compression := ZIP_DEFLATED;
            zip_entries := map (photo_entry E) (enumerate bs) |}.
  split; [apply create_photos_zip_entries; assumption|].
  split; [reflexivity|].
  split; [apply Forall_forall; intros e He; apply in_map_iff in He;
          destruct He as [item [<- _]]; reflexivity|].
  split; [cbn [zip_entries]; rewrite length_map; unfold enumerate;
          rewrite <- (length_map fst), enumerate_from_fst; apply length_seq|].
  assert (Hnames : namelist {| zip_compression := ZIP_DEFLATED;
                               zip_entries := map (photo_entry E) (enumerate bs) |}
                   = map photo_filename (seq 0 (List.length bs))).
  { unfold namelist. cbn [zip_entries]. apply photo_names. }
  assert (Hspec : namelist {| zip_compression := ZIP_DEFLATED;
                              zip_entries := map (photo_entry E) (enumerate bs) |}
                  = map spec_member_name (seq 1 (List.length bs))).
  { rewrite Hnames, <- seq_shift, map_map. apply map_ext. intro i.
    rewrite photo_filename_spec, Nat.add_1_r. reflexivity. }
  assert (Hextract : extract_all E {| zip_compression := ZIP_DEFLATED;
                                      zip_entries := map (photo_entry E) (enumerate bs) |}
                     = combine (map spec_member_name (seq 1 (List.length bs))) bs).
  { rewrite <- Hspec, Hnames. unfold extract_all. cbn [zip_entries].
    rewrite (extract_photo_entries E Hcodec), combine_fst_snd.
    unfold enumerate. rewrite enumerate_from_fst, enumerate_from_snd. reflexivity. }
  assert (Hread : forall i data,
             nth_error bs i = Some data ->
             zip_read E {| zip_compression := ZIP_DEFLATED;
                           zip_entries := map (photo_entry E) (enumerate bs) |}
                      (spec_member_name (i + 1)) = Some data).
  { intros i data Hnth. unfold zip_read. cbn [zip_entries].
    rewrite <- photo_filename_spec.
    change (photo_filename i) with (entry_name (photo_entry E (i, data))).
    rewrite find_unique.
    - unfold read_entry, photo_entry. simpl. rewrite Hcodec. reflexivity.
    - apply -> in_rev. apply in_map. apply (enumerate_from_nth _ bs 0 i data Hnth).
    - rewrite map_rev. apply NoDup_rev. rewrite photo_names. apply photo_names_nodup. }
  split; [exact Hspec|].
  split; [rewrite Hnames; apply photo_names_nodup|].
  split; [rewrite Hextract, Hspec; reflexivity|].
  split.
  { intros i data Hnth. split; [|apply Hread; exact Hnth].
    rewrite Hspec. rewrite nth_error_map, nth_error_seq.
    assert (Hi : i < List.length bs) by (apply nth_error_Some; congruence).
    apply Nat.ltb_lt in Hi. rewrite Hi. cbn [option_map]. f_equal. f_equal. lia. }
  split.
  { intros b1 b2 Hbs. rewrite Hextract, Hbs. reflexivity. }
  intros b1 rest Hbs. apply (Hread 0 b1). rewrite Hbs. reflexivity.
Qed.

Lemma archive_round_trip_witness :
  exists zip_buffer,
    create_photos_zip Toy.libs [[x61; x62]; [x63]] = Some zip_buffer /\
    zip_compression zip_buffer = ZIP_DEFLATED /\
    namelist zip_buffer = ["photo_001.jpg"; "photo_002.jpg"] /\
    extract_all Toy.libs zip_buffer
    = [("photo_001.jpg", [x61; x62]); ("photo_002.jpg", [x63])] /\
    zip_read Toy.libs zip_buffer "photo_001.jpg" = Some [x61; x62].
Proof.
  destruct (archive_round_trip Toy.libs [[x61; x62]; [x63]])
    as [z [Hz [Hc [_ [_ [Hn [_ [_ [_ [Htwo Hone]]]]]]]]]].
  - intro data. reflexivity.
  - intros entries name data. reflexivity.
  - exists z. split; [exact Hz|]. split; [exact Hc|]. split; [exact Hn|].
    split; [apply Htwo; reflexivity|].
    apply (Hone [x61; x62] [[x63]]). reflexivity.
Defined.

(** What the archive of two payloads holds when it is read back. *)
Example archive_of_two :
  option_map (extract_all Toy.libs) (create_photos_zip Toy.libs [[x61; x62]; [x63]])
  = Some [("photo_001.jpg", [x61; x62]); ("photo_002.jpg", [x63])].
Proof. reflexivity. Qed.

(** C8. The empty archive.  Given no payload, [create_photos_zip] does not
    fail, whatever the codec and whatever writes would fault: it returns a
    deflate archive without members. *)
Theorem empty_archive :
  forall E : externals,
    exists zip_buffer,
      create_photos_zip E [] = Some zip_buffer /\
      zip_compression zip_buffer = ZIP_DEFLATED /\
      zip_entries zip_buffer = [] /\
      namelist zip_buffer = [] /\
      extract_all E zip_buffer = [].
Proof.
  intro E. exists {| zip_compression := ZIP_DEFLATED; zip_entries := [] |}.
  repeat split.
Qed.

(** Even when every write would fault, the empty archive is built. *)
Example empty_archive_despite_faults :
  create_photos_zip
    (Externals bytes Z bytes Toy.http Toy.cv2_imdecode (fun image => Ok image)
               Toy.face_encodings (fun known candidate _ => Ok (Z.eqb known candidate))
               Toy.Image_open Toy.rgb_pixels Toy.hash_str Toy.random_draws
               Toy.findall_file_ids Toy.deflate Toy.inflate (fun _ _ _ => true))
    []
  = Some {| zip_compression := ZIP_DEFLATED; zip_entries := [] |}.
Proof. reflexivity. Qed.

(** ** The handler as shipped *)

Section Shipped.

Variable E : externals.
Variable avail : bool.
Variable reference_encoding : ref_encoding E.

(** The listing never raises and is cut to the limit. *)
Lemma get_drive_images_bound : forall folder_id max_images w,
  exists image_urls w',
    get_drive_images E folder_id max_images w = (Ok image_urls, w') /\
    List.length image_urls <= max_images.
Proof.
  intros folder mx w. unfold get_drive_images, try_except, bind, lift, ret. simpl.
  destruct (http E _ 10) as [r|e]; [|eexists _, _; split; [reflexivity|simpl; lia]].
  unfold raise_for_status.
  destruct ((400 <=? status_code r) && (status_code r <? 600))%Z;
    [eexists _, _; split; [reflexivity|simpl; lia]|].
  unfold ret. destruct (content r) as [body|e];
    [|eexists _, _; split; [reflexivity|simpl; lia]].
  eexists _, _. split; [reflexivity|]. apply firstn_le_length.
Qed.

End Shipped.

(** C10. The program as shipped.  [process_photos] lists the folder with
    the default limit, so the listing it scans has at most 50 candidates.
    For such a listing the limit is the number of candidates (the cap of
    60 does not bind and the tier above 100 is not selected), the
    tolerance is 0.6, the tests [total_images > 50] and
    [total_images > 100] of the two early exits are false, and the scan
    examines every candidate without leaving its loop early. *)
Theorem shipped_scan_is_small :
  forall (E : externals) (avail : bool) (reference_encoding : ref_encoding E)
         (folder_id : string) (w : world),
    exists image_urls w1,
      get_drive_images E folder_id 50 w = (Ok image_urls, w1) /\
      process_photos E avail folder_id reference_encoding w
      = try_except (process_images E avail reference_encoding image_urls)
                   (fun _ => ret (JsonError 500
                       "An error occurred while processing your request")) w1 /\
      List.length image_urls <= 50 /\
      smart_limits (List.length image_urls) = (List.length image_urls, 0.6%Q) /\
      (50 <? List.length image_urls) = false /\
      (100 <? List.length image_urls) = false /\
      forall w2,
        exists s w3,
          scan_images E avail reference_encoding image_urls w2 = (Ok (s, NoBreak), w3) /\
          processed_count s = List.length image_urls /\
          fetched_since w2 w3 = image_urls.
Proof.
  intros E avail ref folder w.
  destruct (get_drive_images_bound E folder 50 w) as [urls [w1 [Hget Hlen]]].
  exists urls, w1. split; [exact Hget|].
  split; [unfold process_photos, try_except, bind; rewrite Hget; reflexivity|].
  split; [exact Hlen|].
  split.
  { pose proof (max_images_small _ Hlen) as Hm.
    pose proof (face_tolerance_small (List.length urls) ltac:(lia)) as Ht.
    unfold max_images_of, face_tolerance_of in Hm, Ht.
    destruct (smart_limits (List.length urls)) as [m t]. simpl in Hm, Ht.
    subst. reflexivity. }
  split; [apply Nat.ltb_ge; exact Hlen|].
  split; [apply Nat.ltb_ge; lia|].
  intro w2. apply scan_images_small. exact Hlen.
Qed.

(** A folder page with more than 50 file ids is listed as 50 candidates. *)
Example listing_is_cut :
  List.length (Toy.findall_file_ids
                 "https://drive.google.com/drive/folders/x") = 80 /\
  option_map (@List.length string)
             (match fst (get_drive_images Toy.libs "x" 50 Toy.w0) with
              | Ok image_urls => Some image_urls
              | Raise _ => None
              end) = Some 50.
Proof. split; reflexivity. Qed.

(** * Further properties of the code *)

(** ** The folder listing *)

Section Listing.

Variable E : externals.

(** The outcome of [get_drive_images] in terms of the one request it
    makes: the world afterwards, and the value, which is the empty list
    unless the page arrived with a good status and a readable body. *)
Lemma get_drive_images_run : forall folder_id max_images w,
  get_drive_images E folder_id max_images w
  = (Ok match http E ("https://drive.google.com/drive/folders/" ++ folder_id)%string 10 with
        | Ok r =>
            if ((400 <=? status_code r) && (status_code r <? 600))%Z then []
            else match content r with
                 | Ok body =>
                     firstn max_images
                       (map direct_url
                          (filter (fun file_id => 25 <=? String.length file_id)
                             (firstn max_images
                                (findall_file_ids E (string_of_list_byte body)))))
                 | Raise _ => []
                 end
        | Raise _ => []
        end,
     {| rng_pos := rng_pos w;
        net_log := net_log w
                   ++ [("https://drive.google.com/drive/folders/" ++ folder_id)%string] |}).
Proof.
  intros folder mx w. unfold get_drive_images, try_except, bind, lift, ret. simpl.
  destruct (http E _ 10) as [r|e]; [|reflexivity].
  unfold raise_for_status.
  destruct ((400 <=? status_code r) && (status_code r <? 600))%Z; [reflexivity|].
  unfold ret. destruct (content r) as [body|e]; reflexivity.
Qed.

Lemma filter_all_true : forall (A : Type) (f : A -> bool) (l : list A),
  (forall x, In x l -> f x = true) -> filter f l = l.
Proof.
  intros A f l. induction l as [|x l IH]; intro H; [reflexivity|].
  simpl. rewrite (H x (or_introl eq_refl)), IH; [reflexivity|].
  intros y Hy. apply H. right. exact Hy.
Qed.

End Listing.

(** X1. [get_drive_images] never raises and makes exactly one request, for
    the folder page; when that request fails, answers with a status from
    400 to 599 or its body cannot be read, the listing is empty. *)
Theorem listing_one_request :
  forall (E : externals) (folder_id : string) (max_images : nat) (w : world),
    exists image_urls,
      get_drive_images E folder_id max_images w
      = (Ok image_urls,
         {| rng_pos := rng_pos w;
            net_log := net_log w
                       ++ [("https://drive.google.com/drive/folders/" ++ folder_id)%string] |})
      /\
      (((exists e,
            http E ("https://drive.google.com/drive/folders/" ++ folder_id)%string 10
            = Raise e) \/
        (exists r,
            http E ("https://drive.google.com/drive/folders/" ++ folder_id)%string 10
            = Ok r /\
            ((400 <= status_code r < 600)%Z \/ exists e, content r = Raise e))) ->
       image_urls = []).
Proof.
  intros E folder mx w. eexists. split; [apply get_drive_images_run|].
  intros [[e H]|[r [H [Hs|[e Hc]]]]]; rewrite H; [reflexivity| |].
  - replace ((400 <=? status_code r) && (status_code r <? 600))%Z with true; [reflexivity|].
    symmetry. apply andb_true_intro. split; [apply Z.leb_le|apply Z.ltb_lt]; lia.
  - rewrite Hc. destruct ((400 <=? status_code r) && (status_code r <? 600))%Z; reflexivity.
Qed.

Lemma listing_one_request_witness :
  get_drive_images Offline.libs "abc" 50 Toy.w0
  = (Ok [], {| rng_pos := 0; net_log := ["https://drive.google.com/drive/folders/abc"] |}).
Proof.
  destruct (listing_one_request Offline.libs "abc" 50 Toy.w0) as [urls [Hrun Hfail]].
  rewrite Hrun, Hfail; [reflexivity|].
  left. exists RequestException. reflexivity.
Defined.

(** The listing as a function of the page. *)
Lemma listing_of_page_run :
  forall (E : externals) (folder_id : string) (max_images : nat) (w : world)
         (r : response) (body : bytes),
    http E ("https://drive.google.com/drive/folders/" ++ folder_id)%string 10 = Ok r ->
    ~ (400 <= status_code r < 600)%Z ->
    content r = Ok body ->
    fst (get_drive_images E folder_id max_images w)
    = Ok (map direct_url
              (filter (fun file_id => 25 <=? String.length file_id)
                      (firstn max_images
                              (findall_file_ids E (string_of_list_byte body))))) /\
    ((forall file_id,
         In file_id (findall_file_ids E (string_of_list_byte body)) ->
         25 <= String.length file_id) ->
     fst (get_drive_images E folder_id max_images w)
     = Ok (map direct_url
               (firstn max_images (findall_file_ids E (string_of_list_byte body))))).
Proof.
  intros E folder mx w r body Hh Hs Hc.
  assert (Hrun : fst (get_drive_images E folder mx w)
                 = Ok (map direct_url
                           (filter (fun file_id => 25 <=? String.length file_id)
                                   (firstn mx (findall_file_ids E
                                                 (string_of_list_byte body)))))).
  { rewrite get_drive_images_run, Hh, Hc. cbn [fst].
    replace ((400 <=? status_code r) && (status_code r <? 600))%Z with false.
    - f_equal. apply firstn_all2. rewrite length_map.
      etransitivity; [apply filter_length_le|]. apply firstn_le_length.
    - symmetry. apply andb_false_iff.
      destruct (Z.leb_spec 400 (status_code r)); [|left; reflexivity].
      destruct (Z.ltb_spec (status_code r) 600); [|right; reflexivity].
      exfalso. apply Hs. lia. }
  split; [exact Hrun|].
  intro Hlong. rewrite Hrun. do 2 f_equal. apply filter_all_true.
  intros id Hin. apply Nat.leb_le. apply Hlong. exact (firstn_incl _ _ _ _ Hin).
Qed.

(** X2. When the folder page arrives, the listing is the download URLs of
    the first [max_images] ids found on it that have 25 characters or
    more, in page order and with repetitions kept (the second slice
    changes nothing); when every id found has 25 characters or more, as
    the pattern ensures, these are the first [max_images] ids. *)
Theorem listing_of_page :
  forall (E : externals) (folder_id : string) (max_images : nat) (w : world)
         (r : response) (body : bytes),
    http E ("https://drive.google.com/drive/folders/" ++ folder_id)%string 10 = Ok r ->
    ~ (400 <= status_code r < 600)%Z ->
    content r = Ok body ->
    fst (get_drive_images E folder_id max_images w)
    = Ok (map direct_url
              (filter (fun file_id => 25 <=? String.length file_id)
                      (firstn max_images
                              (findall_file_ids E (string_of_list_byte body))))) /\
    ((forall file_id,
         In file_id (findall_file_ids E (string_of_list_byte body)) ->
         25 <= String.length file_id) ->
     fst (get_drive_images E folder_id max_images w)
     = Ok (map direct_url
               (firstn max_images (findall_file_ids E (string_of_list_byte body))))).
Proof.
  intros E folder mx w r body. apply listing_of_page_run.
Qed.

Lemma listing_of_page_witness :
  fst (get_drive_images Toy.libs "x" 50 Toy.w0)
  = Ok (map direct_url (repeat Toy.file_id 50)).
Proof.
  refine (eq_trans
            (proj2 (listing_of_page Toy.libs "x" 50 Toy.w0
                      (Response 200
                         (Ok (list_byte_of_string
                                "https://drive.google.com/drive/folders/x")))
                      (list_byte_of_string "https://drive.google.com/drive/folders/x")
                      eq_refl _ eq_refl) _) _).
  - simpl. lia.
  - intros id Hin. apply repeat_spec in Hin. subst id. simpl. lia.
  - reflexivity.
Defined.

(** ** What a verdict rests on *)

Section Verdicts.

Variable E : externals.

Lemma status_test_false : forall r,
  ~ (400 <= status_code r < 600)%Z ->
  ((400 <=? status_code r) && (status_code r <? 600))%Z = false.
Proof.
  intros r Hs. apply andb_false_iff.
  destruct (Z.leb_spec 400 (status_code r)); [|left; reflexivity].
  destruct (Z.ltb_spec (status_code r) 600); [|right; reflexivity].
  exfalso. apply Hs. lia.
Qed.

Lemma status_test_true : forall r,
  ((400 <=? status_code r) && (status_code r <? 600))%Z = true ->
  (400 <= status_code r < 600)%Z.
Proof.
  intros r H. apply andb_prop in H. destruct H as [H1 H2].
  apply Z.leb_le in H1. apply Z.ltb_lt in H2. lia.
Qed.

(** [check_face_match] is the request followed by [match_response] on a
    response with a good status, and [(False, None)] otherwise. *)
Lemma check_face_match_run : forall avail url reference_encoding timeout tolerance w,
  check_face_match E avail url reference_encoding timeout tolerance w
  = match http E url timeout with
    | Ok r =>
        if ((400 <=? status_code r) && (status_code r <? 600))%Z
        then (Ok (false, None),
              {| rng_pos := rng_pos w; net_log := net_log w ++ [url] |})
        else match_response E avail r reference_encoding tolerance
                            {| rng_pos := rng_pos w; net_log := net_log w ++ [url] |}
    | Raise _ => (Ok (false, None),
                  {| rng_pos := rng_pos w; net_log := net_log w ++ [url] |})
    end.
Proof.
  intros avail url ref t tol w. unfold check_face_match, try_except, bind. simpl.
  destruct (http E url t) as [r|e]; [|reflexivity].
  unfold raise_for_status.
  destruct ((400 <=? status_code r) && (status_code r <? 600))%Z; [reflexivity|].
  unfold ret.
  destruct (match_response_cases E avail r ref tol
              {| rng_pos := rng_pos w; net_log := net_log w ++ [url] |})
    as [w' [_ [H|[d [_ H]]]]]; rewrite H; reflexivity.
Qed.

Lemma real_match_faces : forall r v tolerance data image rgb faces w,
  content r = Ok data ->
  cv2_imdecode E data = Ok (Some image) ->
  cv2_cvtColor E image = Ok rgb ->
  face_encodings E rgb = Ok faces ->
  real_match E r (RealEncoding v) tolerance w
  = compare_each E (RealEncoding v) tolerance data faces w.
Proof.
  intros r v tol data image rgb faces w Hc Hd Hv Hf.
  unfold real_match, bind, lift. rewrite Hc, Hd, Hv, Hf.
  destruct faces; reflexivity.
Qed.

Lemma compare_each_first_true : forall v tolerance data before f rest w,
  (forall g, In g before -> compare_faces E v g tolerance = Ok false) ->
  compare_faces E v f tolerance = Ok true ->
  compare_each E (RealEncoding v) tolerance data (before ++ f :: rest) w
  = (Ok (true, Some data), w).
Proof.
  intros v tol data before f rest w Hbefore Hf.
  induction before as [|g before IH]; cbn [app compare_each]; unfold bind, lift.
  - rewrite Hf. reflexivity.
  - rewrite (Hbefore g (or_introl eq_refl)). apply IH.
    intros g' Hg'. apply Hbefore. right. exact Hg'.
Qed.

Lemma compare_each_all_false : forall v tolerance data faces w,
  (forall g, In g faces -> compare_faces E v g tolerance = Ok false) ->
  compare_each E (RealEncoding v) tolerance data faces w = (Ok (false, None), w).
Proof.
  intros v tol data faces w Hall.
  induction faces as [|g faces IH]; cbn [compare_each]; [reflexivity|].
  unfold bind, lift. rewrite (Hall g (or_introl eq_refl)). apply IH.
  intros g' Hg'. apply Hall. right. exact Hg'.
Qed.

End Verdicts.

(** X3. A verdict of [check_face_match] is either [(False, None)] or
    [True] with a payload, and the payload of a [True] is the body of the
    response fetched from the candidate's URL, whose status is outside
    400..599. *)
Theorem true_carries_the_download :
  forall (E : externals) (avail : bool) (url : string)
         (reference_encoding : ref_encoding E) (timeout : Z) (tolerance : Q)
         (w : world) (is_match : bool) (image_data : option bytes),
    fst (check_face_match E avail url reference_encoding timeout tolerance w)
    = Ok (is_match, image_data) ->
    (is_match = false /\ image_data = None) \/
    (is_match = true /\
     exists r data,
       image_data = Some data /\
       http E url timeout = Ok r /\
       ~ (400 <= status_code r < 600)%Z /\
       content r = Ok data).
Proof.
  intros E avail url ref t tol w b p H.
  rewrite check_face_match_run in H.
  destruct (http E url t) as [r|e]; [|inversion H; left; auto].
  destruct ((400 <=? status_code r) && (status_code r <? 600))%Z eqn:Hs;
    [inversion H; left; auto|].
  destruct (match_response_cases E avail r ref tol
              {| rng_pos := rng_pos w; net_log := net_log w ++ [url] |})
    as [w' [_ [Hm|[d [Hc Hm]]]]]; rewrite Hm in H; inversion H; subst.
  - left. auto.
  - right. split; [reflexivity|]. exists r, d. repeat split; auto.
    intro Hbad. rewrite (proj2 (andb_true_iff _ _)) in Hs; [discriminate|].
    split; [apply Z.leb_le|apply Z.ltb_lt]; lia.
Qed.

Lemma true_carries_the_download_witness :
  exists r data,
    Some (list_byte_of_string "m1") = Some data /\
    http Toy.libs "m1" 15 = Ok r /\
    ~ (400 <= status_code r < 600)%Z /\
    content r = Ok data.
Proof.
  destruct (true_carries_the_download Toy.libs true "m1" Toy.selfie 15 0.6%Q Toy.w0
              true (Some (list_byte_of_string "m1")) eq_refl) as [[H _]|[_ H]].
  - discriminate H.
  - exact H.
Defined.

(** X4. With the face libraries, an image with several faces matches as
    soon as one of them compares equal to the reference, provided the
    faces before it compared unequal without error; and it does not match
    when every face compares unequal.  Neither case touches the world. *)
Theorem any_face_matches :
  forall (E : externals) (r : response) (v : face_vec E) (tolerance : Q)
         (data : bytes) (image rgb : cv_image E) (faces : list (face_vec E)) (w : world),
    content r = Ok data ->
    cv2_imdecode E data = Ok (Some image) ->
    cv2_cvtColor E image = Ok rgb ->
    face_encodings E rgb = Ok faces ->
    (forall before f rest,
        faces = before ++ f :: rest ->
        (forall g, In g before -> compare_faces E v g tolerance = Ok false) ->
        compare_faces E v f tolerance = Ok true ->
        match_response E true r (RealEncoding v) tolerance w
        = (Ok (true, Some data), w)) /\
    ((forall g, In g faces -> compare_faces E v g tolerance = Ok false) ->
     match_response E true r (RealEncoding v) tolerance w = (Ok (false, None), w)).
Proof.
  intros E r v tol data image rgb faces w Hc Hd Hv Hf.
  unfold match_response, try_except.
  rewrite (real_match_faces E r v tol data image rgb faces w Hc Hd Hv Hf).
  split.
  - intros before f rest -> Hbefore Htrue.
    rewrite (compare_each_first_true E v tol data before f rest w Hbefore Htrue).
    reflexivity.
  - intro Hall. rewrite (compare_each_all_false E v tol data faces w Hall). reflexivity.
Qed.

Lemma any_face_matches_witness :
  match_response Toy.libs true (Response 200 (Ok [x61; x6d; x62])) Toy.selfie 0.6%Q Toy.w0
  = (Ok (true, Some [x61; x6d; x62]), Toy.w0) /\
  match_response Toy.libs true (Response 200 (Ok [x61; x62])) Toy.selfie 0.6%Q Toy.w0
  = (Ok (false, None), Toy.w0).
Proof.
  split.
  - apply (proj1 (any_face_matches Toy.libs (Response 200 (Ok [x61; x6d; x62]))
                    109%Z 0.6%Q [x61; x6d; x62] [x61; x6d; x62] [x61; x6d; x62]
                    [97%Z; 109%Z; 98%Z] Toy.w0 eq_refl eq_refl eq_refl eq_refl)
                 [97%Z] 109%Z [98%Z] eq_refl).
    + intros g [<-|[]]. reflexivity.
    + reflexivity.
  - apply (proj2 (any_face_matches Toy.libs (Response 200 (Ok [x61; x62]))
                    109%Z 0.6%Q [x61; x62] [x61; x62] [x61; x62]
                    [97%Z; 98%Z] Toy.w0 eq_refl eq_refl eq_refl eq_refl)).
    intros g [<-|[<-|[]]]; reflexivity.
Defined.

(** X5. Without the face libraries, a candidate whose similarity score is
    below 35 matches without a number being drawn; otherwise exactly one
    number is drawn and the candidate matches when it is below 0.25.  The
    score is the distance of the two hashes modulo 100. *)
Theorem demo_verdict :
  forall (E : externals) (r : response) (reference_hash : Z) (tolerance : Q)
         (data : bytes) (img : pil_image E) (pixels : list pixel) (w : world),
    content r = Ok data ->
    Image_open E data = Ok img ->
    rgb_pixels E img = Ok pixels ->
    let similarity_score :=
      (Z.abs (hash_str E (firstn 100 pixels) mod 1000000 - reference_hash) mod 100)%Z in
    ((similarity_score < 35)%Z ->
     match_response E false r (DemoEncoding reference_hash) tolerance w
     = (Ok (true, Some data), w)) /\
    ((35 <= similarity_score)%Z ->
     match_response E false r (DemoEncoding reference_hash) tolerance w
     = (Ok (if Qle_bool 0.25 (random_draws E (rng_pos w))
            then (false, None) else (true, Some data)),
        {| rng_pos := S (rng_pos w); net_log := net_log w |})).
Proof.
  intros E r h tol data img pixels w Hc Ho Hp score.
  unfold match_response, try_except, demo_match, bind, lift, ret, random_random.
  rewrite Hc, Ho, Hp. fold score.
  split; intro Hs.
  - destruct (Z.ltb_spec score 35); [reflexivity|lia].
  - destruct (Z.ltb_spec score 35); [lia|].
    destruct (Qle_bool 0.25 (random_draws E (rng_pos w))); reflexivity.
Qed.

Lemma demo_verdict_witness :
  match_response Toy.libs false (Response 200 (Ok [x7a; x7a])) (DemoEncoding 230%Z)
                 0.6%Q {| rng_pos := 5; net_log := [] |}
  = (Ok (true, Some [x7a; x7a]), {| rng_pos := 5; net_log := [] |}) /\
  match_response Toy.libs false (Response 200 (Ok [x7a; x7a])) (DemoEncoding 0%Z)
                 0.6%Q {| rng_pos := 5; net_log := [] |}
  = (Ok (false, None), {| rng_pos := 6; net_log := [] |}).
Proof.
  split.
  - apply (proj1 (demo_verdict Toy.libs (Response 200 (Ok [x7a; x7a])) 230%Z 0.6%Q
                    [x7a; x7a] [x7a; x7a] [(122, 122, 122); (122, 122, 122)]%Z
                    {| rng_pos := 5; net_log := [] |} eq_refl eq_refl eq_refl)).
    vm_compute. reflexivity.
  - apply (proj2 (demo_verdict Toy.libs (Response 200 (Ok [x7a; x7a])) 0%Z 0.6%Q
                    [x7a; x7a] [x7a; x7a] [(122, 122, 122); (122, 122, 122)]%Z
                    {| rng_pos := 5; net_log := [] |} eq_refl eq_refl eq_refl)).
    vm_compute. discriminate.
Defined.

(** ** Bounds on a scan *)

Lemma max_images_le_80 : forall total_images, max_images_of total_images <= 80.
Proof.
  intro n. unfold max_images_of, smart_limits.
  destruct (Nat.leb_spec n 30); [simpl; lia|].
  destruct (Nat.leb_spec n 100); simpl; lia.
Qed.

Section Drawn.

Variable E : externals.
Variable reference_encoding : ref_encoding E.

(** A call of the matcher draws at most one number, and none with the
    face libraries. *)
Lemma match_response_rng : forall avail r tolerance w,
  rng_pos w <= rng_pos (snd (match_response E avail r reference_encoding tolerance w))
  <= S (rng_pos w) /\
  (avail = true ->
   rng_pos (snd (match_response E avail r reference_encoding tolerance w)) = rng_pos w).
Proof.
  intros avail r tol w. destruct avail.
  - destruct (match_response_real_world E reference_encoding r tol w w) as [_ H].
    rewrite H. split; [lia|reflexivity].
  - split; [|discriminate].
    unfold match_response, try_except, demo_match, bind, lift, ret, raise, random_random.
    destruct (content r) as [data|e]; [|simpl; lia].
    destruct (Image_open E data) as [img|e]; [|simpl; lia].
    destruct (rgb_pixels E img) as [pixels|e]; [|simpl; lia].
    destruct reference_encoding as [v|h]; [simpl; lia|].
    destruct (_ <? 35)%Z; [simpl; lia|].
    destruct (negb _); simpl; lia.
Qed.

Lemma check_face_match_rng : forall avail url timeout tolerance w,
  rng_pos w
  <= rng_pos (snd (check_face_match E avail url reference_encoding timeout tolerance w))
  <= S (rng_pos w) /\
  (avail = true ->
   rng_pos (snd (check_face_match E avail url reference_encoding timeout tolerance w))
   = rng_pos w).
Proof.
  intros avail url t tol w. rewrite check_face_match_run.
  destruct (http E url t) as [r|e]; [|simpl; split; [lia|reflexivity]].
  destruct ((400 <=? status_code r) && (status_code r <? 600))%Z;
    [simpl; split; [lia|reflexivity]|].
  apply (match_response_rng avail r tol
           {| rng_pos := rng_pos w; net_log := net_log w ++ [url] |}).
Qed.

(** Along the loop of a scan the numbers drawn are at most as many as the
    candidates examined, and none with the face libraries. *)
Lemma scan_reach_rng : forall avail image_urls w0 c,
  scan_reach E avail reference_encoding image_urls w0 c ->
  rng_pos w0 <= rng_pos (outside c) <= rng_pos w0 + processed_count (locals c) /\
  (avail = true -> rng_pos (outside c) = rng_pos w0).
Proof.
  intros avail urls w0 c H. induction H as [|c c' Hreach IH Hstep].
  - simpl. split; [lia|reflexivity].
  - pose proof (scan_reach_inv E avail reference_encoding urls w0 c Hreach) as Hinv.
    destruct Hstep as [[i url] rest s w s' e w' Hbody].
    destruct Hinv as [k [Hrem [Hk _]]]. cbn [remaining locals outside] in *.
    assert (Hmax : max_images_of (List.length urls) <> 0).
    { intro Hz. rewrite Hz in Hrem. simpl in Hrem. rewrite skipn_nil in Hrem.
      discriminate. }
    destruct (loop_body_step E avail reference_encoding (List.length urls) _
                (face_tolerance_of (List.length urls)) i url s w Hmax)
      as [result [w'' [Hc [_ [_ Heq]]]]].
    rewrite Heq in Hbody. inversion Hbody; subst s' e w''. clear Hbody Heq.
    pose proof (check_face_match_rng avail url 15
                  (face_tolerance_of (List.length urls)) w) as Hrng.
    rewrite Hc in Hrng. cbn [snd] in Hrng. cbn [processed_count].
    destruct IH as [IH1 IH2]. destruct Hrng as [Hr1 Hr2].
    split; [lia|]. intro Ha. rewrite (Hr2 Ha). apply IH2. exact Ha.
Qed.

End Drawn.

(** The bounds that the invariant gives for the result of a scan. *)
Lemma scan_images_bounds :
  forall (E : externals) (avail : bool) (reference_encoding : ref_encoding E)
         (image_urls : list string) (w : world),
    exists s e w',
      scan_images E avail reference_encoding image_urls w = (Ok (s, e), w') /\
      processed_count s <= 80 /\
      processed_count s <= List.length image_urls /\
      List.length (fetched_since w w') = processed_count s /\
      List.length (matched_images s) <= processed_count s /\
      List.length (matched_images s) <= 50 /\
      (50 < List.length image_urls -> List.length (matched_images s) <= 15).
Proof.
  intros E avail ref urls w.
  destruct (scan_images_reach E avail ref urls w) as [s [e [w' [rest [Hrun [Hreach _]]]]]].
  destruct (scan_reach_inv E avail ref urls w _ Hreach)
    as [k [Hrem [Hk [Hp [Hlog [Hlen Hexit]]]]]].
  cbn [remaining locals outside left_by] in *.
  rewrite slice_length in Hk.
  pose proof (max_images_le_80 (List.length urls)) as H80.
  pose proof (max_images_le_total (List.length urls)) as Htot.
  exists s, e, w'. split; [exact Hrun|].
  split; [lia|]. split; [lia|].
  split.
  { rewrite (fetched_since_app w w' _ Hlog), length_firstn, slice_length. lia. }
  split; [lia|].
  assert (Hbig : 50 < List.length urls -> List.length (matched_images s) <= 15).
  { intro Hb. destruct e; [specialize (Hexit Hb); lia|lia|contradiction]. }
  split; [|exact Hbig].
  destruct (Nat.le_gt_cases (List.length urls) 50); [lia|].
  specialize (Hbig ltac:(assumption)). lia.
Qed.

(** X6. Whatever the folder and the candidates, a scan returns having
    examined at most 80 candidates, with one request for each; it holds
    at most as many matches as it examined, at most 50 in all, and at
    most 15 in a folder of more than 50. *)
Theorem scan_is_bounded :
  forall (E : externals) (avail : bool) (reference_encoding : ref_encoding E)
         (image_urls : list string) (w : world),
    exists s e w',
      scan_images E avail reference_encoding image_urls w = (Ok (s, e), w') /\
      processed_count s <= 80 /\
      processed_count s <= List.length image_urls /\
      List.length (fetched_since w w') = processed_count s /\
      List.length (matched_images s) <= processed_count s /\
      List.length (matched_images s) <= 50 /\
      (50 < List.length image_urls -> List.length (matched_images s) <= 15).
Proof.
  intros E avail ref urls w. apply scan_images_bounds.
Qed.

(** X7. A scan with the face libraries leaves the random generator where
    it was; a scan without them draws at most one number for each
    candidate it examines. *)
Theorem scan_draws :
  forall (E : externals) (avail : bool) (reference_encoding : ref_encoding E)
         (image_urls : list string) (w : world),
    exists s e w',
      scan_images E avail reference_encoding image_urls w = (Ok (s, e), w') /\
      rng_pos w <= rng_pos w' <= rng_pos w + processed_count s /\
      (avail = true -> rng_pos w' = rng_pos w).
Proof.
  intros E avail ref urls w.
  destruct (scan_images_reach E avail ref urls w) as [s [e [w' [rest [Hrun [Hreach _]]]]]].
  exists s, e, w'. split; [exact Hrun|].
  apply (scan_reach_rng E ref avail urls w _ Hreach).
Qed.

Lemma scan_draws_witness :
  exists s e w',
    scan_images Toy.libs true Toy.selfie Toy.ten_urls {| rng_pos := 7; net_log := [] |}
    = (Ok (s, e), w') /\
    rng_pos w' = 7.
Proof.
  destruct (scan_draws Toy.libs true Toy.selfie Toy.ten_urls
              {| rng_pos := 7; net_log := [] |}) as [s [e [w' [Hrun [_ Hreal]]]]].
  exists s, e, w'. split; [exact Hrun|]. apply Hreal. reflexivity.
Defined.

(** ** The archive under write faults *)

Section Faults.

Variable E : externals.

(** Writing the photos from position [k] on into an archive that already
    has [entries]: either every write went through and the archive has
    one more member for each photo, or some write faulted. *)
Lemma write_photos_from : forall l k entries,
  match write_photos E (enumerate_from k l)
                     {| zip_compression := ZIP_DEFLATED; zip_entries := entries |} with
  | Ok z =>
      z = {| zip_compression := ZIP_DEFLATED;
             zip_entries := entries ++ map (photo_entry E) (enumerate_from k l) |} /\
      forall i data,
        nth_error l i = Some data ->
        write_fault E (entries ++ map (photo_entry E) (enumerate_from k (firstn i l)))
                    (photo_filename (k + i)) data = false
  | Raise _ =>
      exists i data,
        nth_error l i = Some data /\
        write_fault E (entries ++ map (photo_entry E) (enumerate_from k (firstn i l)))
                    (photo_filename (k + i)) data = true
  end.
Proof.
  intro l. induction l as [|x l IH]; intros k entries.
  - simpl. rewrite app_nil_r. split; [reflexivity|]. intros [|i] data H; discriminate.
  - cbn [enumerate_from write_photos]. unfold writestr. cbn [zip_entries zip_compression].
    destruct (write_fault E entries (photo_filename k) x) eqn:Hfault.
    + exists 0, x. split; [reflexivity|]. simpl. rewrite app_nil_r, Nat.add_0_r.
      exact Hfault.
    + specialize (IH (S k) (entries ++ [photo_entry E (k, x)])).
      change {| entry_name := photo_filename k; entry_method := ZIP_DEFLATED;
                entry_stored := deflate E x |} with (photo_entry E (k, x)).
      destruct (write_photos E (enumerate_from (S k) l) _) as [z|e].
      * destruct IH as [Hz Hno]. split.
        { rewrite Hz, <- app_assoc. reflexivity. }
        intros [|i] data Hnth.
        { simpl in Hnth. inversion Hnth; subst. simpl.
          rewrite app_nil_r, Nat.add_0_r. exact Hfault. }
        { simpl in Hnth. specialize (Hno i data Hnth).
          rewrite <- app_assoc in Hno. simpl in Hno.
          replace (k + S i) with (S (k + i)) by lia. exact Hno. }
      * destruct IH as [i [data [Hnth Hf]]]. exists (S i), data.
        split; [exact Hnth|]. rewrite <- app_assoc in Hf. simpl in Hf.
        replace (k + S i) with (S (k + i)) by lia. exact Hf.
Qed.

(** The archive of [create_photos_zip], when it returns one. *)
Lemma create_photos_zip_some : forall matched_images z,
  create_photos_zip E matched_images = Some z ->
  z = {| zip_compression := ZIP_DEFLATED;
         zip_entries := map (photo_entry E) (enumerate matched_images) |}.
Proof.
  intros bs z H. unfold create_photos_zip, enumerate in *.
  pose proof (write_photos_from bs 0 []) as Hw.
  destruct (write_photos E (enumerate_from 0 bs) _) as [z'|e]; [|discriminate].
  inversion H; subst. apply Hw.
Qed.

End Faults.

(** X8. [create_photos_zip] returns all or nothing: an archive it returns
    has one deflated member for every payload, in order; and it returns
    [None] exactly when some write faults, given the members written
    before it. *)
Theorem archive_all_or_nothing :
  forall (E : externals) (matched_images : list bytes),
    (forall z,
        create_photos_zip E matched_images = Some z ->
        z = {| zip_compression := ZIP_DEFLATED;
               zip_entries := map (photo_entry E) (enumerate matched_images) |}) /\
    (create_photos_zip E matched_images = None <->
     exists i data,
       nth_error matched_images i = Some data /\
       write_fault E (map (photo_entry E) (enumerate (firstn i matched_images)))
                   (photo_filename i) data = true).
Proof.
  intros E bs. split; [apply create_photos_zip_some|].
  unfold create_photos_zip, enumerate.
  pose proof (write_photos_from E bs 0 []) as Hw. simpl in Hw.
  destruct (write_photos E (enumerate_from 0 bs) _) as [z|e]; split.
  - discriminate.
  - intros [i [data [Hnth Hf]]]. destruct Hw as [_ Hno].
    rewrite (Hno i data Hnth) in Hf. discriminate.
  - intros _. exact Hw.
  - reflexivity.
Qed.

Lemma archive_all_or_nothing_witness :
  create_photos_zip
    (Externals bytes Z bytes Toy.http Toy.cv2_imdecode (fun image => Ok image)
               Toy.face_encodings (fun known candidate _ => Ok (Z.eqb known candidate))
               Toy.Image_open Toy.rgb_pixels Toy.hash_str Toy.random_draws
               Toy.findall_file_ids Toy.deflate Toy.inflate
               (fun entries _ _ => 1 <=? List.length entries))
    [[x61]; [x62]; [x63]]
  = None.
Proof.
  apply (proj2 (proj2 (archive_all_or_nothing _ [[x61]; [x62]; [x63]]))).
  exists 1, [x62]. split; reflexivity.
Defined.

(** ** Member names *)

Lemma photo_filename_length : forall i,
  i < 999 -> String.length (photo_filename i) = 13.
Proof.
  intros i Hi. unfold photo_filename.
  rewrite !append_length. destruct (format_03d_length (i + 1)) as [_ H].
  rewrite H by lia. reflexivity.
Qed.

(** X9. The number in a member name.  Reading the digits of
    [f"{n:03d}"] back gives [n]: the padding adds zeros in front and never
    cuts a digit.  The text has three characters for a number below 1000
    and more above, so the names of the first 999 members all have 13
    characters. *)
Theorem member_number_round_trip :
  forall n : nat,
    option_map Nat.of_uint (NilEmpty.uint_of_string (format_03d n)) = Some n /\
    3 <= String.length (format_03d n) /\
    (n < 1000 -> String.length (format_03d n) = 3) /\
    (n < 999 -> String.length (photo_filename n) = 13).
Proof.
  intro n. split; [apply format_03d_value|].
  destruct (format_03d_length n) as [H1 H2].
  split; [exact H1|]. split; [exact H2|]. apply photo_filename_length.
Qed.

Lemma member_number_round_trip_witness :
  String.length (format_03d 7) = 3 /\ String.length (photo_filename 41) = 13.
Proof.
  split.
  - apply (proj1 (proj2 (proj2 (member_number_round_trip 7)))). lia.
  - apply (proj2 (proj2 (proj2 (member_number_round_trip 41)))). lia.
Defined.

(** ** What the handler answers *)

Section Replies.

Variable E : externals.
Variable avail : bool.
Variable reference_encoding : ref_encoding E.


End Replies.


(** [process_images] on a listing that is not empty, given what the scan
    returned. *)
Lemma process_images_run :
  forall (E : externals) (avail : bool) (reference_encoding : ref_encoding E)
         (image_urls : list string) (w : world) s e w',
    image_urls <> [] ->
    scan_images E avail reference_encoding image_urls w = (Ok (s, e), w') ->
    process_images E avail reference_encoding image_urls w
    = match matched_images s with
      | [] => (Ok (JsonError 404 "No photos found with your face"), w')
      | _ :: _ =>
          match create_photos_zip E (matched_images s) with
          | None => (Ok (JsonError 500 "Error creating ZIP file"), w')
          | Some z => (Ok (SendFile z "application/zip" "yourphotos.zip"), w')
          end
      end.
Proof.
  intros E avail ref urls w s e w' Hne Hrun. unfold process_images.
  destruct urls as [|u urls']; [congruence|].
  unfold bind. rewrite Hrun. cbn [fst].
  destruct (matched_images s) as [|b l]; [reflexivity|].
  destruct (create_photos_zip E (b :: l)); reflexivity.
Qed.

(** X10. From the listing on, [process_photos] always answers, and never
    by its catch-all clause.  Which answer it gives is decided by the
    listing, the scan and the archive, in that order: 400 exactly when the
    listing is empty; otherwise 404 exactly when the scan matched nothing;
    otherwise 500 with [Error creating ZIP file] exactly when
    [create_photos_zip] returned [None]; otherwise the archive that
    [create_photos_zip] returned.  An archive that is sent is a deflate
    archive with one member for each match, at least one and at most 50,
    named [photo_001.jpg] onwards, every name of 13 characters. *)
Theorem handler_answers :
  forall (E : externals) (avail : bool) (reference_encoding : ref_encoding E)
         (folder_id : string) (w : world),
    exists image_urls w1 s e w',
      get_drive_images E folder_id 50 w = (Ok image_urls, w1) /\
      scan_images E avail reference_encoding image_urls w1 = (Ok (s, e), w') /\
      ((image_urls = [] /\
        process_photos E avail folder_id reference_encoding w
        = (Ok (JsonError 400 "No images found in the folder or folder is private"), w1)) \/
       (image_urls <> [] /\ matched_images s = [] /\
        process_photos E avail folder_id reference_encoding w
        = (Ok (JsonError 404 "No photos found with your face"), w')) \/
       (image_urls <> [] /\ matched_images s <> [] /\
        create_photos_zip E (matched_images s) = None /\
        process_photos E avail folder_id reference_encoding w
        = (Ok (JsonError 500 "Error creating ZIP file"), w')) \/
       (image_urls <> [] /\ matched_images s <> [] /\
        exists z,
          create_photos_zip E (matched_images s) = Some z /\
          process_photos E avail folder_id reference_encoding w
          = (Ok (SendFile z "application/zip" "yourphotos.zip"), w') /\
          zip_compression z = ZIP_DEFLATED /\
          List.length (zip_entries z) = List.length (matched_images s) /\
          1 <= List.length (zip_entries z) <= 50 /\
          namelist z = map photo_filename (seq 0 (List.length (zip_entries z))) /\
          Forall (fun name => String.length name = 13) (namelist z))).
Proof.
  intros E avail ref folder w.
  destruct (get_drive_images_bound E folder 50 w) as [urls [w1 [Hget Hlen]]].
  destruct (scan_images_bounds E avail ref urls w1)
    as [s [e [w' [Hrun [_ [Hp [_ [Hm _]]]]]]]].
  exists urls, w1, s, e, w'. split; [exact Hget|]. split; [exact Hrun|].
  unfold process_photos, try_except, bind. rewrite Hget.
  assert (Hcase : urls = [] \/ urls <> [])
    by (destruct urls; [left; reflexivity|right; discriminate]).
  destruct Hcase as [Hnil|Hne].
  - left. subst urls. split; reflexivity.
  - right. rewrite (process_images_run E avail ref urls w1 s e w' Hne Hrun).
    destruct (matched_images s) as [|b bs] eqn:Hmatched.
    + left. repeat split; auto.
    + right. rewrite <- Hmatched in *.
      assert (Hsome : matched_images s <> []) by (rewrite Hmatched; discriminate).
      destruct (create_photos_zip E (matched_images s)) as [z|] eqn:Hzip.
      * right. split; [exact Hne|]. split; [exact Hsome|]. exists z.
        split; [reflexivity|]. split; [reflexivity|].
        rewrite (create_photos_zip_some E _ _ Hzip).
        unfold namelist. cbn [zip_entries zip_compression].
        rewrite photo_names, !length_map.
        assert (Hcount : List.length (enumerate (matched_images s))
                         = List.length (matched_images s)).
        { unfold enumerate. rewrite <- (length_map fst), enumerate_from_fst.
          apply length_seq. }
        rewrite Hcount.
        assert (Hpos : 1 <= List.length (matched_images s))
          by (rewrite Hmatched; simpl; lia).
        repeat split; auto; try lia.
        apply Forall_forall. intros name Hin. apply in_map_iff in Hin.
        destruct Hin as [i [<- Hi]]. apply in_seq in Hi.
        apply photo_filename_length. lia.
      * left. repeat split; auto.
Qed.

(** When the folder page cannot be fetched the listing is empty, and the
    answer is the 400 of the empty listing. *)
Lemma handler_answers_witness :
  process_photos Offline.libs true "x" Toy.selfie Toy.w0
  = (Ok (JsonError 400 "No images found in the folder or folder is private"),
     {| rng_pos := 0; net_log := ["https://drive.google.com/drive/folders/x"] |}).
Proof.
  destruct (handler_answers Offline.libs true Toy.selfie "x" Toy.w0)
    as [urls [w1 [s [e [w' [Hget [_ Hcases]]]]]]].
  assert (Hurls : urls = []) by (vm_compute in Hget; congruence).
  assert (Hw : w1 = {| rng_pos := 0;
                       net_log := ["https://drive.google.com/drive/folders/x"] |})
    by (vm_compute in Hget; congruence).
  destruct Hcases as [[_ H]|[[Hne _]|[[Hne _]|[Hne _]]]]; congruence.
Defined.

(** ** Patterns *)

Lemma strip_prefix_app : forall literal rest,
  strip_prefix literal (literal ++ rest) = Some rest.
Proof.
  intros l rest. induction l as [|a l IH]; simpl; [destruct rest; reflexivity|].
  rewrite Ascii.eqb_refl. exact IH.
Qed.

Lemma strip_prefix_some : forall literal s rest,
  strip_prefix literal s = Some rest -> s = (literal ++ rest)%string.
Proof.
  intros l. induction l as [|a l IH]; intros s rest H.
  - destruct s; simpl in H; inversion H; reflexivity.
  - destruct s as [|b s]; simpl in H; [discriminate|].
    destruct (Ascii.eqb_spec a b) as [->|]; [|discriminate].
    simpl. f_equal. apply IH. exact H.
Qed.

Lemma append_assoc : forall a b c : string,
  ((a ++ b) ++ c)%string = (a ++ (b ++ c))%string.
Proof.
  intros a b c. induction a as [|x a IH]; simpl; [reflexivity|]. rewrite IH. reflexivity.
Qed.

Lemma append_nil_r : forall a : string, (a ++ "")%string = a.
Proof. intro a. induction a as [|x a IH]; simpl; [reflexivity|]. rewrite IH. reflexivity. Qed.

Lemma many_zero_nonempty : forall class s, many class 0 s <> [].
Proof.
  intros class s. destruct s as [|c s]; simpl; [discriminate|].
  destruct (class c); [|discriminate].
  destruct (map _ (many class 0 s)); discriminate.
Qed.

Lemma many_sound : forall class s least c rest,
  In (c, rest) (many class least s) ->
  s = (c ++ rest)%string /\ least <= String.length c /\ all_in class c.
Proof.
  intros class s. induction s as [|a s IH]; intros least c rest Hin.
  - simpl in Hin. destruct (Nat.eqb_spec least 0); [|contradiction].
    destruct Hin as [Heq|[]]. inversion Heq; subst.
    repeat split; [simpl; lia|intros x []].
  - cbn [many] in Hin.
    assert (Hstop : In (c, rest) (if least =? 0 then [(EmptyString, String a s)] else []) ->
                    String a s = (c ++ rest)%string /\ least <= String.length c /\
                    all_in class c).
    { destruct (Nat.eqb_spec least 0); [|contradiction].
      intros [Heq|[]]. inversion Heq; subst.
      repeat split; [simpl; lia|intros x []]. }
    destruct (class a) eqn:Ha; [|apply Hstop; exact Hin].
    apply in_app_or in Hin. destruct Hin as [Hin|Hin]; [|apply Hstop; exact Hin].
    apply in_map_iff in Hin. destruct Hin as [[c' rest'] [Heq Hin]].
    simpl in Heq. inversion Heq; subst.
    destruct (IH _ _ _ Hin) as [Hs [Hl Hall]].
    split; [simpl; rewrite Hs; reflexivity|].
    split; [simpl; lia|].
    intros x [<-|Hx]; [exact Ha|apply Hall; exact Hx].
Qed.

Lemma many_complete : forall class c least rest,
  least <= String.length c ->
  all_in class c ->
  In (c, rest) (many class least (c ++ rest)).
Proof.
  intros class c. induction c as [|a c IH]; intros least rest Hl Hall.
  - simpl in Hl. assert (least = 0) by lia. subst.
    simpl. destruct rest as [|b rest]; simpl; [left; reflexivity|].
    destruct (class b); [apply in_or_app; right|]; left; reflexivity.
  - simpl. rewrite (Hall a (or_introl eq_refl)).
    apply in_or_app. left.
    apply in_map_iff. exists (c, rest). split; [reflexivity|].
    apply IH; [simpl in Hl; lia|]. intros x Hx. apply Hall. right. exact Hx.
Qed.

(** The longest way comes first: what it leaves does not go on with a
    character of the class. *)
Lemma many_head : forall class s least c rest tl,
  many class least s = (c, rest) :: tl -> stops class rest.
Proof.
  intros class s. induction s as [|a s IH]; intros least c rest tl H.
  - simpl in H. destruct (least =? 0); inversion H. exact I.
  - cbn [many] in H. destruct (class a) eqn:Ha.
    + destruct (many class (pred least) s) as [|[c' rest'] tl'] eqn:Hm.
      * simpl in H. destruct (Nat.eqb_spec least 0); [|discriminate].
        subst. exfalso. exact (many_zero_nonempty class s Hm).
      * simpl in H. inversion H; subst. exact (IH _ _ _ _ Hm).
    + destruct (least =? 0); inversion H. simpl. exact Ha.
Qed.

Lemma matches_sound : forall r s c g rest,
  In (c, g, rest) (matches r s) -> s = (c ++ rest)%string /\ denotes r c g.
Proof.
  intro r. induction r as [l|least class|r1 IH1 r2 IH2|r IH]; intros s c g rest Hin.
  - simpl in Hin. destruct (strip_prefix l s) as [rest'|] eqn:Hp; [|contradiction].
    destruct Hin as [Heq|[]]. inversion Heq; subst.
    split; [apply strip_prefix_some; exact Hp|constructor].
  - simpl in Hin. apply in_map_iff in Hin. destruct Hin as [[c' rest'] [Heq Hin]].
    simpl in Heq. inversion Heq; subst.
    destruct (many_sound _ _ _ _ _ Hin) as [Hs [Hl Hall]].
    split; [exact Hs|constructor; assumption].
  - simpl in Hin. apply in_flat_map in Hin.
    destruct Hin as [[[c1 g1] rest1] [Hin1 Hin2]].
    apply in_map_iff in Hin2. destruct Hin2 as [[[c2 g2] rest2] [Heq Hin2]].
    simpl in Heq, Hin2. inversion Heq; subst.
    destruct (IH1 _ _ _ _ Hin1) as [Hs1 Hd1].
    destruct (IH2 _ _ _ _ Hin2) as [Hs2 Hd2].
    split; [rewrite Hs1, Hs2, append_assoc; reflexivity|constructor; assumption].
  - simpl in Hin. apply in_map_iff in Hin. destruct Hin as [[[c' g'] rest'] [Heq Hin]].
    simpl in Heq. inversion Heq; subst.
    destruct (IH _ _ _ _ Hin) as [Hs Hd].
    split; [exact Hs|constructor; exact Hd].
Qed.

Lemma matches_complete : forall r c g,
  denotes r c g -> forall rest, In (c, g, rest) (matches r (c ++ rest)).
Proof.
  intros r c g H. induction H as [l|least class c Hl Hall|r1 r2 c1 c2 g1 g2 _ IH1 _ IH2
                                  |r c g _ IH]; intro rest.
  - simpl. rewrite strip_prefix_app. left. reflexivity.
  - simpl. apply in_map_iff. exists (c, rest). split; [reflexivity|].
    apply many_complete; assumption.
  - simpl. apply in_flat_map. exists (c1, g1, (c2 ++ rest)%string).
    split; [rewrite append_assoc; apply IH1|].
    apply in_map_iff. exists (c2, g2, rest). split; [reflexivity|apply IH2].
  - simpl. apply in_map_iff. exists (c, g, rest). split; [reflexivity|apply IH].
Qed.

(** [re.search] finds a match exactly when some part of the text is
    matched by the pattern. *)
Lemma re_search_found : forall r s,
  re_search r s <> None <->
  exists before c g after, s = (before ++ c ++ after)%string /\ denotes r c g.
Proof.
  intros r s. induction s as [|a s IH]; cbn [re_search].
  - destruct (matches r "") as [|[[c g] rest] tl] eqn:Hm.
    + split; [congruence|].
      intros [before [c [g [after [Hs Hd]]]]].
      destruct before; [|discriminate]. simpl in Hs.
      pose proof (matches_complete r c g Hd after) as Hin.
      rewrite <- Hs, Hm in Hin. contradiction.
    + split; [|discriminate]. intros _.
      destruct (matches_sound r "" c g rest) as [Hs Hd]; [rewrite Hm; left; reflexivity|].
      exists EmptyString, c, g, rest. split; [exact Hs|exact Hd].
  - destruct (matches r (String a s)) as [|[[c g] rest] tl] eqn:Hm.
    + rewrite IH. split.
      * intros [before [c [g [after [Hs Hd]]]]].
        exists (String a before), c, g, after. split; [simpl; rewrite Hs; reflexivity|exact Hd].
      * intros [before [c [g [after [Hs Hd]]]]].
        destruct before as [|b before].
        { simpl in Hs. pose proof (matches_complete r c g Hd after) as Hin.
          rewrite <- Hs, Hm in Hin. contradiction. }
        { simpl in Hs. inversion Hs; subst.
          exists before, c, g, after. split; [reflexivity|exact Hd]. }
    + split; [|discriminate]. intros _.
      destruct (matches_sound r (String a s) c g rest) as [Hs Hd];
        [rewrite Hm; left; reflexivity|].
      exists EmptyString, c, g, rest. split; [exact Hs|exact Hd].
Qed.

(** What [re.search] returns is the first way of matching at some
    position of the text. *)
Lemma re_search_head : forall r s g,
  re_search r s = Some g ->
  exists before c rest tl,
    s = (before ++ c ++ rest)%string /\
    matches r (c ++ rest) = (c, g, rest) :: tl.
Proof.
  intros r s. induction s as [|a s IH]; intros g H; cbn [re_search] in H.
  - destruct (matches r "") as [|[[c g'] rest] tl] eqn:Hm; [discriminate|].
    simpl in H. inversion H; subst g'.
    destruct (matches_sound r "" c g rest) as [Hs _]; [rewrite Hm; left; reflexivity|].
    exists EmptyString, c, rest, tl. split; [exact Hs|]. rewrite <- Hs. exact Hm.
  - destruct (matches r (String a s)) as [|[[c g'] rest] tl] eqn:Hm.
    + destruct (IH g H) as [before [c [rest [tl [Hs Hh]]]]].
      exists (String a before), c, rest, tl. split; [simpl; rewrite Hs; reflexivity|exact Hh].
    + simpl in H. inversion H; subst g'.
      destruct (matches_sound r (String a s) c g rest) as [Hs _];
        [rewrite Hm; left; reflexivity|].
      exists EmptyString, c, rest, tl. split; [exact Hs|]. rewrite <- Hs. exact Hm.
Qed.

Lemma denotes_str_inv : forall literal c g, denotes (Str literal) c g -> c = literal /\ g = [].
Proof. intros l c g H. inversion H; subst. split; reflexivity. Qed.

Lemma nonempty_length : forall s : string, s <> EmptyString <-> 1 <= String.length s.
Proof.
  intros [|a s]; simpl; split; intro H; try congruence; try lia.
Qed.

Lemma occurs_found : forall literal s,
  re_search (Str literal) s <> None <-> occurs literal s.
Proof.
  intros l s. rewrite re_search_found. unfold occurs. split.
  - intros [before [c [g [after [Hs Hd]]]]].
    apply denotes_str_inv in Hd. destruct Hd as [-> _]. exists before, after. exact Hs.
  - intros [before [after Hs]]. exists before, l, [], after. split; [exact Hs|constructor].
Qed.

(** A marker followed by at least one character of a class, the
    characters forming a group: the shape of both folder-id patterns. *)
Lemma marker_matches : forall literal class s,
  matches (Cat (Str literal) (Group (Many 1 class))) s
  = match strip_prefix literal s with
    | Some s1 => map (fun m => ((literal ++ fst m)%string, [fst m], snd m)) (many class 1 s1)
    | None => []
    end.
Proof.
  intros l class s. cbn [matches]. destruct (strip_prefix l s) as [s1|]; [|reflexivity].
  cbn [flat_map fst snd]. rewrite app_nil_r, !map_map. apply map_ext.
  intros [c rest]. reflexivity.
Qed.

Lemma marker_search_some : forall literal class s g,
  re_search (Cat (Str literal) (Group (Many 1 class))) s = Some g ->
  exists id before after,
    g = [id] /\ s = (before ++ literal ++ id ++ after)%string /\
    id <> EmptyString /\ all_in class id /\ stops class after.
Proof.
  intros l class s g H.
  destruct (re_search_head _ _ _ H) as [before [c [rest [tl [Hs Hm]]]]].
  rewrite marker_matches in Hm.
  destruct (strip_prefix l (c ++ rest)) as [s1|] eqn:Hp; [|discriminate].
  destruct (many class 1 s1) as [|[id left_over] tl'] eqn:Hmany; [discriminate|].
  cbn [map fst snd] in Hm. injection Hm as Hc Hg Hr Htl.
  destruct (many_sound class s1 1 id left_over) as [Hs1 [Hl Hall]];
    [rewrite Hmany; left; reflexivity|].
  exists id, before, left_over. split; [symmetry; exact Hg|].
  split; [rewrite Hs, <- Hc, Hr, append_assoc; reflexivity|].
  split; [apply nonempty_length; exact Hl|].
  split; [exact Hall|]. exact (many_head _ _ _ _ _ _ Hmany).
Qed.

Lemma marker_search_none : forall literal class s,
  re_search (Cat (Str literal) (Group (Many 1 class))) s = None <->
  forall before c after,
    class c = true -> s <> (before ++ literal ++ String c after)%string.
Proof.
  intros l class s. split.
  - intros Hnone before c after Hc Hs.
    apply (proj2 (re_search_found (Cat (Str l) (Group (Many 1 class))) s));
      [|exact Hnone].
    exists before, (l ++ String c "")%string, ([] ++ [String c ""]), after.
    split; [rewrite Hs, append_assoc; reflexivity|].
    constructor; [constructor|]. constructor. constructor; [simpl; lia|].
    intros a [<-|[]]. exact Hc.
  - intro Hno.
    destruct (re_search (Cat (Str l) (Group (Many 1 class))) s) as [g|] eqn:Hr;
      [|reflexivity].
    exfalso. destruct (marker_search_some _ _ _ _ Hr)
      as [id [before [after [_ [Hs [Hne [Hall _]]]]]]].
    destruct id as [|a id]; [congruence|].
    apply (Hno before a (id ++ after)%string); [apply Hall; left; reflexivity|].
    rewrite Hs. reflexivity.
Qed.

(** The two patterns of [is_valid_drive_url], on the texts that a string
    can hold. *)
Lemma valid_drive_url_cases : forall url : string,
  is_valid_drive_url url = true <->
  occurs "drive.google.com/drive/folders/" url \/
  exists digits,
    digits <> EmptyString /\ all_in is_digit digits /\
    occurs ("drive.google.com/drive/u/" ++ digits ++ "/folders/") url.
Proof.
  intro url. unfold is_valid_drive_url, drive_patterns. cbn [existsb].
  rewrite orb_false_r, orb_true_iff.
  assert (Hsome : forall r, match re_search r url with Some _ => true | None => false end
                            = true <-> re_search r url <> None).
  { intro r. destruct (re_search r url); split; congruence. }
  rewrite !Hsome, occurs_found, re_search_found.
  apply or_iff_compat_l. split.
  - intros [before [c [g [after [Hs Hd]]]]].
    inversion Hd as [| |r1 r2 c1 c2 g1 g2 Hd1 Hd2|]; subst.
    apply denotes_str_inv in Hd1. destruct Hd1 as [-> ->].
    inversion Hd2 as [| |r1 r2 c3 c4 g3 g4 Hd3 Hd4|]; subst.
    apply denotes_str_inv in Hd4. destruct Hd4 as [-> ->].
    inversion Hd3; subst.
    exists c3. split; [apply nonempty_length; assumption|]. split; [assumption|].
    exists before, after. reflexivity.
  - intros [digits [Hne [Hall [before [after Hs]]]]].
    exists before, ("drive.google.com/drive/u/" ++ digits ++ "/folders/")%string,
           ([] ++ [] ++ []), after.
    split; [exact Hs|].
    constructor; [constructor|]. constructor; [|constructor].
    constructor; [apply nonempty_length; exact Hne|exact Hall].
Qed.

(** X11. [is_valid_drive_url] tests for a part of the text, not for its
    start or its host.  It accepts every text that contains, anywhere,
    [drive.google.com/drive/folders/], or [drive.google.com/drive/u/], one
    or more of the digits 0 to 9, then [/folders/].  And a text that it
    accepts contains the first marker, or the second marker, a run of one
    character or more and [/folders/], where no character of the run is an
    ASCII character other than a digit.  (The digits of other scripts,
    which [\d] matches as well, are not ASCII characters.) *)
Theorem valid_drive_url_shape :
  forall url : string,
    (occurs "drive.google.com/drive/folders/" url -> is_valid_drive_url url = true) /\
    (forall digits,
        digits <> EmptyString -> all_in is_digit digits ->
        occurs ("drive.google.com/drive/u/" ++ digits ++ "/folders/") url ->
        is_valid_drive_url url = true) /\
    (is_valid_drive_url url = true ->
     occurs "drive.google.com/drive/folders/" url \/
     exists run,
       run <> EmptyString /\ all_in digit_or_not_ascii run /\
       occurs ("drive.google.com/drive/u/" ++ run ++ "/folders/") url).
Proof.
  intro url. pose proof (valid_drive_url_cases url) as [Hto Hfrom].
  split; [intro H; apply Hfrom; left; exact H|].
  split.
  - intros digits Hne Hall Hocc. apply Hfrom. right. exists digits. auto.
  - intro Hv. destruct (Hto Hv) as [H|[digits [Hne [Hall Hocc]]]]; [left; exact H|].
    right. exists digits. split; [exact Hne|]. split; [|exact Hocc].
    intros a Ha. unfold digit_or_not_ascii. rewrite (Hall a Ha). reflexivity.
Qed.

Lemma valid_drive_url_shape_witness :
  is_valid_drive_url "http://example.org/?next=drive.google.com/drive/u/12/folders/" = true.
Proof.
  apply (proj1 (proj2 (valid_drive_url_shape _)) "12").
  - discriminate.
  - intros a [<-|[<-|[]]]; reflexivity.
  - exists "http://example.org/?next=", "". reflexivity.
Defined.

(** X12. [extract_folder_id] never raises.  An id it returns is not
    empty, is made of the characters [a-zA-Z0-9_-], stands in the text
    right after [folders/] or, when no [folders/] is followed by such a
    character, right after [id=], and is not followed by another such
    character.  It returns [None] exactly when neither marker is followed
    by such a character anywhere in the text. *)
Theorem folder_id_extraction :
  forall drive_url : string,
    (exists result, extract_folder_id drive_url = Ok result) /\
    (forall id,
        extract_folder_id drive_url = Ok (Some id) ->
        id <> EmptyString /\ all_in id_char id /\
        exists before after,
          stops id_char after /\
          (drive_url = (before ++ "folders/" ++ id ++ after)%string \/
           (drive_url = (before ++ "id=" ++ id ++ after)%string /\
            forall before' c after',
              id_char c = true ->
              drive_url <> (before' ++ "folders/" ++ String c after')%string))) /\
    (extract_folder_id drive_url = Ok None <->
     forall before c after,
       id_char c = true ->
       drive_url <> (before ++ "folders/" ++ String c after)%string /\
       drive_url <> (before ++ "id=" ++ String c after)%string).
Proof.
  intro url. unfold extract_folder_id, folder_id_patterns. cbn [first_group].
  pose proof (marker_search_some "folders/" id_char url) as Hf.
  pose proof (marker_search_none "folders/" id_char url) as Hfn.
  pose proof (marker_search_some "id=" id_char url) as Hi.
  pose proof (marker_search_none "id=" id_char url) as Hin.
  destruct (re_search (Cat (Str "folders/") (Group (Many 1 id_char))) url) as [g|].
  - destruct (Hf g eq_refl) as [id [before [after [-> [Hs [Hne [Hall Hstop]]]]]]].
    split; [eexists; reflexivity|]. split.
    + intros id' H. inversion H; subst id'. repeat split; auto.
      exists before, after. split; [exact Hstop|left; exact Hs].
    + split; [discriminate|]. intro Hno. exfalso.
      destruct id as [|a id]; [congruence|].
      apply (proj1 (Hno before a (id ++ after)%string (Hall a (or_introl eq_refl)))).
      rewrite Hs. reflexivity.
  - pose proof (proj1 Hfn eq_refl) as Hnofolders.
    destruct (re_search (Cat (Str "id=") (Group (Many 1 id_char))) url) as [g|].
    + destruct (Hi g eq_refl) as [id [before [after [-> [Hs [Hne [Hall Hstop]]]]]]].
      split; [eexists; reflexivity|]. split.
      * intros id' H. inversion H; subst id'. repeat split; auto.
        exists before, after. split; [exact Hstop|]. right. split; [exact Hs|].
        exact Hnofolders.
      * split; [discriminate|]. intro Hno. exfalso.
        destruct id as [|a id]; [congruence|].
        apply (proj2 (Hno before a (id ++ after)%string (Hall a (or_introl eq_refl)))).
        rewrite Hs. reflexivity.
    + pose proof (proj1 Hin eq_refl) as Hnoid.
      split; [eexists; reflexivity|]. split; [discriminate|].
      split; [|reflexivity]. intros _ before c after Hc.
      split; [apply Hnofolders|apply Hnoid]; exact Hc.
Qed.

Lemma folder_id_extraction_witness :
  "1AbC-_9" <> EmptyString /\ all_in id_char "1AbC-_9" /\
  exists before after,
    stops id_char after /\
    ("https://drive.google.com/drive/folders/1AbC-_9?usp=sharing"
     = (before ++ "folders/" ++ "1AbC-_9" ++ after)%string \/
     ("https://drive.google.com/drive/folders/1AbC-_9?usp=sharing"
      = (before ++ "id=" ++ "1AbC-_9" ++ after)%string /\
      forall before' c after',
        id_char c = true ->
        "https://drive.google.com/drive/folders/1AbC-_9?usp=sharing"
        <> (before' ++ "folders/" ++ String c after')%string)).
Proof.
  apply (proj1 (proj2 (folder_id_extraction
                         "https://drive.google.com/drive/folders/1AbC-_9?usp=sharing"))).
  reflexivity.
Defined.

(** ** The upload folder *)

Lemma disk_read_write : forall path data d,
  disk_read path (disk_write path data d) = Some data.
Proof. intros path data d. simpl. rewrite String.eqb_refl. reflexivity. Qed.



Lemma disk_delete_write : forall path data d,
  disk_delete path (disk_write path data d) = disk_delete path d.
Proof.
  intros path data d. unfold disk_write, disk_delete. simpl.
  rewrite String.eqb_refl. simpl.
  induction d as [|[p x] d IH]; simpl; [reflexivity|].
  destruct (String.eqb_spec p path); simpl; [exact IH|].
  destruct (String.eqb_spec p path); [contradiction|]. simpl. rewrite IH. reflexivity.
Qed.

Section HandlerRuns.

Variable E : externals.
Variable L : server_libs E.
Variable avail : bool.

(** [load_and_encode_face] never raises, changes nothing, and its value
    is a function of the bytes of the file. *)
Lemma load_and_encode_face_run : forall image_path sv,
  load_and_encode_face E L avail image_path sv
  = (Returned (selfie_encoding E L avail (disk_read image_path (disk sv))), sv).
Proof.
  intros path sv.
  unfold load_and_encode_face, h_try, h_bind, h_ret, read_file, from_exc, selfie_encoding.
  destruct avail.
  - destruct (disk_read path (disk sv)) as [data|]; [|reflexivity].
    destruct (load_image_file L data) as [image|e]; [|reflexivity].
    destruct (face_encodings E image) as [[|first rest]|e]; reflexivity.
  - destruct (disk_read path (disk sv)) as [data|]; [|reflexivity].
    destruct (Image_open E data) as [img|e]; [|reflexivity].
    destruct (rgb_pixels E img) as [pixels|e]; reflexivity.
Qed.

Lemma os_remove_present : forall path data sv,
  disk_read path (disk sv) = Some data ->
  os_remove path sv
  = (Returned tt, {| net := net sv; disk := disk_delete path (disk sv) |}).
Proof. intros path data sv H. unfold os_remove. rewrite H. reflexivity. Qed.

(** The tail of the handler, run next to the disk with the selfie on it:
    the same answer as [process_photos], and the selfie removed. *)
Lemma tail_with_cleanup : forall folder_id reference_encoding path data w d,
  disk_read path d = Some data ->
  exists reply w',
    process_photos E avail folder_id reference_encoding w = (Ok reply, w') /\
    (image_urls <~ from_M (get_drive_images E folder_id 50) ;;
     match image_urls with
     | [] =>
         _ <~ os_remove path ;;
         h_ret (JsonError 400 "No images found in the folder or folder is private")
     | _ =>
         r <~ from_M (scan_images E avail reference_encoding image_urls) ;;
         _ <~ os_remove path ;;
         match matched_images (fst r) with
         | [] => h_ret (JsonError 404 "No photos found with your face")
         | matched =>
             match create_photos_zip E matched with
             | None => h_ret (JsonError 500 "Error creating ZIP file")
             | Some zip_data =>
                 h_ret (SendFile zip_data "application/zip" "yourphotos.zip")
             end
         end
     end) {| net := w; disk := d |}
    = (Returned reply, {| net := w'; disk := disk_delete path d |}).
Proof.
  intros folder ref path data w d Hfile.
  destruct (get_drive_images_bound E folder 50 w) as [urls [w1 [Hget _]]].
  unfold process_photos, try_except, bind, h_bind, from_M. cbn [net disk].
  rewrite Hget.
  destruct urls as [|u urls].
  - cbn [process_images]. unfold ret.
    rewrite (os_remove_present path data {| net := w1; disk := d |} Hfile).
    eexists _, _. split; reflexivity.
  - destruct (scan_images_reach E avail ref (u :: urls) w1)
      as [s [e [w2 [rest [Hscan _]]]]].
    cbn [process_images]. unfold bind. cbn [net disk]. rewrite Hscan.
    rewrite (os_remove_present path data {| net := w2; disk := d |} Hfile).
    cbn [fst net disk]. unfold h_ret, ret.
    destruct (matched_images s) as [|b bs]; [eexists _, _; split; reflexivity|].
    destruct (create_photos_zip E (b :: bs)); eexists _, _; split; reflexivity.
Qed.

End HandlerRuns.

Lemma extract_folder_id_returns : forall drive_url,
  extract_folder_id drive_url = Ok None \/
  exists a id, extract_folder_id drive_url = Ok (Some (String a id)).
Proof.
  intro url. unfold extract_folder_id, folder_id_patterns. cbn [first_group].
  pose proof (marker_search_some "folders/" id_char url) as Hf.
  pose proof (marker_search_some "id=" id_char url) as Hi.
  destruct (re_search (Cat (Str "folders/") (Group (Many 1 id_char))) url) as [g|].
  - destruct (Hf g eq_refl) as [id [_ [_ [-> [_ [Hne _]]]]]].
    destruct id as [|a id]; [congruence|]. right. exists a, id. reflexivity.
  - destruct (re_search (Cat (Str "id=") (Group (Many 1 id_char))) url) as [g|].
    + destruct (Hi g eq_refl) as [id [_ [_ [-> [_ [Hne _]]]]]].
      destruct id as [|a id]; [congruence|]. right. exists a, id. reflexivity.
    + left. reflexivity.
Qed.

Lemma os_remove_saved : forall path data w d,
  disk_read path d = Some data ->
  os_remove path {| net := w; disk := d |}
  = (Returned tt, {| net := w; disk := disk_delete path d |}).
Proof. intros path data w d H. unfold os_remove. cbn [disk net]. rewrite H. reflexivity. Qed.

Section RequestRuns.

Variable E : externals.
Variable L : server_libs E.
Variable avail : bool.


Lemma request_files_read : forall req sv,
  (MAX_CONTENT_LENGTH <? content_length req)%N = false ->
  request_files req sv = (Returned (files_selfie req), sv).
Proof. intros req sv H. unfold request_files. rewrite H. reflexivity. Qed.

Lemma request_run : forall req sv selfie link,
  (MAX_CONTENT_LENGTH <? content_length req)%N = false ->
  files_selfie req = Some selfie ->
  form_drive_link req = Some link ->
  filename selfie <> EmptyString ->
  is_valid_drive_url (strip link) = true ->
  save_fails L (upload_path (secure_filename L (filename selfie))) (stream selfie) = false ->
  exists reply w',
    process_photos_request E L avail req sv
    = (Returned reply,
       {| net := w';
          disk := disk_delete (upload_path (secure_filename L (filename selfie)))
                              (disk sv) |}) /\
    match selfie_encoding E L avail (Some (stream selfie)) with
    | None =>
        reply = JsonError 400 "No face detected in selfie. Please upload a clear photo."
        /\ w' = net sv
    | Some reference_encoding =>
        match extract_folder_id (strip link) with
        | Ok (Some folder_id) =>
            process_photos E avail folder_id reference_encoding (net sv) = (Ok reply, w')
        | _ =>
            reply = JsonError 400 "Could not extract folder ID from URL" /\ w' = net sv
        end
    end.
Proof.
  intros req sv selfie link Hsize Hselfie Hlink Hname Hvalid Hsave.
  set (path := upload_path (secure_filename L (filename selfie))) in *.
  unfold process_photos_request, h_try. unfold h_bind at 1.
  rewrite (request_files_read req sv Hsize), Hselfie, Hlink, Hvalid.
  destruct (String.eqb_spec (filename selfie) "") as [|_]; [contradiction|].
  cbn [negb]. fold path.
  unfold h_bind at 1. unfold save at 1. rewrite Hsave.
  unfold h_bind at 1. rewrite load_and_encode_face_run. cbn [disk net].
  rewrite disk_read_write.
  assert (Hfile : disk_read path (disk_write path (stream selfie) (disk sv))
                  = Some (stream selfie)) by apply disk_read_write.
  destruct (selfie_encoding E L avail (Some (stream selfie))) as [ref|].
  - unfold h_bind at 1. unfold from_exc at 1.
    destruct (extract_folder_id_returns (strip link)) as [Hnone|[a [id Hsome]]].
    + rewrite Hnone. unfold h_bind.
      rewrite (os_remove_saved path _ _ _ Hfile).
      rewrite disk_delete_write. eexists _, _. split; [reflexivity|]. auto.
    + rewrite Hsome.
      destruct (tail_with_cleanup E avail (String a id) ref path (stream selfie)
                  (net sv) (disk_write path (stream selfie) (disk sv)) Hfile)
        as [reply [w' [Htail Hrun]]].
      rewrite Hrun, disk_delete_write. exists reply, w'. split; [reflexivity|exact Htail].
  - unfold h_bind. rewrite (os_remove_saved path _ _ _ Hfile).
    rewrite disk_delete_write. eexists _, _. split; [reflexivity|]. auto.
Qed.


End RequestRuns.

Section RequestCases.

Variable E : externals.
Variable L : server_libs E.
Variable avail : bool.


End RequestCases.

(** ** The statements about the whole handler *)

(** X13. [load_and_encode_face] never raises and changes neither the disk
    nor the world.  A missing or unreadable file gives [None].  With the
    face libraries the value is the first face found, and [None] when no
    face is found; without them every image that opens is encoded,
    whether it shows a face or not, as a number from 0 to 999999. *)
Theorem selfie_is_encoded :
  forall (E : externals) (L : server_libs E) (avail : bool)
         (image_path : string) (sv : server),
    exists result,
      load_and_encode_face E L avail image_path sv = (Returned result, sv) /\
      (disk_read image_path (disk sv) = None -> result = None) /\
      (forall data image,
          avail = true ->
          disk_read image_path (disk sv) = Some data ->
          load_image_file L data = Ok image ->
          (face_encodings E image = Ok [] -> result = None) /\
          (forall first rest,
              face_encodings E image = Ok (first :: rest) ->
              result = Some (RealEncoding first))) /\
      (forall data e,
          avail = false ->
          disk_read image_path (disk sv) = Some data ->
          Image_open E data = Raise e ->
          result = None) /\
      (forall data img pixels,
          avail = false ->
          disk_read image_path (disk sv) = Some data ->
          Image_open E data = Ok img ->
          rgb_pixels E img = Ok pixels ->
          exists h, result = Some (DemoEncoding h) /\ (0 <= h < 1000000)%Z).
Proof.
  intros E L avail path sv. eexists. split; [apply load_and_encode_face_run|].
  unfold selfie_encoding.
  split; [intros ->; reflexivity|].
  split; [intros data image -> -> ->; split;
          [intros ->; reflexivity|intros first rest ->; reflexivity]|].
  split; [intros data e -> -> ->; reflexivity|].
  intros data img pixels -> -> -> ->. eexists. split; [reflexivity|].
  apply Z.mod_pos_bound. lia.
Qed.

Lemma selfie_is_encoded_witness :
  exists result,
    load_and_encode_face Toy.libs ToyServer.libs false "uploads/me.jpg"
                         {| net := Toy.w0; disk := [("uploads/me.jpg", [x7a; x7a])] |}
    = (Returned result, {| net := Toy.w0; disk := [("uploads/me.jpg", [x7a; x7a])] |}) /\
    exists h, result = Some (DemoEncoding h) /\ (0 <= h < 1000000)%Z.
Proof.
  destruct (selfie_is_encoded Toy.libs ToyServer.libs false "uploads/me.jpg"
              {| net := Toy.w0; disk := [("uploads/me.jpg", [x7a; x7a])] |})
    as [result [Hrun [_ [_ [_ Hdemo]]]]].
  exists result. split; [exact Hrun|].
  apply (Hdemo [x7a; x7a] [x7a; x7a] [(122, 122, 122); (122, 122, 122)]%Z);
    reflexivity.
Defined.

(** X14. Without the face libraries, a candidate whose bytes are those of
    the saved selfie always matches: its score is 0, and no number is
    drawn. *)
Theorem own_selfie_matches :
  forall (E : externals) (L : server_libs E) (image_path : string) (sv : server)
         (data : bytes) (reference_encoding : ref_encoding E)
         (url : string) (r : response) (tolerance : Q) (w : world),
    disk_read image_path (disk sv) = Some data ->
    fst (load_and_encode_face E L false image_path sv) = Returned (Some reference_encoding) ->
    http E url 15 = Ok r ->
    ~ (400 <= status_code r < 600)%Z ->
    content r = Ok data ->
    check_face_match E false url reference_encoding 15 tolerance w
    = (Ok (true, Some data), {| rng_pos := rng_pos w; net_log := net_log w ++ [url] |}).
Proof.
  intros E L path sv data ref url r tol w Hfile Hload Hh Hs Hc.
  rewrite load_and_encode_face_run, Hfile in Hload. cbn [fst selfie_encoding] in Hload.
  destruct (Image_open E data) as [img|e] eqn:Ho; [|discriminate].
  destruct (rgb_pixels E img) as [pixels|e] eqn:Hp; [|discriminate].
  inversion Hload; subst ref. clear Hload.
  rewrite check_face_match_run, Hh, (status_test_false r Hs).
  unfold match_response, try_except, demo_match, bind, lift, ret.
  rewrite Hc, Ho, Hp, Z.sub_diag. reflexivity.
Qed.

Lemma own_selfie_matches_witness :
  check_face_match Toy.libs false "zz" (DemoEncoding 244%Z) 15 0.6%Q
                   {| rng_pos := 3; net_log := [] |}
  = (Ok (true, Some [x7a; x7a]), {| rng_pos := 3; net_log := ["zz"] |}).
Proof.
  apply (own_selfie_matches Toy.libs ToyServer.libs "uploads/me.jpg"
           {| net := Toy.w0; disk := [("uploads/me.jpg", [x7a; x7a])] |}
           [x7a; x7a] (DemoEncoding 244%Z) "zz" (Response 200 (Ok [x7a; x7a])) 0.6%Q
           {| rng_pos := 3; net_log := [] |});
    try reflexivity.
  simpl. lia.
Defined.



Section RequestFacts.

Variable E : externals.
Variable L : server_libs E.
Variable avail : bool.


Lemma accepted_run : forall req sv selfie link,
  accepted E L req selfie link ->
  exists reply w',
    process_photos_request E L avail req sv
    = (Returned reply,
       {| net := w';
          disk := disk_delete (upload_path (secure_filename L (filename selfie)))
                              (disk sv) |}) /\
    match selfie_encoding E L avail (Some (stream selfie)) with
    | None =>
        reply = JsonError 400 "No face detected in selfie. Please upload a clear photo."
        /\ w' = net sv
    | Some reference_encoding =>
        match extract_folder_id (strip link) with
        | Ok (Some folder_id) =>
            process_photos E avail folder_id reference_encoding (net sv) = (Ok reply, w')
        | _ =>
            reply = JsonError 400 "Could not extract folder ID from URL" /\ w' = net sv
        end
    end.
Proof.
  intros req sv selfie link [H0 [H1 [H2 [H3 [H4 H5]]]]]. apply request_run; assumption.
Qed.

(** What [load_and_encode_face] returns right after the save. *)
Lemma load_after_save : forall selfie sv,
  fst (load_and_encode_face E L avail
         (upload_path (secure_filename L (filename selfie)))
         {| net := net sv;
            disk := disk_write (upload_path (secure_filename L (filename selfie)))
                               (stream selfie) (disk sv) |})
  = Returned (selfie_encoding E L avail (Some (stream selfie))).
Proof.
  intros selfie sv. rewrite load_and_encode_face_run. cbn [fst disk].
  rewrite disk_read_write. reflexivity.
Qed.

End RequestFacts.



(** X17. No request is made for a selfie without a face or a link without
    a folder id: when [load_and_encode_face] returns [None] on the saved
    selfie the answer is 400 "No face detected", when [extract_folder_id]
    finds no id it is 400 "Could not extract folder ID"; in both cases the
    world is as before and the selfie is removed. *)
Theorem no_face_or_id_no_scan :
  forall (E : externals) (L : server_libs E) (avail : bool) (req : request) (sv : server)
         (selfie : file_storage) (link : string),
    accepted E L req selfie link ->
    (fst (load_and_encode_face E L avail
            (upload_path (secure_filename L (filename selfie)))
            {| net := net sv;
               disk := disk_write (upload_path (secure_filename L (filename selfie)))
                                  (stream selfie) (disk sv) |})
     = Returned None ->
     process_photos_request E L avail req sv
     = (Returned (JsonError 400 "No face detected in selfie. Please upload a clear photo."),
        {| net := net sv;
           disk := disk_delete (upload_path (secure_filename L (filename selfie)))
                               (disk sv) |})) /\
    (forall reference_encoding,
        fst (load_and_encode_face E L avail
               (upload_path (secure_filename L (filename selfie)))
               {| net := net sv;
                  disk := disk_write (upload_path (secure_filename L (filename selfie)))
                                     (stream selfie) (disk sv) |})
        = Returned (Some reference_encoding) ->
        extract_folder_id (strip link) = Ok None ->
        process_photos_request E L avail req sv
        = (Returned (JsonError 400 "Could not extract folder ID from URL"),
           {| net := net sv;
              disk := disk_delete (upload_path (secure_filename L (filename selfie)))
                                  (disk sv) |})).
Proof.
  intros E L avail req sv selfie link Hacc.
  destruct (accepted_run E L avail req sv selfie link Hacc) as [reply [w' [Hrun Hcase]]].
  split.
  - intro Hload. rewrite load_after_save in Hload.
    assert (Henc : selfie_encoding E L avail (Some (stream selfie)) = None)
      by congruence.
    rewrite Henc in Hcase. destruct Hcase as [-> ->]. exact Hrun.
  - intros ref Hload Hid. rewrite load_after_save in Hload.
    assert (Henc : selfie_encoding E L avail (Some (stream selfie)) = Some ref)
      by congruence.
    rewrite Henc, Hid in Hcase. destruct Hcase as [-> ->]. exact Hrun.
Qed.

Lemma no_face_or_id_no_scan_witness :
  process_photos_request Toy.libs ToyServer.libs true
    (Request (Some (FileStorage "me.jpg" [x2d; x31]))
             (Some "https://drive.google.com/drive/folders/x") 2048)
    ToyServer.empty
  = (Returned (JsonError 400 "No face detected in selfie. Please upload a clear photo."),
     ToyServer.empty).
Proof.
  apply (proj1 (no_face_or_id_no_scan Toy.libs ToyServer.libs true
                  (Request (Some (FileStorage "me.jpg" [x2d; x31]))
                           (Some "https://drive.google.com/drive/folders/x") 2048)
                  ToyServer.empty (FileStorage "me.jpg" [x2d; x31])
                  "https://drive.google.com/drive/folders/x"
                  ltac:(repeat split; try reflexivity; discriminate))).
  reflexivity.
Defined.

(** X18. An accepted request whose selfie is encoded and whose link holds
    a folder id is answered exactly as [process_photos] answers for that
    encoding and that id, with the same requests made; the selfie is
    removed whatever the answer. *)
Theorem accepted_request_runs_the_scan :
  forall (E : externals) (L : server_libs E) (avail : bool) (req : request) (sv : server)
         (selfie : file_storage) (link : string)
         (reference_encoding : ref_encoding E) (folder_id : string),
    accepted E L req selfie link ->
    fst (load_and_encode_face E L avail
           (upload_path (secure_filename L (filename selfie)))
           {| net := net sv;
              disk := disk_write (upload_path (secure_filename L (filename selfie)))
                                 (stream selfie) (disk sv) |})
    = Returned (Some reference_encoding) ->
    extract_folder_id (strip link) = Ok (Some folder_id) ->
    exists reply w',
      process_photos E avail folder_id reference_encoding (net sv) = (Ok reply, w') /\
      process_photos_request E L avail req sv
      = (Returned reply,
         {| net := w';
            disk := disk_delete (upload_path (secure_filename L (filename selfie)))
                                (disk sv) |}).
Proof.
  intros E L avail req sv selfie link ref folder Hacc Hload Hid.
  destruct (accepted_run E L avail req sv selfie link Hacc) as [reply [w' [Hrun Hcase]]].
  rewrite load_after_save in Hload.
  assert (Henc : selfie_encoding E L avail (Some (stream selfie)) = Some ref)
    by congruence.
  rewrite Henc, Hid in Hcase. exists reply, w'. split; [exact Hcase|exact Hrun].
Qed.

Lemma accepted_request_runs_the_scan_witness :
  exists reply w',
    process_photos Toy.libs true "x" (RealEncoding 109%Z) Toy.w0 = (Ok reply, w') /\
    process_photos_request Toy.libs ToyServer.libs true
      (Request (Some (FileStorage "me.jpg" [x6d; x31]))
               (Some "  https://drive.google.com/drive/folders/x  ") 2048)
      ToyServer.empty
    = (Returned reply, {| net := w'; disk := [] |}).
Proof.
  apply (accepted_request_runs_the_scan Toy.libs ToyServer.libs true
           (Request (Some (FileStorage "me.jpg" [x6d; x31]))
                    (Some "  https://drive.google.com/drive/folders/x  ") 2048)
           ToyServer.empty (FileStorage "me.jpg" [x6d; x31])
           "  https://drive.google.com/drive/folders/x  "
           (RealEncoding 109%Z) "x").
  - repeat split; try reflexivity. discriminate.
  - reflexivity.
  - reflexivity.
Defined.



(** ** The file ids of a folder page *)

Lemma occurs_later : forall needle a s, occurs needle s -> occurs needle (String a s).
Proof.
  intros needle a s [before [rest H]]. exists (String a before), rest.
  simpl. rewrite H. reflexivity.
Qed.

Lemma occurs_later_all : forall (P Q : Prop) needle a s,
  P /\ Q /\ occurs needle s -> P /\ Q /\ occurs needle (String a s).
Proof.
  intros P Q needle a s [H1 [H2 H3]]. repeat split; auto. apply occurs_later. exact H3.
Qed.

Lemma file_id_match : forall s c g rest,
  In (c, g, rest) (matches file_id_pattern s) ->
  exists id,
    g = [id] /\ 25 <= String.length id /\ all_in id_char id /\
    s = (String quote id ++ String quote rest)%string.
Proof.
  intros s c g rest Hin.
  destruct (matches_sound _ _ _ _ _ Hin) as [Hs Hd].
  unfold file_id_pattern in Hd.
  inversion Hd as [| |r1 r2 c1 c2 g1 g2 Hd1 Hd2|]; subst.
  apply denotes_str_inv in Hd1. destruct Hd1 as [-> ->].
  inversion Hd2 as [| |r1 r2 c3 c4 g3 g4 Hd3 Hd4|]; subst.
  apply denotes_str_inv in Hd4. destruct Hd4 as [-> ->].
  inversion Hd3 as [| | |r c g Hd5]; subst.
  inversion Hd5; subst.
  exists c3. split; [reflexivity|]. split; [assumption|]. split; [assumption|].
  simpl. rewrite append_assoc. reflexivity.
Qed.

(** Every id that [findall] returns for the file-id pattern stood between
    quotes in the text, has 25 characters or more, all of them from
    [a-zA-Z0-9_-]. *)
Lemma findall_file_ids_found : forall s skip id,
  In id (findall_from file_id_pattern s skip) ->
  25 <= String.length id /\ all_in id_char id /\
  occurs (String quote id ++ String quote EmptyString) s.
Proof.
  intro s. induction s as [|a s IH]; intros skip id Hin.
  - destruct skip; [|contradiction]. cbn [findall_from] in Hin.
    destruct (matches file_id_pattern "") as [|[[c g] rest] tl] eqn:Hm; [contradiction|].
    destruct (file_id_match "" c g rest) as [id0 [_ [_ [_ Hs]]]];
      [rewrite Hm; left; reflexivity|discriminate].
  - destruct skip as [|skip].
    + cbn [findall_from] in Hin.
      destruct (matches file_id_pattern (String a s)) as [|[[c g] rest] tl] eqn:Hm.
      * apply occurs_later_all. exact (IH 0 id Hin).
      * destruct (file_id_match (String a s) c g rest) as [id0 [-> [Hl [Hall Hs]]]];
          [rewrite Hm; left; reflexivity|].
        destruct Hin as [<-|Hin].
        { split; [exact Hl|]. split; [exact Hall|].
          exists EmptyString, rest. rewrite Hs. simpl. rewrite append_assoc. reflexivity. }
        { apply occurs_later_all. exact (IH _ id Hin). }
    + cbn [findall_from] in Hin. apply occurs_later_all. exact (IH skip id Hin).
Qed.

(** X20. With the pattern of [get_drive_images] as the way ids are found,
    every id found stood between quotes on the page and has 25 characters
    or more, all from [a-zA-Z0-9_-]; so the length check of the loop never
    drops an id, and the listing is the download URLs of the first
    [max_images] ids of the page. *)
Theorem listed_ids_pass_the_length_check :
  forall (E : externals) (folder_id : string) (max_images : nat) (w : world)
         (r : response) (body : bytes),
    (forall text, findall_file_ids E text = re_findall file_id_pattern text) ->
    http E ("https://drive.google.com/drive/folders/" ++ folder_id)%string 10 = Ok r ->
    ~ (400 <= status_code r < 600)%Z ->
    content r = Ok body ->
    fst (get_drive_images E folder_id max_images w)
    = Ok (map direct_url
              (firstn max_images
                      (re_findall file_id_pattern (string_of_list_byte body)))) /\
    forall id,
      In id (re_findall file_id_pattern (string_of_list_byte body)) ->
      25 <= String.length id /\ all_in id_char id /\
      occurs (String quote id ++ String quote EmptyString) (string_of_list_byte body).
Proof.
  intros E folder mx w r body Hfind Hh Hs Hc.
  assert (Hids : forall id,
             In id (re_findall file_id_pattern (string_of_list_byte body)) ->
             25 <= String.length id /\ all_in id_char id /\
             occurs (String quote id ++ String quote EmptyString)
                    (string_of_list_byte body)).
  { intros id Hin. exact (findall_file_ids_found _ 0 id Hin). }
  split; [|exact Hids].
  destruct (listing_of_page_run E folder mx w r body Hh Hs Hc) as [_ Hlong].
  rewrite Hlong, Hfind; [reflexivity|].
  intros id Hin. rewrite Hfind in Hin. apply (Hids id Hin).
Qed.

Lemma listed_ids_pass_the_length_check_witness :
  fst (get_drive_images ToyPage.libs "x" 50 Toy.w0)
  = Ok [direct_url "abcdefghijklmnopqrstuvwxyz"; direct_url "ABCDEFGHIJKLMNOPQRSTUVWX_-"].
Proof.
  refine (eq_trans
            (proj1 (listed_ids_pass_the_length_check ToyPage.libs "x" 50 Toy.w0
                      (Response 200 (Ok (list_byte_of_string ToyPage.page)))
                      (list_byte_of_string ToyPage.page)
                      (fun text => eq_refl) eq_refl _ eq_refl)) _).
  - simpl. lia.
  - vm_compute. reflexivity.
Defined.

(** ** Surrounding whitespace *)

Lemma rstrip_cons : forall c s,
  rstrip (String c s)
  = match rstrip s with
    | EmptyString => if is_space c then EmptyString else String c EmptyString
    | rest => String c rest
    end.
Proof. reflexivity. Qed.

Lemma rstrip_idempotent : forall s, rstrip (rstrip s) = rstrip s.
Proof.
  intro s. induction s as [|c s IH]; [reflexivity|].
  rewrite rstrip_cons. destruct (rstrip s) as [|d t] eqn:Hr.
  - destruct (is_space c) eqn:Hc; [reflexivity|].
    rewrite rstrip_cons. cbn [rstrip]. rewrite Hc. reflexivity.
  - rewrite rstrip_cons, IH. reflexivity.
Qed.

Lemma lstrip_head : forall s, stops is_space (lstrip s).
Proof.
  intro s. induction s as [|c s IH]; [exact I|].
  cbn [lstrip]. destruct (is_space c) eqn:Hc; [exact IH|exact Hc].
Qed.

Lemma rstrip_head : forall s, stops is_space s -> stops is_space (rstrip s).
Proof.
  intros [|c s] H; [exact I|].
  cbn [rstrip]. simpl in H. destruct (rstrip s); [rewrite H|]; exact H.
Qed.

Lemma lstrip_fixed : forall s, stops is_space s -> lstrip s = s.
Proof. intros [|c s] H; [reflexivity|]. simpl in *. rewrite H. reflexivity. Qed.

Lemma strip_idempotent : forall s, strip (strip s) = strip s.
Proof.
  intro s. unfold strip.
  rewrite (lstrip_fixed (rstrip (lstrip s))) by (apply rstrip_head, lstrip_head).
  apply rstrip_idempotent.
Qed.

(** X21. The handler reads the link only after [strip]: a request whose
    link carries whitespace around it is treated, in answer and in
    effects, exactly as the request with the bare link; and stripping a
    stripped link changes nothing. *)
Theorem surrounding_whitespace_is_ignored :
  forall (E : externals) (L : server_libs E) (avail : bool) (req : request)
         (link : string) (sv : server),
    form_drive_link req = Some link ->
    strip (strip link) = strip link /\
    stops is_space (strip link) /\
    process_photos_request E L avail req sv
    = process_photos_request E L avail
        {| files_selfie := files_selfie req; form_drive_link := Some (strip link);
           content_length := content_length req |} sv.
Proof.
  intros E L avail req link sv Hlink.
  split; [apply strip_idempotent|].
  split; [apply rstrip_head, lstrip_head|].
  unfold process_photos_request, request_files.
  cbn [files_selfie form_drive_link content_length].
  rewrite Hlink, strip_idempotent. reflexivity.
Qed.

Lemma surrounding_whitespace_is_ignored_witness :
  process_photos_request Toy.libs ToyServer.libs true
    (Request (Some (FileStorage "me.jpg" [x6d; x31]))
             (Some "  https://drive.google.com/drive/folders/x  ") 2048)
    ToyServer.empty
  = process_photos_request Toy.libs ToyServer.libs true
      (Request (Some (FileStorage "me.jpg" [x6d; x31]))
               (Some "https://drive.google.com/drive/folders/x") 2048)
      ToyServer.empty.
Proof.
  apply (proj2 (proj2 (surrounding_whitespace_is_ignored Toy.libs ToyServer.libs true
                         (Request (Some (FileStorage "me.jpg" [x6d; x31]))
                                  (Some "  https://drive.google.com/drive/folders/x  ") 2048)
                         "  https://drive.google.com/drive/folders/x  "
                         ToyServer.empty eq_refl))).
Defined.

(** ** Where the matched bytes and the requests come from *)

Section Provenance.

Variable E : externals.
Variable avail : bool.
Variable reference_encoding : ref_encoding E.

(** Along the loop of a scan, every payload held is the non-empty body
    that one of the listed candidates answered with. *)
Lemma scan_reach_downloads : forall image_urls w0 c,
  scan_reach E avail reference_encoding image_urls w0 c ->
  forall b, In b (matched_images (locals c)) ->
    b <> [] /\
    exists url r, In url image_urls /\ http E url 15 = Ok r /\ content r = Ok b.
Proof.
  intros urls w0 c H. induction H as [|c c' Hreach IH Hstep]; [intros b []|].
  pose proof (scan_reach_inv E avail reference_encoding urls w0 c Hreach) as Hinv.
  destruct Hstep as [[i url] rest s w s' e w' Hbody].
  destruct Hinv as [k [Hrem _]]. cbn [remaining locals] in *.
  destruct (skipn k (firstn (max_images_of (List.length urls)) urls))
    as [|u tl] eqn:Hskip; [discriminate|].
  simpl in Hrem. inversion Hrem; subst i u rest. clear Hrem.
  assert (Hin : In url urls).
  { apply (firstn_incl _ (max_images_of (List.length urls))).
    rewrite <- (firstn_skipn k (firstn _ urls)). apply in_or_app. right.
    rewrite Hskip. left. reflexivity. }
  assert (Hmax : max_images_of (List.length urls) <> 0).
  { intro Hz. rewrite Hz in Hskip. simpl in Hskip. rewrite skipn_nil in Hskip.
    discriminate. }
  destruct (loop_body_step E avail reference_encoding (List.length urls) _
              (face_tolerance_of (List.length urls)) k url s w Hmax)
    as [result [w'' [_ [_ [Hres Heq]]]]].
  rewrite Heq in Hbody. inversion Hbody; subst s' e w''. clear Hbody Heq.
  intros b Hb. cbn [matched_images] in Hb. apply in_app_or in Hb.
  destruct Hb as [Hb|Hb]; [exact (IH b Hb)|].
  destruct Hres as [->|[r [data [Hh [Hc ->]]]]]; [contradiction|].
  destruct data as [|x data]; [contradiction|].
  destruct Hb as [<-|[]]. split; [discriminate|].
  exists url, r. auto.
Qed.



End Provenance.

(** X22. Every payload a scan returns is the body, of at least one byte,
    that one of the listed candidates answered with: nothing enters the
    matched list, and so the archive, that was not downloaded from a
    candidate of the listing. *)
Theorem matched_are_downloads :
  forall (E : externals) (avail : bool) (reference_encoding : ref_encoding E)
         (image_urls : list string) (w : world),
    exists s e w',
      scan_images E avail reference_encoding image_urls w = (Ok (s, e), w') /\
      forall b, In b (matched_images s) ->
        b <> [] /\
        exists url r, In url image_urls /\ http E url 15 = Ok r /\ content r = Ok b.
Proof.
  intros E avail ref urls w.
  destruct (scan_images_reach E avail ref urls w) as [s [e [w' [rest [Hrun [Hreach _]]]]]].
  exists s, e, w'. split; [exact Hrun|].
  exact (scan_reach_downloads E avail ref urls w _ Hreach).
Qed.

